(** * Executor-Coreland: the parser, semantic checker and executor of
    [Parser.py], embedded in Rocq.

    The development follows the source class by class.  Every class of
    [Parser.py] has a [parse], a [semantics] and an [execute] method; the
    three passes are given here as three families of mutually recursive
    functions named after the methods ([parse_Expr], [semantics_Expr],
    [execute_Expr], ...).  Scope frames ([scope_tree] objects) are shared
    and mutated in place by the source, so they live in a store indexed by
    object identity. *)

From Stdlib Require Import ZArith Ascii.
From stdpp Require Import base option list gmap strings.

Local Open Scope Z_scope.

(** ** Tokens *)

(** Modelled from the spec: [Core.py], which declares the enumeration
    [Token], is missing.  These are the kinds the specification lists;
    they are also the ones [Parser.py] names. *)
Inductive Token :=
| PROGRAM | BEGIN | END | INT | ID | CONST | COMMA | SEMICOLON | ASSIGN
| IF | THEN | ELSE | ENDIF | WHILE | ENDWHILE | INPUT | OUTPUT
| ADD | SUB | MULT | LPAREN | RPAREN | NEGATION | OR
| EQUAL | LESS | LESSEQUAL | ERROR.

#[global] Instance Token_eq_dec : EqDecision Token.
Proof. solve_decision. Defined.

(** Modelled from the spec: [Scanner.py] is missing.  A scanned token is
    its kind, with the payload that [getID] / [getCONST] return for
    identifiers and constants. *)
Inductive lexeme :=
| Lex (k : Token)
| LexId (name : string)
| LexConst (value : Z).

Definition kind (l : lexeme) : Token :=
  match l with
  | Lex k => k
  | LexId _ => ID
  | LexConst _ => CONST
  end.

(** ** Run outcomes

    [sys.exit] and uncaught Python exceptions both end the run; [error]
    lists every way [Parser.py] can do so.  [NotInstantiated x resolved]
    is the message of the [get] branches; [resolved] records which
    disjunct of [tree is None or ...] fired ([false]: [tree is None]).

    [BadStartToStatement] is the end of the run in the last branch of
    [StmtSeq.parse].  The message there names the token through
    [parser.scanner.token()], a method of the scanner that is not part of
    this code and that the token source of the specification does not
    have; so the outcome records the branch, and neither a token name nor
    whether the run ends by [sys.exit] or inside that call.

    [OutOfFuel] is not an outcome of [Parser.py]: it says that the bound
    given to a recursive routine did not suffice.  For the parser that
    bound is a depth of nested calls; CPython bounds that depth too
    ([Parser.py] leaves the recursion limit at its default) and ends the
    run with [RecursionError] where a program needs more.
    [PyRecursionError] is kept for the recursion of [dfs_scope]. *)

Inductive error :=
| InvalidlyPlaced (got expected : Token)
| BadStartToStatement
| InvalidOperator
| DeclarationsFollowingEnd
| NotInstantiated (x : string) (resolved : bool)
| DeclaredTwice (x : string)
| NotDeclared (x : string)
| InsufficientEntries
| PyTypeError
| PyIndexError
| PyKeyError
| PyValueError
| PyRecursionError.

Inductive res (A : Type) :=
| Ok (a : A)
| Err (e : error)
| OutOfFuel.
Arguments Ok {A} a.
Arguments Err {A} e.
Arguments OutOfFuel {A}.

#[global] Instance res_ret : MRet res := fun A a => Ok a.

#[global] Instance res_bind : MBind res := fun A B f m =>
  match m with
  | Ok a => f a
  | Err e => Err e
  | OutOfFuel => OutOfFuel
  end.

(** ** Scope frames

    [class scope_tree]: a dictionary and a reference to the next frame.
    Frames are objects; [loc] is object identity and a [store] holds the
    frames created so far, in creation order. *)

Definition loc := nat.

Record scope_tree (V : Type) := Scope {
  dict : gmap string V;
  child : option loc
}.
Arguments Scope {V} dict child.
Arguments dict {V} s.
Arguments child {V} s.

(** [scope_tree()] *)
Definition new_scope {V} : scope_tree V := Scope ∅ None.

#[global] Instance scope_tree_inhabited V : Inhabited (scope_tree V) :=
  populate new_scope.

Section Store.
Context {V : Type}.

(** Reading through a reference.  Every reference the program holds is
    to a frame of the store; an index past the end reads as an empty
    frame. *)
Definition frame (h : list (scope_tree V)) (l : loc) : scope_tree V :=
  h !!! l.

Definition alloc (h : list (scope_tree V)) : loc * list (scope_tree V) :=
  (length h, h ++ [new_scope]).

(** [l.child = c] *)
Definition set_child (h : list (scope_tree V)) (l : loc) (c : option loc)
  : list (scope_tree V) :=
  <[l := Scope (dict (frame h l)) c]> h.

(** [l.dict[x] = v] *)
Definition set_item (h : list (scope_tree V)) (l : loc) (x : string) (v : V)
  : list (scope_tree V) :=
  <[l := Scope (<[x := v]> (dict (frame h l))) (child (frame h l))]> h.

(** [x in l.dict] *)
Definition contains (h : list (scope_tree V)) (l : loc) (x : string) : bool :=
  bool_decide (is_Some (dict (frame h l) !! x)).

(** [Parser.dfs_scope].  The recursion follows [child] references; the
    depth is bounded by [fuel], and running out of it is Python's
    [RecursionError]. *)
Fixpoint dfs_scope_rec (fuel : nat) (h : list (scope_tree V)) (tree : loc)
    (var : string) : res (option loc) :=
  match fuel with
  | O => Err PyRecursionError
  | S fuel' =>
      sub ← match child (frame h tree) with
             | Some c => dfs_scope_rec fuel' h c var
             | None => Ok None
             end;
      match sub with
      | Some s =>
          if contains h s var then Ok (Some s)
          else if contains h tree var then Ok (Some tree) else Ok None
      | None =>
          if contains h tree var then Ok (Some tree) else Ok None
      end
  end.

(** A chain with more links than the store has frames revisits a frame,
    so it never ends: that is the only way the recursion of the source
    fails. *)
Definition dfs_scope (h : list (scope_tree V)) (tree : loc) (var : string)
  : res (option loc) :=
  dfs_scope_rec (S (length h)) h tree var.

(** The frames reached from [l] by following [child] up to a frame
    without one: the scope chain that starts at [l]. *)
Inductive chain (h : list (scope_tree V)) : loc -> list loc -> Prop :=
| chain_leaf l : child (frame h l) = None -> chain h l [l]
| chain_link l c ls :
    child (frame h l) = Some c -> chain h c ls -> chain h l (l :: ls).
End Store.

(** ** The parse tree

    Every class keeps its children in a list [nodes] that mixes tokens and
    sub-trees.  Each constructor below is one shape [parse] can leave in
    [nodes]; the shape is written next to it.  [If] and [While] carry the
    identity of the frame their constructor creates ([self.local]), and
    [Program] that of [self.program_scope]. *)

Inductive Expr :=
| Expr_1 (t : Term)                          (* [Term] *)
| Expr_3 (t : Term) (op : Token) (e : Expr)  (* [Term, ADD|SUB, Expr] *)
with Term :=
| Term_1 (f : Factor)                        (* [Factor] *)
| Term_3 (f : Factor) (op : Token) (t : Term) (* [Factor, MULT, Term] *)
with Factor :=
| Factor_Id (name : string)                  (* [Id] with Id.nodes = [ID, name] *)
| Factor_Const (value : Z)                   (* [Const] with Const.nodes = [value] *)
| Factor_paren (p : ExprParen)               (* [LPAREN, Expr, ..., RPAREN] *)
with ExprParen :=
| ExprParen_1 (e : Expr)                     (* LPAREN, Expr, RPAREN *)
| ExprParen_2 (e : Expr) (p : ExprParen).    (* LPAREN, Expr, <group>, RPAREN *)

Inductive Cond :=
| Cond_neg (p : CondParen)                   (* [NEGATION, LPAREN, Cond, ..., RPAREN] *)
| Cond_1 (c : Cmpr)                          (* [Cmpr] *)
| Cond_3 (c : Cmpr) (op : Token) (d : Cond)  (* [Cmpr, OR, Cond] *)
with Cmpr :=
| Cmpr_3 (e1 : Expr) (op : Token) (e2 : Expr) (* [Expr, EQUAL|LESS|LESSEQUAL, Expr] *)
| Cmpr_2 (e1 e2 : Expr)                      (* [Expr, Expr] *)
with CondParen :=
| CondParen_1 (c : Cond)
| CondParen_2 (c : Cond) (p : CondParen).

Inductive IdList :=
| IdList_1 (name : string)                   (* [Id] *)
| IdList_3 (name : string) (l : IdList).     (* [Id, COMMA, IdList] *)

(** [Decl.nodes = [INT, IdList, SEMICOLON]] *)
Inductive Decl := Decl_3 (l : IdList).

Inductive DeclSeq :=
| DeclSeq_1 (d : Decl)
| DeclSeq_2 (d : Decl) (ds : DeclSeq).

Inductive Stmt :=
| Assign (name : string) (e : Expr)          (* [Id, ASSIGN, Expr, SEMICOLON] *)
| Input (name : string)                      (* [INPUT, Id, SEMICOLON] *)
| Output (e : Expr)                          (* [OUTPUT, Expr, SEMICOLON] *)
| If_5 (local : loc) (c : Cond) (s : StmtSeq)
                                             (* [IF, Cond, THEN, StmtSeq, ENDIF] *)
| If_7 (local : loc) (c : Cond) (s1 s2 : StmtSeq)
                                  (* [IF, Cond, THEN, StmtSeq, ELSE, StmtSeq, ENDIF] *)
| While (local : loc) (c : Cond) (s : StmtSeq)
                                             (* [WHILE, Cond, BEGIN, StmtSeq, ENDWHILE] *)
| Stmt_Decl (d : Decl)
with StmtSeq :=
| StmtSeq_1 (s : Stmt)
| StmtSeq_2 (s : Stmt) (ss : StmtSeq).

(** [Program.nodes = [PROGRAM, DeclSeq, BEGIN, StmtSeq, END]] *)
Record Program := Program_5 {
  program_scope : loc;
  Program_decls : DeclSeq;
  Program_stmts : StmtSeq
}.

(** ** The parser driver *)

(** Modelled from the spec: [Scanner.currentToken] is missing.  The token
    source is the list of scanned tokens still to be consumed; its
    current token is the head, and once the list is exhausted it yields
    the end marker, which is [ERROR], the kind [Program.parse] requires
    after [END]. *)
Definition token (scanner : list lexeme) : Token :=
  match scanner with
  | l :: _ => kind l
  | [] => ERROR
  end.

(** Modelled from the spec: [Scanner.nextToken] is missing; it advances
    to the next token. *)
Definition next_token (scanner : list lexeme) : list lexeme := tail scanner.

Definition token_validate (scanner : list lexeme) (expected : Token) : res unit :=
  if decide (token scanner = expected) then Ok tt
  else Err (InvalidlyPlaced (token scanner) expected).

(** The token appended to [nodes] is the expected one, so it is part of
    the constructor's shape and only the advanced scanner is returned. *)
Definition token_assert (scanner : list lexeme) (expected : Token)
  : res (list lexeme) :=
  _ ← token_validate scanner expected;
  Ok (next_token scanner).

(** [Id.parse]: [get_id] is the payload of the validated token. *)
Definition parse_Id (scanner : list lexeme) : res (string * list lexeme) :=
  _ ← token_validate scanner ID;
  match scanner with
  | LexId name :: _ => Ok (name, next_token scanner)
  | _ => Err (InvalidlyPlaced (token scanner) ID)
  end.

(** [Const.parse] *)
Definition parse_Const (scanner : list lexeme) : res (Z * list lexeme) :=
  _ ← token_validate scanner CONST;
  match scanner with
  | LexConst value :: _ => Ok (value, next_token scanner)
  | _ => Err (InvalidlyPlaced (token scanner) CONST)
  end.

(** ** [parse]

    The routines recurse on the token source, not on a structure, so they
    are given a bound [fuel] on the depth of nested calls.  A routine
    that calls itself or a routine above it uses one unit for each such
    call, as [StmtSeq.parse] does for every further statement of a
    sequence. *)

Fixpoint parse_Expr (fuel : nat) (scanner : list lexeme)
    : res (Expr * list lexeme) :=
  match fuel with
  | O => OutOfFuel
  | S fuel =>
      '(t, scanner) ← parse_Term fuel scanner;
      if decide (token scanner = ADD) then
        scanner ← token_assert scanner ADD;
        '(e, scanner) ← parse_Expr fuel scanner;
        Ok (Expr_3 t ADD e, scanner)
      else if decide (token scanner = SUB) then
        scanner ← token_assert scanner SUB;
        '(e, scanner) ← parse_Expr fuel scanner;
        Ok (Expr_3 t SUB e, scanner)
      else Ok (Expr_1 t, scanner)
  end
with parse_Term (fuel : nat) (scanner : list lexeme)
    : res (Term * list lexeme) :=
  match fuel with
  | O => OutOfFuel
  | S fuel =>
      '(f, scanner) ← parse_Factor fuel scanner;
      if decide (token scanner = MULT) then
        scanner ← token_assert scanner MULT;
        '(t, scanner) ← parse_Term fuel scanner;
        Ok (Term_3 f MULT t, scanner)
      else Ok (Term_1 f, scanner)
  end
with parse_Factor (fuel : nat) (scanner : list lexeme)
    : res (Factor * list lexeme) :=
  match fuel with
  | O => OutOfFuel
  | S fuel =>
      if decide (token scanner = ID) then
        '(name, scanner) ← parse_Id scanner;
        Ok (Factor_Id name, scanner)
      else if decide (token scanner = CONST) then
        '(value, scanner) ← parse_Const scanner;
        Ok (Factor_Const value, scanner)
      else if decide (token scanner = LPAREN) then
        '(p, scanner) ← expr_paren_parse fuel scanner;
        Ok (Factor_paren p, scanner)
      else Err InvalidOperator
  end
with expr_paren_parse (fuel : nat) (scanner : list lexeme)
    : res (ExprParen * list lexeme) :=
  match fuel with
  | O => OutOfFuel
  | S fuel =>
      scanner ← token_assert scanner LPAREN;
      '(e, scanner) ← parse_Expr fuel scanner;
      if decide (token scanner = LPAREN) then
        '(p, scanner) ← expr_paren_parse fuel scanner;
        scanner ← token_assert scanner RPAREN;
        Ok (ExprParen_2 e p, scanner)
      else
        scanner ← token_assert scanner RPAREN;
        Ok (ExprParen_1 e, scanner)
  end.

Definition parse_Cmpr (fuel : nat) (scanner : list lexeme)
    : res (Cmpr * list lexeme) :=
  '(e1, scanner) ← parse_Expr fuel scanner;
  if decide (token scanner = EQUAL) then
    scanner ← token_assert scanner EQUAL;
    '(e2, scanner) ← parse_Expr fuel scanner;
    Ok (Cmpr_3 e1 EQUAL e2, scanner)
  else if decide (token scanner = LESS) then
    scanner ← token_assert scanner LESS;
    '(e2, scanner) ← parse_Expr fuel scanner;
    Ok (Cmpr_3 e1 LESS e2, scanner)
  else if decide (token scanner = LESSEQUAL) then
    scanner ← token_assert scanner LESSEQUAL;
    '(e2, scanner) ← parse_Expr fuel scanner;
    Ok (Cmpr_3 e1 LESSEQUAL e2, scanner)
  else
    '(e2, scanner) ← parse_Expr fuel scanner;
    Ok (Cmpr_2 e1 e2, scanner).

Fixpoint parse_Cond (fuel : nat) (scanner : list lexeme)
    : res (Cond * list lexeme) :=
  match fuel with
  | O => OutOfFuel
  | S fuel =>
      if decide (token scanner = NEGATION) then
        scanner ← token_assert scanner NEGATION;
        '(p, scanner) ← cond_paren_parse fuel scanner;
        Ok (Cond_neg p, scanner)
      else
        '(c, scanner) ← parse_Cmpr fuel scanner;
        if decide (token scanner = OR) then
          scanner ← token_assert scanner OR;
          '(d, scanner) ← parse_Cond fuel scanner;
          Ok (Cond_3 c OR d, scanner)
        else Ok (Cond_1 c, scanner)
  end
with cond_paren_parse (fuel : nat) (scanner : list lexeme)
    : res (CondParen * list lexeme) :=
  match fuel with
  | O => OutOfFuel
  | S fuel =>
      scanner ← token_assert scanner LPAREN;
      '(c, scanner) ← parse_Cond fuel scanner;
      if decide (token scanner = LPAREN) then
        '(p, scanner) ← cond_paren_parse fuel scanner;
        scanner ← token_assert scanner RPAREN;
        Ok (CondParen_2 c p, scanner)
      else
        scanner ← token_assert scanner RPAREN;
        Ok (CondParen_1 c, scanner)
  end.

Fixpoint parse_IdList (fuel : nat) (scanner : list lexeme)
    : res (IdList * list lexeme) :=
  match fuel with
  | O => OutOfFuel
  | S fuel =>
      '(name, scanner) ← parse_Id scanner;
      if decide (token scanner = COMMA) then
        scanner ← token_assert scanner COMMA;
        '(l, scanner) ← parse_IdList fuel scanner;
        Ok (IdList_3 name l, scanner)
      else Ok (IdList_1 name, scanner)
  end.

Definition parse_Decl (fuel : nat) (scanner : list lexeme)
    : res (Decl * list lexeme) :=
  scanner ← token_assert scanner INT;
  '(l, scanner) ← parse_IdList fuel scanner;
  scanner ← token_assert scanner SEMICOLON;
  Ok (Decl_3 l, scanner).

Fixpoint parse_DeclSeq (fuel : nat) (scanner : list lexeme)
    : res (DeclSeq * list lexeme) :=
  match fuel with
  | O => OutOfFuel
  | S fuel =>
      '(d, scanner) ← parse_Decl fuel scanner;
      if decide (token scanner = BEGIN) then Ok (DeclSeq_1 d, scanner)
      else
        '(ds, scanner) ← parse_DeclSeq fuel scanner;
        Ok (DeclSeq_2 d ds, scanner)
  end.

Definition parse_Assign (fuel : nat) (scanner : list lexeme)
    : res (Stmt * list lexeme) :=
  '(name, scanner) ← parse_Id scanner;
  scanner ← token_assert scanner ASSIGN;
  '(e, scanner) ← parse_Expr fuel scanner;
  scanner ← token_assert scanner SEMICOLON;
  Ok (Assign name e, scanner).

Definition parse_Input (scanner : list lexeme) : res (Stmt * list lexeme) :=
  scanner ← token_assert scanner INPUT;
  '(name, scanner) ← parse_Id scanner;
  scanner ← token_assert scanner SEMICOLON;
  Ok (Input name, scanner).

Definition parse_Output (fuel : nat) (scanner : list lexeme)
    : res (Stmt * list lexeme) :=
  scanner ← token_assert scanner OUTPUT;
  '(e, scanner) ← parse_Expr fuel scanner;
  scanner ← token_assert scanner SEMICOLON;
  Ok (Output e, scanner).

(** The statement routines also thread the frames of the checking pass:
    the constructors [If()] and [While()] each create the frame
    [self.local] when [StmtSeq.parse] appends the node, before the node's
    own [parse] runs.  A token that starts no statement ends the run in
    the last branch of [StmtSeq.parse], whatever the call
    [parser.scanner.token()] in its message does. *)
Fixpoint parse_StmtSeq (fuel : nat) (scanner : list lexeme)
    (frames : list (scope_tree bool))
    : res (StmtSeq * list lexeme * list (scope_tree bool)) :=
  match fuel with
  | O => OutOfFuel
  | S fuel =>
      '(s, scanner, frames) ←
        (if decide (token scanner = ID) then
           '(s, scanner) ← parse_Assign fuel scanner; Ok (s, scanner, frames)
         else if decide (token scanner = INPUT) then
           '(s, scanner) ← parse_Input scanner; Ok (s, scanner, frames)
         else if decide (token scanner = OUTPUT) then
           '(s, scanner) ← parse_Output fuel scanner; Ok (s, scanner, frames)
         else if decide (token scanner = IF) then
           let '(local, frames) := alloc frames in
           parse_If fuel local scanner frames
         else if decide (token scanner = WHILE) then
           let '(local, frames) := alloc frames in
           parse_While fuel local scanner frames
         else if decide (token scanner = INT) then
           '(d, scanner) ← parse_Decl fuel scanner;
           Ok (Stmt_Decl d, scanner, frames)
         else Err BadStartToStatement);
      if decide (token scanner ≠ END ∧ token scanner ≠ ENDIF
                 ∧ token scanner ≠ ENDWHILE ∧ token scanner ≠ ELSE) then
        '(ss, scanner, frames) ← parse_StmtSeq fuel scanner frames;
        Ok (StmtSeq_2 s ss, scanner, frames)
      else Ok (StmtSeq_1 s, scanner, frames)
  end
with parse_If (fuel : nat) (local : loc) (scanner : list lexeme)
    (frames : list (scope_tree bool))
    : res (Stmt * list lexeme * list (scope_tree bool)) :=
  match fuel with
  | O => OutOfFuel
  | S fuel =>
      scanner ← token_assert scanner IF;
      '(c, scanner) ← parse_Cond fuel scanner;
      scanner ← token_assert scanner THEN;
      '(s1, scanner, frames) ← parse_StmtSeq fuel scanner frames;
      if decide (token scanner = ELSE) then
        scanner ← token_assert scanner ELSE;
        '(s2, scanner, frames) ← parse_StmtSeq fuel scanner frames;
        scanner ← token_assert scanner ENDIF;
        Ok (If_7 local c s1 s2, scanner, frames)
      else
        scanner ← token_assert scanner ENDIF;
        Ok (If_5 local c s1, scanner, frames)
  end
with parse_While (fuel : nat) (local : loc) (scanner : list lexeme)
    (frames : list (scope_tree bool))
    : res (Stmt * list lexeme * list (scope_tree bool)) :=
  match fuel with
  | O => OutOfFuel
  | S fuel =>
      scanner ← token_assert scanner WHILE;
      '(c, scanner) ← parse_Cond fuel scanner;
      scanner ← token_assert scanner BEGIN;
      '(s, scanner, frames) ← parse_StmtSeq fuel scanner frames;
      scanner ← token_assert scanner ENDWHILE;
      Ok (While local c s, scanner, frames)
  end.

(** [Program.parse] *)
Definition parse_Program (fuel : nat) (program_scope : loc)
    (scanner : list lexeme) (frames : list (scope_tree bool))
    : res (Program * list (scope_tree bool)) :=
  scanner ← token_assert scanner PROGRAM;
  '(ds, scanner) ← parse_DeclSeq fuel scanner;
  scanner ← token_assert scanner BEGIN;
  '(ss, scanner, frames) ← parse_StmtSeq fuel scanner frames;
  scanner ← token_assert scanner END;
  if decide (token scanner ≠ ERROR) then Err DeclarationsFollowingEnd
  else Ok (Program_5 program_scope ds ss, frames).

(** The state of a [Parser] object between the passes: the tree, the root
    frame and the store of frames. *)
Record Parser (V : Type) := Parser_ {
  tree : Program;
  global_scope : loc;
  frames : list (scope_tree V)
}.
Arguments Parser_ {V} tree global_scope frames.
Arguments tree {V} p.
Arguments global_scope {V} p.
Arguments frames {V} p.

(** [Parser(f_name)] followed by [self.tree.parse(self)], on the tokens
    the scanner produces for the file.  [Parser.__init__] creates the two
    empty frames [global_scope] and [Program().program_scope] before any
    token is read; the root is given the first identity. *)
Definition Parser_parse (fuel : nat) (scanner : list lexeme)
    : res (Parser bool) :=
  let '(global_scope, frames) := alloc [] in
  let '(program_scope, frames) := alloc frames in
  '(tree, frames) ← parse_Program fuel program_scope scanner frames;
  Ok (Parser_ tree global_scope frames).

(** ** [semantics]

    The second argument of every [semantics] method is a label; the
    callers of [Parser.py] pass ['declare'], ['assign'], ['call'] or
    [None], and [Id.semantics] also tests for ['get']. *)

Inductive label := get | declare | assign | call | expr.

(** [Id.semantics].  [root] is [parser.global_scope]; [node] is the name
    held in [Id.nodes]. *)
Definition semantics_Id (root : loc) (frames : list (scope_tree bool))
    (node : string) (parent : option label) (scope : loc)
    : res (list (scope_tree bool)) :=
  tree ← dfs_scope frames root node;
  match parent with
  | Some get =>
      match tree with
      | None => Err (NotInstantiated node false)
      | Some t =>
          match dict (frame frames t) !! node with
          | None => Err PyKeyError
          | Some status =>
              if negb status then Err (NotInstantiated node true)
              else Ok frames
          end
      end
  | Some declare =>
      if negb (contains frames scope node)
      then Ok (set_item frames scope node false)
      else Err (DeclaredTwice node)
  | Some assign =>
      match tree with
      | None => Err (NotDeclared node)
      | Some t => Ok (set_item frames t node true)
      end
  | _ => Ok frames
  end.

Section Semantics.
Variable root : loc.

Fixpoint semantics_Expr (frames : list (scope_tree bool)) (e : Expr)
    (parent : option label) (scope : loc) : res (list (scope_tree bool)) :=
  match e with
  | Expr_1 t => semantics_Term frames t parent scope
  | Expr_3 t _ e =>
      frames ← semantics_Term frames t parent scope;
      semantics_Expr frames e parent scope
  end
with semantics_Term (frames : list (scope_tree bool)) (t : Term)
    (parent : option label) (scope : loc) : res (list (scope_tree bool)) :=
  match t with
  | Term_1 f => semantics_Factor frames f parent scope
  | Term_3 f _ t =>
      frames ← semantics_Factor frames f parent scope;
      semantics_Term frames t parent scope
  end
with semantics_Factor (frames : list (scope_tree bool)) (f : Factor)
    (parent : option label) (scope : loc) : res (list (scope_tree bool)) :=
  match f with
  | Factor_Id name => semantics_Id root frames name parent scope
  | Factor_Const _ => Ok frames
  | Factor_paren p => semantics_ExprParen frames p parent scope
  end
with semantics_ExprParen (frames : list (scope_tree bool)) (p : ExprParen)
    (parent : option label) (scope : loc) : res (list (scope_tree bool)) :=
  match p with
  | ExprParen_1 e => semantics_Expr frames e parent scope
  | ExprParen_2 e p =>
      frames ← semantics_Expr frames e parent scope;
      semantics_ExprParen frames p parent scope
  end.

Definition semantics_Cmpr (frames : list (scope_tree bool)) (c : Cmpr)
    (parent : option label) (scope : loc) : res (list (scope_tree bool)) :=
  match c with
  | Cmpr_3 e1 _ e2 | Cmpr_2 e1 e2 =>
      frames ← semantics_Expr frames e1 parent scope;
      semantics_Expr frames e2 parent scope
  end.

Fixpoint semantics_Cond (frames : list (scope_tree bool)) (c : Cond)
    (parent : option label) (scope : loc) : res (list (scope_tree bool)) :=
  match c with
  | Cond_neg p => semantics_CondParen frames p parent scope
  | Cond_1 c => semantics_Cmpr frames c parent scope
  | Cond_3 c _ d =>
      frames ← semantics_Cmpr frames c parent scope;
      semantics_Cond frames d parent scope
  end
with semantics_CondParen (frames : list (scope_tree bool)) (p : CondParen)
    (parent : option label) (scope : loc) : res (list (scope_tree bool)) :=
  match p with
  | CondParen_1 c => semantics_Cond frames c parent scope
  | CondParen_2 c p =>
      frames ← semantics_Cond frames c parent scope;
      semantics_CondParen frames p parent scope
  end.

Fixpoint semantics_IdList (frames : list (scope_tree bool)) (l : IdList)
    (parent : option label) (scope : loc) : res (list (scope_tree bool)) :=
  match l with
  | IdList_1 name => semantics_Id root frames name parent scope
  | IdList_3 name l =>
      frames ← semantics_Id root frames name parent scope;
      semantics_IdList frames l parent scope
  end.

(** [Decl.semantics] replaces the label by ['declare']. *)
Definition semantics_Decl (frames : list (scope_tree bool)) (d : Decl)
    (parent : option label) (scope : loc) : res (list (scope_tree bool)) :=
  match d with
  | Decl_3 l => semantics_IdList frames l (Some declare) scope
  end.

Fixpoint semantics_DeclSeq (frames : list (scope_tree bool)) (ds : DeclSeq)
    (parent : option label) (scope : loc) : res (list (scope_tree bool)) :=
  match ds with
  | DeclSeq_1 d => semantics_Decl frames d parent scope
  | DeclSeq_2 d ds =>
      frames ← semantics_Decl frames d parent scope;
      semantics_DeclSeq frames ds parent scope
  end.

(** [If.semantics] and [While.semantics] attach [self.local] to the
    frame they are given, check their children against [self.local], and
    detach it when the loop over [nodes] reaches [ENDIF] / [ENDWHILE].
    Both branches of an [If] are checked against the same frame. *)
Fixpoint semantics_Stmt (frames : list (scope_tree bool)) (s : Stmt)
    (parent : option label) (scope : loc) : res (list (scope_tree bool)) :=
  match s with
  | Assign name e =>
      frames ← semantics_Id root frames name (Some assign) scope;
      semantics_Expr frames e (Some assign) scope
  | Input name => semantics_Id root frames name (Some assign) scope
  | Output e => semantics_Expr frames e (Some call) scope
  | If_5 local c s =>
      let frames := set_child frames scope (Some local) in
      frames ← semantics_Cond frames c parent local;
      frames ← semantics_StmtSeq frames s parent local;
      Ok (set_child frames scope None)
  | If_7 local c s1 s2 =>
      let frames := set_child frames scope (Some local) in
      frames ← semantics_Cond frames c parent local;
      frames ← semantics_StmtSeq frames s1 parent local;
      frames ← semantics_StmtSeq frames s2 parent local;
      Ok (set_child frames scope None)
  | While local c s =>
      let frames := set_child frames scope (Some local) in
      frames ← semantics_Cond frames c parent local;
      frames ← semantics_StmtSeq frames s parent local;
      Ok (set_child frames scope None)
  | Stmt_Decl d => semantics_Decl frames d parent scope
  end
with semantics_StmtSeq (frames : list (scope_tree bool)) (ss : StmtSeq)
    (parent : option label) (scope : loc) : res (list (scope_tree bool)) :=
  match ss with
  | StmtSeq_1 s => semantics_Stmt frames s parent scope
  | StmtSeq_2 s ss =>
      frames ← semantics_Stmt frames s parent scope;
      semantics_StmtSeq frames ss parent scope
  end.

(** [Program.semantics]: the declaration sequence is checked against the
    root frame; at [BEGIN] the frame [program_scope] is attached to the
    root and becomes the scope of the statements.  It is not detached. *)
Definition semantics_Program (frames : list (scope_tree bool)) (p : Program)
    : res (list (scope_tree bool)) :=
  let scope := root in
  frames ← semantics_DeclSeq frames (Program_decls p) None scope;
  let scope := program_scope p in
  let frames := set_child frames root (Some scope) in
  semantics_StmtSeq frames (Program_stmts p) None scope.
End Semantics.

(** [self.tree.semantics(self)], the second half of [Parser.build_tree]. *)
Definition Parser_semantics (parser : Parser bool) : res (Parser bool) :=
  frames ← semantics_Program (global_scope parser) (frames parser) (tree parser);
  Ok (Parser_ (tree parser) (global_scope parser) frames).

(** [Parser.build_tree] *)
Definition build_tree (fuel : nat) (scanner : list lexeme) : res (Parser bool) :=
  parser ← Parser_parse fuel scanner;
  Parser_semantics parser.

(** ** Run-time values

    The objects stored in the frames of the executor: Python integers,
    which are unbounded, and strings, which is what [clean_data] leaves
    in the input queue.  [None] (declared, not assigned) is the [None] of
    [option value]. *)

Inductive value :=
| VInt (z : Z)
| VStr (s : string).

#[global] Instance value_eq_dec : EqDecision value.
Proof. solve_decision. Defined.

(** [s * n] on a string *)
Definition str_repeat (s : string) (n : Z) : string :=
  String.concat "" (replicate (Z.to_nat n) s).

(** [a + b], [a - b], [a * b]: a [TypeError] where Python has no such
    operation for the operand types. *)
Definition py_add (a b : value) : res value :=
  match a, b with
  | VInt x, VInt y => Ok (VInt (x + y))
  | VStr s, VStr t => Ok (VStr (s +:+ t))
  | _, _ => Err PyTypeError
  end.

Definition py_sub (a b : value) : res value :=
  match a, b with
  | VInt x, VInt y => Ok (VInt (x - y))
  | _, _ => Err PyTypeError
  end.

Definition py_mul (a b : value) : res value :=
  match a, b with
  | VInt x, VInt y => Ok (VInt (x * y))
  | VStr s, VInt n | VInt n, VStr s => Ok (VStr (str_repeat s n))
  | VStr _, VStr _ => Err PyTypeError
  end.

(** [a < b], [a <= b], [a == b] *)
Definition py_lt (a b : value) : res bool :=
  match a, b with
  | VInt x, VInt y => Ok (x <? y)
  | VStr s, VStr t => Ok (String.ltb s t)
  | _, _ => Err PyTypeError
  end.

Definition py_le (a b : value) : res bool :=
  match a, b with
  | VInt x, VInt y => Ok (x <=? y)
  | VStr s, VStr t => Ok (String.leb s t)
  | _, _ => Err PyTypeError
  end.

Definition py_eq (a b : value) : bool :=
  match a, b with
  | VInt x, VInt y => x =? y
  | VStr s, VStr t => String.eqb s t
  | _, _ => false
  end.

(** ** [Parser.clean_data]

    [text.split(' ')] cuts at every single space and keeps empty pieces. *)
Fixpoint split_space (text : string) : list string :=
  match text with
  | EmptyString => [EmptyString]
  | String c rest =>
      if Ascii.eqb c " "%char then EmptyString :: split_space rest
      else match split_space rest with
           | w :: ws => String c w :: ws
           | [] => [String c EmptyString]
           end
  end.

(** [int(c)] on a string, for ASCII text: surrounding white space, an
    optional sign, decimal digits with single underscores between them.
    The white space [int] skips in an ASCII string is the space and the
    characters 9 to 13, and no other. *)
Definition py_isspace (c : ascii) : bool :=
  let n := nat_of_ascii c in
  ((9 <=? n) && (n <=? 13) || (n =? 32))%nat.

Definition py_digit (c : ascii) : option Z :=
  let n := Z.of_nat (nat_of_ascii c) in
  if (48 <=? n) && (n <=? 57) then Some (n - 48) else None.

Fixpoint py_digits (acc : Z) (after_digit : bool) (l : list ascii) : option Z :=
  match l with
  | [] => if after_digit then Some acc else None
  | c :: l =>
      match py_digit c with
      | Some d => py_digits (10 * acc + d) true l
      | None =>
          if Ascii.eqb c "_"%char && after_digit then py_digits acc false l
          else None
      end
  end.

Fixpoint py_lstrip (l : list ascii) : list ascii :=
  match l with
  | c :: l' => if py_isspace c then py_lstrip l' else l
  | [] => []
  end.

Definition py_strip (l : list ascii) : list ascii :=
  reverse (py_lstrip (reverse (py_lstrip l))).

Definition py_int (s : string) : option Z :=
  match py_strip (String.list_ascii_of_string s) with
  | c :: l =>
      if Ascii.eqb c "-"%char then Z.opp <$> py_digits 0 false l
      else if Ascii.eqb c "+"%char then py_digits 0 false l
      else py_digits 0 false (c :: l)
  | [] => None
  end.

(** The loop [for c in consts: c = int(c)] rebinds the loop variable and
    leaves the list as it is: every piece must convert (or [int] raises
    [ValueError]), and the strings themselves are returned. *)
Definition clean_data (text : string) : res (list value) :=
  let consts := split_space text in
  if forallb (fun c => bool_decide (is_Some (py_int c))) consts
  then Ok (VStr <$> consts)
  else Err PyValueError.

(** ** [execute]

    The state of the executor: the store of frames, the input queue
    [parser.data] and the lines printed so far (the arguments of the
    calls of [print], oldest first). *)

Record Run := Run_ {
  run_frames : list (scope_tree (option value));
  data : list value;
  printed : list value
}.

Section Execute.
(** [parser.global_scope] *)
Variable root : loc.

(** [Id.execute] answers by its label.  With ['get'] it returns the
    stored value. *)
Definition execute_Id_get (frames : list (scope_tree (option value)))
    (node : string) : res value :=
  tree ← dfs_scope frames root node;
  match tree with
  | None => Err (NotInstantiated node false)
  | Some t =>
      match dict (frame frames t) !! node with
      | None => Err PyKeyError
      | Some None => Err (NotInstantiated node true)
      | Some (Some v) => Ok v
      end
  end.

(** With ['declare'] it enters the name in the frame it is given. *)
Definition execute_Id_declare (frames : list (scope_tree (option value)))
    (node : string) (local : loc) : res (list (scope_tree (option value))) :=
  tree ← dfs_scope frames root node;
  if negb (contains frames local node)
  then Ok (set_item frames local node None)
  else Err (DeclaredTwice node).

(** With ['assign'] it returns the name and the frame that holds it. *)
Definition execute_Id_assign (frames : list (scope_tree (option value)))
    (node : string) : res (string * loc) :=
  tree ← dfs_scope frames root node;
  match tree with
  | None => Err (NotDeclared node)
  | Some t => Ok (node, t)
  end.

(** Expressions and conditions only read the frames.  Their [caller]
    and [local] arguments are passed down and never inspected:
    [Factor.execute] hands the literal ['get'] to [Id.execute]. *)
Fixpoint execute_Expr (frames : list (scope_tree (option value))) (e : Expr)
    : res value :=
  match e with
  | Expr_1 t => execute_Term frames t
  | Expr_3 t op e =>
      val ← execute_Term frames t;
      if decide (op = ADD) then
        r ← execute_Expr frames e; py_add val r
      else if decide (op = SUB) then
        r ← execute_Expr frames e; py_sub val r
      else Ok val
  end
with execute_Term (frames : list (scope_tree (option value))) (t : Term)
    : res value :=
  match t with
  | Term_1 f => execute_Factor frames f
  | Term_3 f op t =>
      val ← execute_Factor frames f;
      if decide (op = MULT) then
        r ← execute_Term frames t; py_mul val r
      else Ok val
  end
with execute_Factor (frames : list (scope_tree (option value))) (f : Factor)
    : res value :=
  match f with
  | Factor_Const value => Ok (VInt value)
  | Factor_Id name => execute_Id_get frames name
  | Factor_paren p => execute_ExprParen frames p
  end
with execute_ExprParen (frames : list (scope_tree (option value)))
    (p : ExprParen) : res value :=
  (* [self.nodes[1]]: the expression after the first [LPAREN] *)
  match p with
  | ExprParen_1 e | ExprParen_2 e _ => execute_Expr frames e
  end.

(** [Cmpr.execute]: anything but [LESS] or [EQUAL] in [nodes[1]] takes
    the last branch, which reads [nodes[2]]; when the operator is
    missing, [nodes] has two elements only. *)
Definition execute_Cmpr (frames : list (scope_tree (option value))) (c : Cmpr)
    : res bool :=
  match c with
  | Cmpr_3 e1 op e2 =>
      expr ← execute_Expr frames e1;
      if decide (op = LESS) then
        r ← execute_Expr frames e2; py_lt expr r
      else if decide (op = EQUAL) then
        r ← execute_Expr frames e2; Ok (py_eq expr r)
      else
        r ← execute_Expr frames e2; py_le expr r
  | Cmpr_2 e1 e2 =>
      expr ← execute_Expr frames e1;
      Err PyIndexError
  end.

Fixpoint execute_Cond (frames : list (scope_tree (option value))) (c : Cond)
    : res bool :=
  match c with
  | Cond_1 c => execute_Cmpr frames c
  | Cond_3 c op d =>
      val ← execute_Cmpr frames c;
      if decide (op = OR) then
        r ← execute_Cond frames d; Ok (val || r)
      else Ok val
  | Cond_neg p =>
      r ← execute_CondParen frames p; Ok (negb r)
  end
with execute_CondParen (frames : list (scope_tree (option value)))
    (p : CondParen) : res bool :=
  (* [self.nodes[2]]: the condition after [NEGATION, LPAREN] *)
  match p with
  | CondParen_1 c | CondParen_2 c _ => execute_Cond frames c
  end.

Fixpoint execute_IdList (frames : list (scope_tree (option value)))
    (l : IdList) (local : loc) : res (list (scope_tree (option value))) :=
  match l with
  | IdList_1 name => execute_Id_declare frames name local
  | IdList_3 name l =>
      frames ← execute_Id_declare frames name local;
      execute_IdList frames l local
  end.

Definition execute_Decl (frames : list (scope_tree (option value)))
    (d : Decl) (local : loc) : res (list (scope_tree (option value))) :=
  match d with
  | Decl_3 l => execute_IdList frames l local
  end.

Fixpoint execute_DeclSeq (frames : list (scope_tree (option value)))
    (ds : DeclSeq) (local : loc) : res (list (scope_tree (option value))) :=
  match ds with
  | DeclSeq_1 d => execute_Decl frames d local
  | DeclSeq_2 d ds =>
      frames ← execute_Decl frames d local;
      execute_DeclSeq frames ds local
  end.

(** [Assign.execute]: the target is resolved first, then the expression
    is evaluated and stored in the frame found. *)
Definition execute_Assign (st : Run) (name : string) (e : Expr) : res Run :=
  '(var, tree) ← execute_Id_assign (run_frames st) name;
  expr ← execute_Expr (run_frames st) e;
  Ok (Run_ (set_item (run_frames st) tree var (Some expr))
           (data st) (printed st)).

(** [Input.execute] *)
Definition execute_Input (st : Run) (name : string) : res Run :=
  '(var, tree) ← execute_Id_assign (run_frames st) name;
  match data st with
  | v :: rest =>
      Ok (Run_ (set_item (run_frames st) tree var (Some v)) rest (printed st))
  | [] => Err InsufficientEntries
  end.

(** [Output.execute] *)
Definition execute_Output (st : Run) (e : Expr) : res Run :=
  v ← execute_Expr (run_frames st) e;
  Ok (Run_ (run_frames st) (data st) (printed st ++ [v])).

(** [self.local = scope_tree(); local.child = self.local], the first two
    lines of [If.execute] and [While.execute].  The slot [self.local] is
    overwritten here and read only inside the same call, so the new
    frame's identity is returned instead of being stored in the tree. *)
Definition enter (st : Run) (local : loc) : loc * Run :=
  let '(self_local, frames) := alloc (run_frames st) in
  (self_local, Run_ (set_child frames local (Some self_local))
                    (data st) (printed st)).

(** [local.child = None] *)
Definition leave (st : Run) (local : loc) : Run :=
  Run_ (set_child (run_frames st) local None) (data st) (printed st).

(** Statements.  A [while] loop may run forever, so the statement
    routines take a bound [fuel] on the depth of calls and on the number
    of iterations.  [execute_loop] is the Python loop
    [while cond.execute(...): stmt.execute(parser, caller, local)] of
    [While.execute]: the body is run against [local], the frame the
    [While] was given, not against [self.local]. *)
Fixpoint execute_Stmt (fuel : nat) (st : Run) (s : Stmt) (local : loc)
    : res Run :=
  match fuel with
  | O => OutOfFuel
  | S fuel =>
      match s with
      | Assign name e => execute_Assign st name e
      | Input name => execute_Input st name
      | Output e => execute_Output st e
      | If_5 _ c s =>
          let '(self_local, st) := enter st local in
          truth ← execute_Cond (run_frames st) c;
          st ← (if truth : bool then execute_StmtSeq fuel st s self_local
                else Ok st);
          Ok (leave st local)
      | If_7 _ c s1 s2 =>
          let '(self_local, st) := enter st local in
          truth ← execute_Cond (run_frames st) c;
          st ← (if truth : bool then execute_StmtSeq fuel st s1 self_local
                else execute_StmtSeq fuel st s2 self_local);
          Ok (leave st local)
      | While _ c s =>
          let '(self_local, st) := enter st local in
          st ← execute_loop fuel st c s local;
          Ok (leave st local)
      | Stmt_Decl d =>
          frames ← execute_Decl (run_frames st) d local;
          Ok (Run_ frames (data st) (printed st))
      end
  end
with execute_StmtSeq (fuel : nat) (st : Run) (ss : StmtSeq) (local : loc)
    : res Run :=
  match fuel with
  | O => OutOfFuel
  | S fuel =>
      match ss with
      | StmtSeq_1 s => execute_Stmt fuel st s local
      | StmtSeq_2 s ss =>
          st ← execute_Stmt fuel st s local;
          execute_StmtSeq fuel st ss local
      end
  end
with execute_loop (fuel : nat) (st : Run) (cond : Cond) (stmt : StmtSeq)
    (local : loc) : res Run :=
  match fuel with
  | O => OutOfFuel
  | S fuel =>
      truth ← execute_Cond (run_frames st) cond;
      if truth : bool then
        st ← execute_StmtSeq fuel st stmt local;
        execute_loop fuel st cond stmt local
      else Ok st
  end.

(** [Program.execute]: a new [program_scope] is created first; the
    declaration sequence runs against the root frame, the statements
    against [program_scope], attached to the root at [BEGIN]. *)
Definition execute_Program (fuel : nat) (st : Run) (p : Program) : res Run :=
  let scope := root in
  let '(program_scope, frames) := alloc (run_frames st) in
  frames ← execute_DeclSeq frames (Program_decls p) scope;
  let scope := program_scope in
  let frames := set_child frames root (Some scope) in
  execute_StmtSeq fuel (Run_ frames (data st) (printed st))
                  (Program_stmts p) scope.
End Execute.

(** [Parser.execute_tree], on the text of the data file: the queue is
    read, the root frame is replaced by a new one, and the tree runs.
    None of the frames of the checking pass is reachable from the new
    root, so the executor starts from an empty store. *)
Definition execute_tree (fuel : nat) (tree : Program) (text : string)
    : res Run :=
  data ← clean_data text;
  let '(global_scope, frames) := alloc [] in
  execute_Program global_scope fuel (Run_ frames data []) tree.

(** [Main.main]: [build_tree] and then [execute_tree]. *)
Definition main (fuel : nat) (scanner : list lexeme) (text : string)
    : res Run :=
  parser ← build_tree fuel scanner;
  execute_tree fuel (tree parser) text.

(** * Vocabulary of the statements *)

Local Close Scope Z_scope.

(** ** Shapes of the store *)

(** Every [child] reference leads to a frame created later, inside the
    store.  The passes keep their stores in this shape, which rules out
    cyclic chains. *)
Definition forward {V} (h : list (scope_tree V)) : Prop :=
  ∀ l c, child (frame h l) = Some c -> l < c ∧ c < length h.

(** No frame is removed and no name leaves a dictionary. *)
Definition grows {V} (h h' : list (scope_tree V)) : Prop :=
  length h ≤ length h'
  ∧ ∀ l x, contains h l x = true -> contains h' l x = true.

(** What a statement of the executor leaves when it returns: a
    [forward] store that has grown. *)
Definition keeps (st st' : Run) : Prop :=
  forward (run_frames st') ∧ grows (run_frames st) (run_frames st').

(** The same for a step of the checking pass. *)
Definition kept (frames frames' : list (scope_tree bool)) : Prop :=
  forward frames' ∧ grows frames frames'.

(** [frames'] is [frames] followed by frames that are still empty. *)
Definition extended (frames frames' : list (scope_tree bool)) : Prop :=
  ∃ k, frames' = frames ++ replicate k new_scope.

(** ** Shapes of the tree *)

Definition first_name (l : IdList) : string :=
  match l with
  | IdList_1 name | IdList_3 name _ => name
  end.

(** The first name a statement sequence declares, when it starts with a
    declaration. *)
Definition declares_first (ss : StmtSeq) : option string :=
  match ss with
  | StmtSeq_1 (Stmt_Decl (Decl_3 l))
  | StmtSeq_2 (Stmt_Decl (Decl_3 l)) _ => Some (first_name l)
  | _ => None
  end.

(** The first names of the declarations that stand among the top-level
    statements of a sequence. *)
Fixpoint declared_names (ss : StmtSeq) : list string :=
  match ss with
  | StmtSeq_1 (Stmt_Decl (Decl_3 l)) => [first_name l]
  | StmtSeq_1 _ => []
  | StmtSeq_2 (Stmt_Decl (Decl_3 l)) ss => first_name l :: declared_names ss
  | StmtSeq_2 _ ss => declared_names ss
  end.

(** The first name of the declaration sequence. *)
Definition first_declared (p : Program) : string :=
  match Program_decls p with
  | DeclSeq_1 (Decl_3 l) | DeclSeq_2 (Decl_3 l) _ => first_name l
  end.

(** The frame slots of the [If] and [While] nodes of a statement lie in
    [lo, hi), and the slots inside a block are greater than the block's
    own: a nested node is constructed after the node that contains it. *)
Fixpoint slots_Stmt (lo hi : nat) (s : Stmt) : Prop :=
  match s with
  | If_5 l _ s | While l _ s => lo ≤ l ∧ l < hi ∧ slots_StmtSeq (S l) hi s
  | If_7 l _ s1 s2 =>
      lo ≤ l ∧ l < hi ∧ slots_StmtSeq (S l) hi s1 ∧ slots_StmtSeq (S l) hi s2
  | _ => True
  end
with slots_StmtSeq (lo hi : nat) (ss : StmtSeq) : Prop :=
  match ss with
  | StmtSeq_1 s => slots_Stmt lo hi s
  | StmtSeq_2 s ss => slots_Stmt lo hi s ∧ slots_StmtSeq lo hi ss
  end.

Scheme Stmt_mut := Induction for Stmt Sort Prop
  with StmtSeq_mut := Induction for StmtSeq Sort Prop.

Combined Scheme Stmt_mutind from Stmt_mut, StmtSeq_mut.

Scheme Expr_mut := Induction for Expr Sort Prop
  with Term_mut := Induction for Term Sort Prop
  with Factor_mut := Induction for Factor Sort Prop
  with ExprParen_mut := Induction for ExprParen Sort Prop.

Combined Scheme Expr_mutind from Expr_mut, Term_mut, Factor_mut, ExprParen_mut.

Scheme Cond_mut := Induction for Cond Sort Prop
  with Cmpr_mut := Induction for Cmpr Sort Prop
  with CondParen_mut := Induction for CondParen Sort Prop.

Combined Scheme Cond_mutind from Cond_mut, Cmpr_mut, CondParen_mut.

(** ** Operators and resets *)

(** What [Expr.execute] does with the operator token in [nodes[1]]. *)
Definition additive (op : Token) (a b : value) : res value :=
  if decide (op = ADD) then py_add a b else py_sub a b.

(** Two's-complement reduction to [w] bits, as the specification words
    it: the representative of [x] modulo [2^w] in [-2^(w-1), 2^(w-1)). *)
Definition wrap (w x : Z) : Z :=
  ((x + 2 ^ (w - 1)) mod 2 ^ w - 2 ^ (w - 1))%Z.

Definition sum_of (a b : Z) : Expr :=
  Expr_3 (Term_1 (Factor_Const a)) ADD (Expr_1 (Term_1 (Factor_Const b))).

(** [self.global_scope = scope_tree()], the reset that [execute_tree]
    performs and the checking pass does not. *)
Definition new_global_scope (parser : Parser bool) : Parser bool :=
  let '(global_scope, frames) := alloc (frames parser) in
  Parser_ (tree parser) global_scope frames.

(** ** Inputs *)

Definition store3 : list (scope_tree bool) :=
  [ Scope {[ "x" := true ]} (Some 1);
    Scope (<[ "x" := false ]> {[ "y" := true ]}) (Some 2);
    Scope {[ "y" := true ]} None ].

Definition two_three_four : list lexeme :=
  [LexConst 2; Lex SUB; LexConst 3; Lex SUB; LexConst 4].

Definition one_paren_two : list lexeme :=
  [Lex LPAREN; LexConst 1; Lex LPAREN; LexConst 2; Lex RPAREN; Lex RPAREN].

(** [1 < 2 | y == 0], with [y] declared nowhere. *)
Definition true_or_undeclared : Cond :=
  Cond_3 (Cmpr_3 (Expr_1 (Term_1 (Factor_Const 1))) LESS
                 (Expr_1 (Term_1 (Factor_Const 2))))
         OR
         (Cond_1 (Cmpr_3 (Expr_1 (Term_1 (Factor_Id "y"))) EQUAL
                         (Expr_1 (Term_1 (Factor_Const 0))))).

(** [program int x; begin output y; end] *)
Definition output_undeclared : list lexeme :=
  [Lex PROGRAM; Lex INT; LexId "x"; Lex SEMICOLON; Lex BEGIN;
   Lex OUTPUT; LexId "y"; Lex SEMICOLON; Lex END].

(** [program int x; begin if y < 1 then output 1; endif end] *)
Definition condition_undeclared : list lexeme :=
  [Lex PROGRAM; Lex INT; LexId "x"; Lex SEMICOLON; Lex BEGIN;
   Lex IF; LexId "y"; Lex LESS; LexConst 1; Lex THEN;
   Lex OUTPUT; LexConst 1; Lex SEMICOLON; Lex ENDIF; Lex END].

(** [program int x; begin input x; while x < 3 begin x = x + 1; endwhile
    output x; end] *)
Definition scenario3 : list lexeme :=
  [Lex PROGRAM; Lex INT; LexId "x"; Lex SEMICOLON; Lex BEGIN;
   Lex INPUT; LexId "x"; Lex SEMICOLON;
   Lex WHILE; LexId "x"; Lex LESS; LexConst 3; Lex BEGIN;
   LexId "x"; Lex ASSIGN; LexId "x"; Lex ADD; LexConst 1; Lex SEMICOLON;
   Lex ENDWHILE;
   Lex OUTPUT; LexId "x"; Lex SEMICOLON; Lex END].

(** The same with the condition written [(x < 3)]. *)
Definition scenario3_parenthesised : list lexeme :=
  [Lex PROGRAM; Lex INT; LexId "x"; Lex SEMICOLON; Lex BEGIN;
   Lex INPUT; LexId "x"; Lex SEMICOLON;
   Lex WHILE; Lex LPAREN; LexId "x"; Lex LESS; LexConst 3; Lex RPAREN;
   Lex BEGIN;
   LexId "x"; Lex ASSIGN; LexId "x"; Lex ADD; LexConst 1; Lex SEMICOLON;
   Lex ENDWHILE;
   Lex OUTPUT; LexId "x"; Lex SEMICOLON; Lex END].

(** [program int x; begin x = 1; if x x then output x; endif end] *)
Definition cmpr_without_operator : list lexeme :=
  [Lex PROGRAM; Lex INT; LexId "x"; Lex SEMICOLON; Lex BEGIN;
   LexId "x"; Lex ASSIGN; LexConst 1; Lex SEMICOLON;
   Lex IF; LexId "x"; LexId "x"; Lex THEN;
   Lex OUTPUT; LexId "x"; Lex SEMICOLON; Lex ENDIF; Lex END].

(** The store after [x = 0] in a program that declares [x] before
    [begin]: the root frame, and the program's frame attached to it. *)
Definition loop_store : Run :=
  Run_ [Scope {[ "x" := Some (VInt 0) ]} (Some 1); Scope ∅ None] [] [].

(** [x < 3] *)
Definition loop_cond : Cond :=
  Cond_1 (Cmpr_3 (Expr_1 (Term_1 (Factor_Id "x"))) LESS
                 (Expr_1 (Term_1 (Factor_Const 3)))).

(** [int y; x = x + 1;] *)
Definition loop_body : StmtSeq :=
  StmtSeq_2 (Stmt_Decl (Decl_3 (IdList_1 "y")))
    (StmtSeq_1 (Assign "x" (Expr_3 (Term_1 (Factor_Id "x")) ADD
                                   (Expr_1 (Term_1 (Factor_Const 1)))))).

(** [program int x; begin x = 0; while x < 3 begin int y; y = x;
    x = x + 1; endwhile output x; end] *)
Definition loop_declares : list lexeme :=
  [Lex PROGRAM; Lex INT; LexId "x"; Lex SEMICOLON; Lex BEGIN;
   LexId "x"; Lex ASSIGN; LexConst 0; Lex SEMICOLON;
   Lex WHILE; LexId "x"; Lex LESS; LexConst 3; Lex BEGIN;
   Lex INT; LexId "y"; Lex SEMICOLON;
   LexId "y"; Lex ASSIGN; LexId "x"; Lex SEMICOLON;
   LexId "x"; Lex ASSIGN; LexId "x"; Lex ADD; LexConst 1; Lex SEMICOLON;
   Lex ENDWHILE;
   Lex OUTPUT; LexId "x"; Lex SEMICOLON; Lex END].

(** [program int x; begin x = 1; end] *)
Definition assign_one : list lexeme :=
  [Lex PROGRAM; Lex INT; LexId "x"; Lex SEMICOLON; Lex BEGIN;
   LexId "x"; Lex ASSIGN; LexConst 1; Lex SEMICOLON; Lex END].

Definition assign_one_tree : Program :=
  Program_5 1 (DeclSeq_1 (Decl_3 (IdList_1 "x")))
    (StmtSeq_1 (Assign "x" (Expr_1 (Term_1 (Factor_Const 1%Z))))).

(** The parser after [parse], and after the first [semantics]. *)
Definition assign_one_parsed : Parser bool :=
  Parser_ assign_one_tree 0 [new_scope; new_scope].

Definition assign_one_checked : Parser bool :=
  Parser_ assign_one_tree 0 [Scope {[ "x" := true ]} (Some 1); new_scope].

(** [program int x; begin int y; y = 1; end] *)
Definition declare_in_block : list lexeme :=
  [Lex PROGRAM; Lex INT; LexId "x"; Lex SEMICOLON; Lex BEGIN;
   Lex INT; LexId "y"; Lex SEMICOLON;
   LexId "y"; Lex ASSIGN; LexConst 1; Lex SEMICOLON; Lex END].

(** ** Vocabulary of the further properties *)

(** [s'] is what is left of [s] after at least one token was consumed. *)
Definition advances (s s' : list lexeme) : Prop :=
  ∃ c, c ≠ [] ∧ s = c ++ s'.

(** The number of statements of a sequence, the statements inside its
    blocks not counted. *)
Fixpoint statements (ss : StmtSeq) : nat :=
  match ss with
  | StmtSeq_1 _ => 1
  | StmtSeq_2 _ ss => S (statements ss)
  end.


(** [! ( 1 < 2 ( y == 0 ) )] *)
Definition not_two_groups : list lexeme :=
  [Lex NEGATION; Lex LPAREN; LexConst 1; Lex LESS; LexConst 2;
   Lex LPAREN; LexId "y"; Lex EQUAL; LexConst 0; Lex RPAREN; Lex RPAREN].

(** [int x ; begin end] *)
Definition no_statement : list lexeme :=
  [Lex INT; LexId "x"; Lex SEMICOLON; Lex BEGIN; Lex END].

(** The two complaints of the checking pass that a parsed program can
    draw. *)
Definition scope_error (e : error) : Prop :=
  ∃ x, e = DeclaredTwice x ∨ e = NotDeclared x.

(** [program int x ; begin y = 1 ; end] *)
Definition assign_undeclared : list lexeme :=
  [Lex PROGRAM; Lex INT; LexId "x"; Lex SEMICOLON; Lex BEGIN;
   LexId "y"; Lex ASSIGN; LexConst 1; Lex SEMICOLON; Lex END].

(** A store for the executor: the root, with [x] holding 7, and the
    program frame attached to it. *)
Definition shadow_store : list (scope_tree (option value)) :=
  [Scope {["x" := Some (VInt 7)]} (Some 1); Scope ∅ None].

(** The root frame after [int x;], with the program frame attached. *)
Definition declared_store : list (scope_tree (option value)) :=
  [Scope {["x" := None]} (Some 1); Scope ∅ None].

(** A run that does not end in one of the two failures of the
    interpreter's own bookkeeping: a [KeyError] of a dictionary look-up
    or a [RecursionError] of [dfs_scope]. *)
Definition sound {A} (m : res A) : Prop :=
  m ≠ Err PyKeyError ∧ m ≠ Err PyRecursionError.

(** [if 1 < 2 then int y ; y = 3 ; endif], as an [If] node. *)
Definition if_declares : Stmt :=
  If_5 2 (Cond_1 (Cmpr_3 (Expr_1 (Term_1 (Factor_Const 1))) LESS
                         (Expr_1 (Term_1 (Factor_Const 2)))))
    (StmtSeq_2 (Stmt_Decl (Decl_3 (IdList_1 "y")))
       (StmtSeq_1 (Assign "y" (Expr_1 (Term_1 (Factor_Const 3)))))).

(** [input x ; output x ;] *)
Definition echo : StmtSeq :=
  StmtSeq_2 (Input "x")
    (StmtSeq_1 (Output (Expr_1 (Term_1 (Factor_Id "x"))))).

(** The output so far is kept and the queue is consumed from the front. *)
Definition streams (st st' : Run) : Prop :=
  printed st `prefix_of` printed st' ∧ data st' `suffix_of` data st.

(** A name that holds a value still holds one. *)
Definition stays_assigned (st st' : Run) : Prop :=
  ∀ l x v, dict (frame (run_frames st) l) !! x = Some (Some v) ->
    ∃ v', dict (frame (run_frames st') l) !! x = Some (Some v').

(** The names of the frames other than [local] that exist already. *)
Definition names_outside (local : loc) (st st' : Run) : Prop :=
  length (run_frames st) ≤ length (run_frames st')
  ∧ ∀ l x, l < length (run_frames st) -> l ≠ local ->
      contains (run_frames st') l x = contains (run_frames st) l x.

(** The checking pass and the executor end a declaration sequence alike:
    both abort with the same message, or both return with the same names
    in the frame [l] they declared into. *)
Definition same_outcome (l : loc) (checked : res (list (scope_tree bool)))
    (ran : res (list (scope_tree (option value)))) : Prop :=
  match checked, ran with
  | Ok hs, Ok he => ∀ x, contains hs l x = contains he l x
  | Err e1, Err e2 => e1 = e2
  | _, _ => False
  end.

(** [int x, y ; int x ;] *)
Definition declares_x_twice : DeclSeq :=
  DeclSeq_2 (Decl_3 (IdList_3 "x" (IdList_1 "y")))
    (DeclSeq_1 (Decl_3 (IdList_1 "x"))).

(** The store of the checking pass inside [begin]: the root, the program
    frame attached to it, and the frame of an [If] node. *)
Definition checking_store : list (scope_tree bool) :=
  [Scope ∅ (Some 1); new_scope; new_scope].

(** [int y ; y = 4 ;] *)
Definition else_declares : StmtSeq :=
  StmtSeq_2 (Stmt_Decl (Decl_3 (IdList_1 "y")))
    (StmtSeq_1 (Assign "y" (Expr_1 (Term_1 (Factor_Const 4))))).

(** The stores of the two passes can be compared at [l]: neither has a
    cyclic chain, both have the frame, and it holds the same names. *)
Definition agree (l : loc) (hs : list (scope_tree bool))
    (he : list (scope_tree (option value))) : Prop :=
  forward hs ∧ forward he ∧ l < length hs ∧ l < length he
  ∧ ∀ x, contains hs l x = contains he l x.

(** Statements without a [while]. *)
Fixpoint loop_free_Stmt (s : Stmt) : Prop :=
  match s with
  | While _ _ _ => False
  | If_5 _ _ s => loop_free_StmtSeq s
  | If_7 _ _ s1 s2 => loop_free_StmtSeq s1 ∧ loop_free_StmtSeq s2
  | _ => True
  end
with loop_free_StmtSeq (ss : StmtSeq) : Prop :=
  match ss with
  | StmtSeq_1 s => loop_free_Stmt s
  | StmtSeq_2 s ss => loop_free_Stmt s ∧ loop_free_StmtSeq ss
  end.

(** The depth of the calls of [execute] a statement makes when its loops
    do not iterate. *)
Fixpoint depth_Stmt (s : Stmt) : nat :=
  match s with
  | If_5 _ _ s | While _ _ s => S (depth_StmtSeq s)
  | If_7 _ _ s1 s2 => S (depth_StmtSeq s1 `max` depth_StmtSeq s2)
  | _ => 1
  end
with depth_StmtSeq (ss : StmtSeq) : nat :=
  match ss with
  | StmtSeq_1 s => S (depth_Stmt s)
  | StmtSeq_2 s ss => S (depth_Stmt s `max` depth_StmtSeq ss)
  end.

(** Two stores of the checking pass that differ at most in the flags
    they hold: the same frames, linked alike, with the same names. *)
Definition same_names (hs hs' : list (scope_tree bool)) : Prop :=
  length hs = length hs'
  ∧ ∀ l, child (frame hs l) = child (frame hs' l)
         ∧ ∀ x, contains hs l x = contains hs' l x.

(** The verdicts of two checks: the same complaint, or two stores that
    again differ at most in their flags. *)
Definition same_verdict (r r' : res (list (scope_tree bool))) : Prop :=
  match r, r' with
  | Ok hs, Ok hs' => same_names hs hs'
  | Err e, Err e' => e = e'
  | OutOfFuel, OutOfFuel => True
  | _, _ => False
  end.

(** A store of the checking pass in which the root holds [x], flagged
    as given. *)
Definition flagged_store (flag : bool) : list (scope_tree bool) :=
  [Scope {["x" := flag]} (Some 1); new_scope; new_scope].

(** [program int y ; begin x = x + 1 ; end], with the frame slots the
    parser gives it. *)
Definition increment_program : Program :=
  Program_5 1 (DeclSeq_1 (Decl_3 (IdList_1 "y")))
    (StmtSeq_1 (Assign "x" (Expr_3 (Term_1 (Factor_Id "x")) ADD
                                   (Expr_1 (Term_1 (Factor_Const 1)))))).

(** [2 - 3 * 4] *)
Definition two_minus_three_times_four : list lexeme :=
  [LexConst 2; Lex SUB; LexConst 3; Lex MULT; LexConst 4].

(** The frames of the [If] and [While] nodes of a statement, in the order
    in which the nodes appear in the source. *)
Fixpoint locals_Stmt (s : Stmt) : list loc :=
  match s with
  | If_5 l _ s | While l _ s => l :: locals_StmtSeq s
  | If_7 l _ s1 s2 => l :: locals_StmtSeq s1 ++ locals_StmtSeq s2
  | _ => []
  end
with locals_StmtSeq (ss : StmtSeq) : list loc :=
  match ss with
  | StmtSeq_1 s => locals_Stmt s
  | StmtSeq_2 s ss => locals_Stmt s ++ locals_StmtSeq ss
  end.

(** [frames'] is [frames] followed by one empty frame for each entry of
    [ls], and [ls] names these frames in order. *)
Definition numbered (frames frames' : list (scope_tree bool))
    (ls : list loc) : Prop :=
  frames' = frames ++ replicate (length ls) new_scope
  ∧ ls = seq (length frames) (length ls).

(** [program int x ; begin while x < 1 begin if x < 1 then x = 1 ; endif
    endwhile if x < 1 then x = 1 ; else x = 2 ; endif end] *)
Definition nested_blocks : list lexeme :=
  [Lex PROGRAM; Lex INT; LexId "x"; Lex SEMICOLON; Lex BEGIN;
   Lex WHILE; LexId "x"; Lex LESS; LexConst 1; Lex BEGIN;
   Lex IF; LexId "x"; Lex LESS; LexConst 1; Lex THEN;
   LexId "x"; Lex ASSIGN; LexConst 1; Lex SEMICOLON; Lex ENDIF;
   Lex ENDWHILE;
   Lex IF; LexId "x"; Lex LESS; LexConst 1; Lex THEN;
   LexId "x"; Lex ASSIGN; LexConst 1; Lex SEMICOLON;
   Lex ELSE; LexId "x"; Lex ASSIGN; LexConst 2; Lex SEMICOLON; Lex ENDIF;
   Lex END].

(** * Properties *)

(** ** The store *)

Section StoreFacts.
Context {V : Type}.
Implicit Types (h : list (scope_tree V)) (l c : loc) (x : string) (v : V).

Lemma frame_ge h l : length h ≤ l -> frame h l = new_scope.
Proof.
  intros Hl. unfold frame. rewrite list_lookup_total_alt.
  by rewrite (lookup_ge_None_2 h l Hl).
Qed.

Lemma frame_insert h l l' (s : scope_tree V) :
  frame (<[l := s]> h) l' =
  if decide (l = l' ∧ l < length h) then s else frame h l'.
Proof. unfold frame. apply list_lookup_total_insert. Qed.

Lemma frame_alloc h l : frame (alloc h).2 l = frame h l.
Proof.
  unfold alloc, frame; simpl.
  destruct (decide (l < length h)) as [Hl|Hl].
  - by rewrite lookup_total_app_l.
  - rewrite lookup_total_app_r by lia.
    rewrite (list_lookup_total_alt h), (lookup_ge_None_2 h l) by lia.
    destruct (l - length h) as [|[|n]]; done.
Qed.

Lemma length_alloc h : length (alloc h).2 = S (length h).
Proof. unfold alloc; simpl. rewrite length_app; simpl; lia. Qed.

Lemma length_set_item h l x v : length (set_item h l x v) = length h.
Proof. apply length_insert. Qed.

Lemma length_set_child h l oc : length (set_child h l oc) = length h.
Proof. apply length_insert. Qed.

Lemma child_set_item h l x v l' :
  child (frame (set_item h l x v) l') = child (frame h l').
Proof.
  unfold set_item. rewrite frame_insert.
  case_decide as H; [destruct H as [-> _]|]; done.
Qed.

Lemma contains_set_item_same h l x v :
  l < length h -> contains (set_item h l x v) l x = true.
Proof.
  intros Hl. unfold contains, set_item. rewrite frame_insert.
  rewrite decide_True by done. simpl.
  apply bool_decide_eq_true. rewrite lookup_insert_eq. eauto.
Qed.

Lemma contains_set_item h l x v l' y :
  contains h l' y = true -> contains (set_item h l x v) l' y = true.
Proof.
  unfold contains, set_item. rewrite frame_insert.
  rewrite !bool_decide_eq_true. intros Hy.
  case_decide as H; [destruct H as [-> _]|]; simpl; [|done].
  rewrite lookup_insert. case_decide; eauto.
Qed.

Lemma contains_set_child h l oc l' y :
  contains (set_child h l oc) l' y = contains h l' y.
Proof.
  unfold contains, set_child. rewrite frame_insert.
  case_decide as H; [destruct H as [-> _]|]; done.
Qed.

Lemma contains_alloc h l y : contains (alloc h).2 l y = contains h l y.
Proof. unfold contains. by rewrite frame_alloc. Qed.

Lemma child_set_child h l oc l' :
  child (frame (set_child h l oc) l') =
  if decide (l = l' ∧ l < length h) then oc else child (frame h l').
Proof. unfold set_child. rewrite frame_insert. by case_decide. Qed.

Lemma forward_set_item h l x v : forward h -> forward (set_item h l x v).
Proof.
  intros Hf l' c. rewrite child_set_item, length_set_item. apply Hf.
Qed.

Lemma forward_alloc h : forward h -> forward (alloc h).2.
Proof.
  intros Hf l c. rewrite frame_alloc, length_alloc.
  intros Hc. apply Hf in Hc. lia.
Qed.

Lemma forward_detach h l : forward h -> forward (set_child h l None).
Proof.
  intros Hf l' c. rewrite child_set_child, length_set_child.
  case_decide; [done|apply Hf].
Qed.

Lemma forward_attach h l c :
  forward h -> l < c -> c < length h -> forward (set_child h l (Some c)).
Proof.
  intros Hf Hl Hc l' c'. rewrite child_set_child, length_set_child.
  case_decide as H; [|apply Hf].
  destruct H as [-> _]. intros [= <-]. done.
Qed.

Lemma forward_nil : forward (@nil (scope_tree V)).
Proof. intros l c. by rewrite frame_ge by (simpl; lia). Qed.

(** In such a store the search always returns. *)
Lemma dfs_scope_rec_forward h var :
  forward h ->
  ∀ fuel tree, 1 ≤ fuel -> length h < fuel + tree ->
    ∃ r, dfs_scope_rec fuel h tree var = Ok r.
Proof.
  intros Hf. induction fuel as [|fuel IH]; intros tree H1 Hfuel; [lia|].
  simpl. destruct (child (frame h tree)) as [c|] eqn:Hc.
  - destruct (Hf _ _ Hc) as [Hlt Hlen].
    destruct (IH c) as [r Hr]; [lia..|]. rewrite Hr. simpl.
    destruct r as [s|]; repeat case_match; eauto.
  - simpl. case_match; eauto.
Qed.

Lemma dfs_scope_forward h tree var :
  forward h -> ∃ r, dfs_scope h tree var = Ok r.
Proof. intros Hf. apply dfs_scope_rec_forward; [done|lia..]. Qed.
End StoreFacts.

(** ** Name resolution *)

Section Resolve.
Context {V : Type}.
Implicit Types (h : list (scope_tree V)) (l c : loc) (ls : list loc).

Lemma chain_det h l ls1 ls2 : chain h l ls1 -> chain h l ls2 -> ls1 = ls2.
Proof.
  intros H1. revert ls2.
  induction H1 as [l Hn|l c ls Hc _ IH]; intros ls2 H2; inversion H2; subst;
    try congruence.
  f_equal. apply IH. congruence.
Qed.

Lemma chain_inner h l ls l' :
  chain h l ls -> l' ∈ ls ->
  ∃ ls', chain h l' ls' ∧ length ls' ≤ length ls.
Proof.
  induction 1 as [l Hn|l c ls Hc Hch IH]; intros Hin.
  - apply list_elem_of_singleton in Hin as ->.
    exists [l]. split; [by constructor|done].
  - apply elem_of_cons in Hin as [->|Hin].
    + exists (l :: ls). split; [by econstructor|done].
    + destruct (IH Hin) as (ls' & ? & ?). exists ls'. simpl. split; [done|lia].
Qed.

Lemma chain_NoDup h l ls : chain h l ls -> NoDup ls.
Proof.
  induction 1 as [l Hn|l c ls Hc Hch IH].
  - apply NoDup_singleton.
  - constructor; [|done]. intros Hin.
    destruct (chain_inner _ _ _ _ Hch Hin) as (ls' & Hl & Hlen).
    assert (ls' = l :: ls) as -> by (eapply chain_det; [done|by econstructor]).
    simpl in Hlen. lia.
Qed.

(** Only the last frame of a chain can lie outside the store. *)
Lemma chain_inside h l ls l' :
  chain h l ls -> l' ∈ ls -> last ls ≠ Some l' -> l' < length h.
Proof.
  induction 1 as [l Hn|l c ls Hc Hch IH]; intros Hin Hlast.
  - apply list_elem_of_singleton in Hin as ->. by destruct Hlast.
  - apply elem_of_cons in Hin as [->|Hin].
    + destruct (decide (l < length h)) as [|Hge]; [done|].
      rewrite frame_ge in Hc by lia. done.
    + apply IH; [done|]. intros Hl. apply Hlast.
      inversion Hch; subst; simpl in *; done.
Qed.

Lemma chain_length h l ls : chain h l ls -> length ls ≤ S (length h).
Proof.
  intros Hch. pose proof (chain_NoDup _ _ _ Hch) as Hnd.
  destruct (last ls) as [z|] eqn:Hlast.
  - apply last_Some in Hlast as [ls' ->].
    rewrite length_app; simpl.
    apply NoDup_app in Hnd as (Hnd & Hz & _).
    assert (ls' ⊆+ seq 0 (length h)) as Hsub.
    { apply NoDup_submseteq; [done|]. intros y Hy.
      apply elem_of_seq. split; [lia|]. simpl.
      eapply chain_inside; [done|set_solver|].
      rewrite last_snoc. intros [= <-]. apply (Hz _ Hy). set_solver. }
    apply submseteq_length in Hsub. rewrite length_seq in Hsub. lia.
  - apply last_None in Hlast as ->. simpl. lia.
Qed.

Lemma dfs_scope_rec_chain h l ls var :
  chain h l ls ->
  ∀ fuel, length ls ≤ fuel ->
    dfs_scope_rec fuel h l var
    = Ok (last (filter (λ l', contains h l' var = true) ls)).
Proof.
  induction 1 as [l Hn|l c ls Hc Hch IH]; intros [|fuel] Hfuel;
    simpl in Hfuel; try lia; simpl.
  - rewrite Hn. simpl. rewrite filter_cons.
    destruct (contains h l var); simpl; done.
  - rewrite Hc, IH by lia. simpl. rewrite filter_cons.
    destruct (last (filter _ ls)) as [s|] eqn:Hlast.
    + assert (contains h s var = true) as ->.
      { apply last_Some_elem_of, list_elem_of_filter in Hlast. tauto. }
      case_decide; [|by rewrite Hlast].
      apply last_Some in Hlast as [ls' Hls']. rewrite Hls'.
      by rewrite app_comm_cons, last_snoc.
    + apply last_None in Hlast. rewrite Hlast.
      destruct (contains h l var); simpl; done.
Qed.

(** C8.  On every scope chain [ls] that starts at the root, [dfs_scope]
    returns the deepest frame (the last one of the chain) whose
    dictionary contains the name, and [None] when no frame of the chain
    contains it: a declaration in an inner frame hides the declarations
    of the same name in the frames above it. *)
Theorem dfs_scope_innermost h root ls var :
  chain h root ls ->
  dfs_scope h root var
  = Ok (last (filter (λ l, contains h l var = true) ls)).
Proof.
  intros Hch. apply dfs_scope_rec_chain; [done|].
  by eapply chain_length.
Qed.
End Resolve.

Lemma dfs_scope_innermost_witness :
  chain store3 0 [0; 1; 2]
  ∧ dfs_scope store3 0 "x" = Ok (Some 1)
  ∧ dfs_scope store3 0 "y" = Ok (Some 2)
  ∧ dfs_scope store3 0 "z" = Ok None.
Proof.
  assert (chain store3 0 [0; 1; 2]) as H.
  { apply chain_link with 1; [reflexivity|].
    apply chain_link with 2; [reflexivity|].
    apply chain_leaf. reflexivity. }
  split; [exact H|].
  split; [|split].
  - rewrite (dfs_scope_innermost store3 0 [0; 1; 2] "x" H). reflexivity.
  - rewrite (dfs_scope_innermost store3 0 [0; 1; 2] "y" H). reflexivity.
  - rewrite (dfs_scope_innermost store3 0 [0; 1; 2] "z" H). reflexivity.
Defined.

(** ** Parsing: more fuel changes no result *)

Lemma parse_Expr_fuel_S fuel :
  (∀ s r, parse_Expr fuel s = Ok r -> parse_Expr (S fuel) s = Ok r)
  ∧ (∀ s r, parse_Term fuel s = Ok r -> parse_Term (S fuel) s = Ok r)
  ∧ (∀ s r, parse_Factor fuel s = Ok r -> parse_Factor (S fuel) s = Ok r)
  ∧ (∀ s r, expr_paren_parse fuel s = Ok r ->
            expr_paren_parse (S fuel) s = Ok r).
Proof.
  induction fuel as [|fuel (IHe & IHt & IHf & IHp)];
    [repeat split; intros s r H; discriminate H|].
  repeat split; intros s r H.
  - change (parse_Expr (S fuel) s) with
      ('(t, scanner) ← parse_Term fuel s;
       if decide (token scanner = ADD) then
         scanner ← token_assert scanner ADD;
         '(e, scanner) ← parse_Expr fuel scanner;
         Ok (Expr_3 t ADD e, scanner)
       else if decide (token scanner = SUB) then
         scanner ← token_assert scanner SUB;
         '(e, scanner) ← parse_Expr fuel scanner;
         Ok (Expr_3 t SUB e, scanner)
       else Ok (Expr_1 t, scanner)) in H.
    change (parse_Expr (S (S fuel)) s) with
      ('(t, scanner) ← parse_Term (S fuel) s;
       if decide (token scanner = ADD) then
         scanner ← token_assert scanner ADD;
         '(e, scanner) ← parse_Expr (S fuel) scanner;
         Ok (Expr_3 t ADD e, scanner)
       else if decide (token scanner = SUB) then
         scanner ← token_assert scanner SUB;
         '(e, scanner) ← parse_Expr (S fuel) scanner;
         Ok (Expr_3 t SUB e, scanner)
       else Ok (Expr_1 t, scanner)).
    destruct (parse_Term fuel s) as [[t s1]| |] eqn:Et; [|discriminate H..].
    rewrite (IHt _ _ Et). simpl in *.
    repeat case_decide; try done;
      (destruct (token_assert s1 _) as [s2| |]; [|discriminate H..]; simpl in *;
       destruct (parse_Expr fuel s2) as [[e s3]| |] eqn:Ee; [|discriminate H..];
       by rewrite (IHe _ _ Ee)).
  - change (parse_Term (S fuel) s) with
      ('(f, scanner) ← parse_Factor fuel s;
       if decide (token scanner = MULT) then
         scanner ← token_assert scanner MULT;
         '(t, scanner) ← parse_Term fuel scanner;
         Ok (Term_3 f MULT t, scanner)
       else Ok (Term_1 f, scanner)) in H.
    change (parse_Term (S (S fuel)) s) with
      ('(f, scanner) ← parse_Factor (S fuel) s;
       if decide (token scanner = MULT) then
         scanner ← token_assert scanner MULT;
         '(t, scanner) ← parse_Term (S fuel) scanner;
         Ok (Term_3 f MULT t, scanner)
       else Ok (Term_1 f, scanner)).
    destruct (parse_Factor fuel s) as [[f s1]| |] eqn:Ef; [|discriminate H..].
    rewrite (IHf _ _ Ef). simpl in *.
    case_decide; [|done].
    destruct (token_assert s1 _) as [s2| |]; [|discriminate H..]; simpl in *.
    destruct (parse_Term fuel s2) as [[t s3]| |] eqn:Et; [|discriminate H..].
    by rewrite (IHt _ _ Et).
  - change (parse_Factor (S fuel) s) with
      (if decide (token s = ID) then
         '(name, scanner) ← parse_Id s; Ok (Factor_Id name, scanner)
       else if decide (token s = CONST) then
         '(value, scanner) ← parse_Const s; Ok (Factor_Const value, scanner)
       else if decide (token s = LPAREN) then
         '(p, scanner) ← expr_paren_parse fuel s; Ok (Factor_paren p, scanner)
       else Err InvalidOperator) in H.
    change (parse_Factor (S (S fuel)) s) with
      (if decide (token s = ID) then
         '(name, scanner) ← parse_Id s; Ok (Factor_Id name, scanner)
       else if decide (token s = CONST) then
         '(value, scanner) ← parse_Const s; Ok (Factor_Const value, scanner)
       else if decide (token s = LPAREN) then
         '(p, scanner) ← expr_paren_parse (S fuel) s;
         Ok (Factor_paren p, scanner)
       else Err InvalidOperator).
    repeat case_decide; try done.
    destruct (expr_paren_parse fuel s) as [[p s1]| |] eqn:Ep; [|discriminate H..].
    by rewrite (IHp _ _ Ep).
  - change (expr_paren_parse (S fuel) s) with
      (scanner ← token_assert s LPAREN;
       '(e, scanner) ← parse_Expr fuel scanner;
       if decide (token scanner = LPAREN) then
         '(p, scanner) ← expr_paren_parse fuel scanner;
         scanner ← token_assert scanner RPAREN;
         Ok (ExprParen_2 e p, scanner)
       else
         scanner ← token_assert scanner RPAREN;
         Ok (ExprParen_1 e, scanner)) in H.
    change (expr_paren_parse (S (S fuel)) s) with
      (scanner ← token_assert s LPAREN;
       '(e, scanner) ← parse_Expr (S fuel) scanner;
       if decide (token scanner = LPAREN) then
         '(p, scanner) ← expr_paren_parse (S fuel) scanner;
         scanner ← token_assert scanner RPAREN;
         Ok (ExprParen_2 e p, scanner)
       else
         scanner ← token_assert scanner RPAREN;
         Ok (ExprParen_1 e, scanner)).
    destruct (token_assert s LPAREN) as [s1| |]; [|discriminate H..]; simpl in *.
    destruct (parse_Expr fuel s1) as [[e s2]| |] eqn:Ee; [|discriminate H..].
    rewrite (IHe _ _ Ee). simpl in *.
    case_decide; [|done].
    destruct (expr_paren_parse fuel s2) as [[p s3]| |] eqn:Ep; [|discriminate H..].
    by rewrite (IHp _ _ Ep).
Qed.

Lemma parse_Term_fuel_le n m s r :
  n ≤ m -> parse_Term n s = Ok r -> parse_Term m s = Ok r.
Proof.
  induction 1 as [|m _ IH]; [done|].
  intros H. by apply parse_Expr_fuel_S, IH.
Qed.

Lemma parse_Expr_fuel_le n m s r :
  n ≤ m -> parse_Expr n s = Ok r -> parse_Expr m s = Ok r.
Proof.
  induction 1 as [|m _ IH]; [done|].
  intros H. by apply parse_Expr_fuel_S, IH.
Qed.

(** ** Expressions *)

Lemma parse_Expr_single fuel s t s1 :
  parse_Term fuel s = Ok (t, s1) ->
  token s1 ≠ ADD -> token s1 ≠ SUB ->
  parse_Expr (S fuel) s = Ok (Expr_1 t, s1).
Proof. intros Ht ? ?. simpl. rewrite Ht. simpl. by rewrite !decide_False. Qed.

Lemma parse_Expr_chain fuel s t op s1 e s2 :
  op = ADD ∨ op = SUB ->
  parse_Term fuel s = Ok (t, Lex op :: s1) ->
  parse_Expr fuel s1 = Ok (e, s2) ->
  parse_Expr (S fuel) s = Ok (Expr_3 t op e, s2).
Proof.
  intros Hop Ht He. simpl. rewrite Ht.
  destruct Hop as [-> | ->]; simpl; unfold token_assert, token_validate; simpl;
    change (next_token (_ :: s1)) with s1; by rewrite He.
Qed.

(** C5.  Chained additive operators associate to the right.  When the
    token source holds [a op1 b op2 c], with [a], [b], [c] parsed by
    [Term.parse] and [op1], [op2] among [ADD] and [SUB], [Expr.parse]
    builds the tree [a op1 (b op2 c)], and [Expr.execute] combines [b] and
    [c] first and then [a] with their result. *)
Theorem Expr_right_associated fuel s s1 s2 s3 a b c op1 op2 :
  op1 = ADD ∨ op1 = SUB ->
  op2 = ADD ∨ op2 = SUB ->
  parse_Term fuel s = Ok (a, Lex op1 :: s1) ->
  parse_Term fuel s1 = Ok (b, Lex op2 :: s2) ->
  parse_Term fuel s2 = Ok (c, s3) ->
  token s3 ≠ ADD -> token s3 ≠ SUB ->
  parse_Expr (3 + fuel) s = Ok (Expr_3 a op1 (Expr_3 b op2 (Expr_1 c)), s3)
  ∧ ∀ root frames va vb vc,
      execute_Term root frames a = Ok va ->
      execute_Term root frames b = Ok vb ->
      execute_Term root frames c = Ok vc ->
      execute_Expr root frames (Expr_3 a op1 (Expr_3 b op2 (Expr_1 c)))
      = (r ← additive op2 vb vc; additive op1 va r).
Proof.
  intros Hop1 Hop2 Ha Hb Hc Hadd Hsub. split.
  - apply (parse_Expr_chain (2 + fuel) s a op1 s1); [done| |].
    { apply (parse_Term_fuel_le fuel); [lia|done]. }
    apply (parse_Expr_chain (1 + fuel) s1 b op2 s2); [done| |].
    { apply (parse_Term_fuel_le fuel); [lia|done]. }
    by apply parse_Expr_single.
  - intros root frames va vb vc Hva Hvb Hvc. simpl.
    rewrite Hva, Hvb, Hvc. simpl. unfold additive.
    destruct Hop1 as [-> | ->], Hop2 as [-> | ->]; simpl;
      destruct (py_add vb vc), (py_sub vb vc); done.
Qed.

Lemma Expr_right_associated_witness :
  parse_Expr 5 two_three_four
  = Ok (Expr_3 (Term_1 (Factor_Const 2)) SUB
          (Expr_3 (Term_1 (Factor_Const 3)) SUB
             (Expr_1 (Term_1 (Factor_Const 4)))), [])
  ∧ execute_Expr 0 []
      (Expr_3 (Term_1 (Factor_Const 2)) SUB
         (Expr_3 (Term_1 (Factor_Const 3)) SUB
            (Expr_1 (Term_1 (Factor_Const 4)))))
    = Ok (VInt 3).
Proof.
  destruct (Expr_right_associated 2
              two_three_four [LexConst 3; Lex SUB; LexConst 4] [LexConst 4] []
              (Term_1 (Factor_Const 2)) (Term_1 (Factor_Const 3))
              (Term_1 (Factor_Const 4)) SUB SUB)
    as [Hparse Hexec].
  - right; reflexivity.
  - right; reflexivity.
  - reflexivity.
  - reflexivity.
  - reflexivity.
  - intros H; discriminate H.
  - intros H; discriminate H.
  - split; [exact Hparse|].
    exact (Hexec 0 [] (VInt 2) (VInt 3) (VInt 4) eq_refl eq_refl eq_refl).
Defined.

(** ** Parenthesised factors *)

Lemma expr_paren_parse_one fuel s e rest :
  parse_Expr fuel s = Ok (e, Lex RPAREN :: rest) ->
  expr_paren_parse (S fuel) (Lex LPAREN :: s) = Ok (ExprParen_1 e, rest).
Proof.
  intros He. simpl. unfold token_assert, token_validate; simpl.
  change (next_token (_ :: s)) with s. by rewrite He.
Qed.

Lemma expr_paren_parse_more fuel s e s1 p rest :
  parse_Expr fuel s = Ok (e, Lex LPAREN :: s1) ->
  expr_paren_parse fuel (Lex LPAREN :: s1) = Ok (p, Lex RPAREN :: rest) ->
  expr_paren_parse (S fuel) (Lex LPAREN :: s) = Ok (ExprParen_2 e p, rest).
Proof.
  intros He Hp. simpl. unfold token_assert at 1, token_validate; simpl.
  change (next_token (_ :: s)) with s. rewrite He. simpl. by rewrite Hp.
Qed.

(** C10.  [Factor.expr_paren_parse] takes a second group [( Expr2 )]
    when it follows the first expression directly: [( Expr1 ( Expr2 ) )]
    is parsed as one [Factor].  [Factor.execute] returns the value of the
    first expression and never runs the groups that follow it. *)
Theorem Factor_paren_groups fuel s e1 s1 e2 rest :
  parse_Expr fuel s = Ok (e1, Lex LPAREN :: s1) ->
  parse_Expr fuel s1 = Ok (e2, Lex RPAREN :: Lex RPAREN :: rest) ->
  parse_Factor (3 + fuel) (Lex LPAREN :: s)
  = Ok (Factor_paren (ExprParen_2 e1 (ExprParen_1 e2)), rest)
  ∧ ∀ root frames p,
      execute_Factor root frames (Factor_paren (ExprParen_2 e1 p))
      = execute_Expr root frames e1.
Proof.
  intros H1 H2. split; [|done].
  assert (expr_paren_parse (2 + fuel) (Lex LPAREN :: s)
          = Ok (ExprParen_2 e1 (ExprParen_1 e2), rest)) as Hp.
  { apply (expr_paren_parse_more (1 + fuel) s e1 s1).
    - by apply (parse_Expr_fuel_le fuel); [lia|].
    - by apply expr_paren_parse_one. }
  change (parse_Factor (3 + fuel) (Lex LPAREN :: s)) with
    ('(p, scanner) ← expr_paren_parse (2 + fuel) (Lex LPAREN :: s);
     Ok (Factor_paren p, scanner)).
  by rewrite Hp.
Qed.

Lemma Factor_paren_groups_witness :
  parse_Factor 6 one_paren_two
  = Ok (Factor_paren
          (ExprParen_2 (Expr_1 (Term_1 (Factor_Const 1)))
             (ExprParen_1 (Expr_1 (Term_1 (Factor_Const 2))))), [])
  ∧ execute_Factor 0 []
      (Factor_paren
         (ExprParen_2 (Expr_1 (Term_1 (Factor_Const 1)))
            (ExprParen_1 (Expr_1 (Term_1 (Factor_Const 2))))))
    = Ok (VInt 1).
Proof.
  destruct (Factor_paren_groups 3
              [LexConst 1; Lex LPAREN; LexConst 2; Lex RPAREN; Lex RPAREN]
              (Expr_1 (Term_1 (Factor_Const 1)))
              [LexConst 2; Lex RPAREN; Lex RPAREN]
              (Expr_1 (Term_1 (Factor_Const 2))) [])
    as [Hparse Hexec].
  - reflexivity.
  - reflexivity.
  - split; [exact Hparse|].
    exact (Hexec 0 [] (ExprParen_1 (Expr_1 (Term_1 (Factor_Const 2))))).
Defined.

(** ** Conditions *)

(** C9.  [Cond.execute] on [Cmpr | Cond] runs the right operand whatever
    the left one yields, [True] included: an abort of the right operand
    aborts the run, and otherwise the result is the disjunction of the two
    results. *)
Theorem Cond_or_evaluates_both root frames c d b :
  execute_Cmpr root frames c = Ok b ->
  (∀ e, execute_Cond root frames d = Err e ->
        execute_Cond root frames (Cond_3 c OR d) = Err e)
  ∧ (∀ b', execute_Cond root frames d = Ok b' ->
        execute_Cond root frames (Cond_3 c OR d) = Ok (b || b')).
Proof.
  intros Hc. split; intros r Hd; simpl; rewrite Hc; simpl; by rewrite Hd.
Qed.

Lemma Cond_or_evaluates_both_witness :
  execute_Cmpr 0 [new_scope]
    (Cmpr_3 (Expr_1 (Term_1 (Factor_Const 1))) LESS
            (Expr_1 (Term_1 (Factor_Const 2)))) = Ok true
  ∧ execute_Cond 0 [new_scope] true_or_undeclared
    = Err (NotInstantiated "y" false).
Proof.
  split; [reflexivity|].
  apply (Cond_or_evaluates_both 0 [new_scope] _ _ true); reflexivity.
Defined.

(** ** Arithmetic *)

Local Open Scope Z_scope.

(** C6, as stated, fails: there is no width [w] and no pair of operands
    for which [Expr.execute] returns a sum reduced modulo [2^w] that
    differs from the exact sum. *)
Lemma no_wraparound :
  ¬ ∃ w a b : Z,
      0 < w
      ∧ wrap w (a + b) ≠ a + b
      ∧ execute_Expr 0%nat [] (sum_of a b) = Ok (VInt (wrap w (a + b))).
Proof.
  intros (w & a & b & _ & Hne & Hex). simpl in Hex.
  injection Hex as Hex. congruence.
Qed.

(** C6, amended.  On integer operands [+], [-] and [*] return the exact
    sum, difference and product: Python integers are unbounded and no
    result is reduced to a word width. *)
Theorem arithmetic_exact root frames t e f t' a b c d :
  execute_Term root frames t = Ok (VInt a) ->
  execute_Expr root frames e = Ok (VInt b) ->
  execute_Factor root frames f = Ok (VInt c) ->
  execute_Term root frames t' = Ok (VInt d) ->
  execute_Expr root frames (Expr_3 t ADD e) = Ok (VInt (a + b))
  ∧ execute_Expr root frames (Expr_3 t SUB e) = Ok (VInt (a - b))
  ∧ execute_Term root frames (Term_3 f MULT t') = Ok (VInt (c * d)).
Proof.
  intros Ht He Hf Ht'. simpl. rewrite Ht, He, Hf, Ht'. done.
Qed.

Lemma arithmetic_exact_witness :
  execute_Expr 0%nat []
    (Expr_3 (Term_1 (Factor_Const (2 ^ 63 - 1))) ADD
            (Expr_1 (Term_1 (Factor_Const 1))))
  = Ok (VInt (2 ^ 63 - 1 + 1))
  ∧ execute_Expr 0%nat []
      (Expr_3 (Term_1 (Factor_Const (2 ^ 63 - 1))) SUB
              (Expr_1 (Term_1 (Factor_Const 1))))
    = Ok (VInt (2 ^ 63 - 1 - 1))
  ∧ execute_Term 0%nat []
      (Term_3 (Factor_Const (2 ^ 63)) MULT (Term_1 (Factor_Const (2 ^ 63))))
    = Ok (VInt (2 ^ 63 * 2 ^ 63)).
Proof.
  apply (arithmetic_exact 0%nat []
           (Term_1 (Factor_Const (2 ^ 63 - 1)))
           (Expr_1 (Term_1 (Factor_Const 1)))
           (Factor_Const (2 ^ 63)) (Term_1 (Factor_Const (2 ^ 63))));
    reflexivity.
Defined.

Local Close Scope Z_scope.

(** ** Whole runs *)

(** C1, at the failing inputs.  [y] is declared nowhere.  The checking
    pass accepts both programs, because [Output.semantics] passes the
    label ['call'] and [If.semantics] passes [None], neither of which
    [Id.semantics] looks at; the executor then stops in [Id.execute] with
    [tree is None]. *)
Theorem check_accepts_undeclared_read :
  (∃ parser, build_tree 100 output_undeclared = Ok parser
     ∧ execute_tree 100 (tree parser) "0" = Err (NotInstantiated "y" false))
  ∧ (∃ parser, build_tree 100 condition_undeclared = Ok parser
     ∧ execute_tree 100 (tree parser) "0" = Err (NotInstantiated "y" false)).
Proof.
  split; eexists; (split; [vm_compute; reflexivity|]); vm_compute; reflexivity.
Qed.

(** C3, at the failing input.  With the data file ["0"] the queue holds
    the string ["0"], not the integer: [input x] stores the string, and
    the first evaluation of [x < 3] compares a string with an integer,
    which is a [TypeError].  Nothing is printed.  Written with
    parentheses around the condition the program is not even parsed. *)
Theorem scenario3_type_error :
  clean_data "0" = Ok [VStr "0"]
  ∧ (∃ parser, build_tree 100 scenario3 = Ok parser
       ∧ execute_tree 100 (tree parser) "0" = Err PyTypeError)
  ∧ Parser_parse 100 scenario3_parenthesised = Err (InvalidlyPlaced LESS RPAREN).
Proof.
  split; [reflexivity|]. split; [|vm_compute; reflexivity].
  eexists; split; [vm_compute; reflexivity|]. vm_compute; reflexivity.
Qed.

(** C7, at the failing input.  After the first expression of the
    comparison the token is [ID]; [Cmpr.parse] has no branch for it and
    goes on to parse the second expression.  The program is parsed and
    checked, and fails only when [Cmpr.execute] reads [nodes[2]]. *)
Theorem Cmpr_parse_accepts_missing_operator :
  parse_Cmpr 5 [LexId "x"; LexId "x"; Lex THEN]
  = Ok (Cmpr_2 (Expr_1 (Term_1 (Factor_Id "x")))
               (Expr_1 (Term_1 (Factor_Id "x"))), [Lex THEN])
  ∧ ∃ parser, build_tree 100 cmpr_without_operator = Ok parser
      ∧ Program_stmts (tree parser)
        = StmtSeq_2 (Assign "x" (Expr_1 (Term_1 (Factor_Const 1))))
            (StmtSeq_1
               (If_5 2 (Cond_1 (Cmpr_2 (Expr_1 (Term_1 (Factor_Id "x")))
                                       (Expr_1 (Term_1 (Factor_Id "x")))))
                     (StmtSeq_1 (Output (Expr_1 (Term_1 (Factor_Id "x")))))))
      ∧ execute_tree 100 (tree parser) "0" = Err PyIndexError.
Proof.
  split; [reflexivity|].
  eexists; split; [vm_compute; reflexivity|].
  split; vm_compute; reflexivity.
Qed.

(** ** Stores only grow *)

Section Grows.
Context {V : Type}.
Implicit Types (h : list (scope_tree V)) (l c : loc) (x : string) (v : V).

Lemma grows_refl h : grows h h.
Proof. by split. Qed.

Lemma grows_trans h1 h2 h3 : grows h1 h2 -> grows h2 h3 -> grows h1 h3.
Proof. intros [? H12] [? H23]. split; [lia|]. intros. by apply H23, H12. Qed.

Lemma grows_set_item h l x v : grows h (set_item h l x v).
Proof.
  split; [by rewrite length_set_item|]. intros. by apply contains_set_item.
Qed.

Lemma grows_set_child h l oc : grows h (set_child h l oc).
Proof.
  split; [by rewrite length_set_child|]. intros.
  by rewrite contains_set_child.
Qed.

Lemma grows_alloc h : grows h (alloc h).2.
Proof.
  split; [rewrite length_alloc; lia|]. intros. by rewrite contains_alloc.
Qed.
End Grows.

Create HintDb store.
#[local] Hint Resolve grows_refl grows_set_item grows_set_child grows_alloc
  forward_set_item forward_alloc forward_detach : store.

(** ** The executor keeps its store in shape *)

Section ExecuteFacts.
Variable root : loc.
Implicit Types (frames : list (scope_tree (option value))) (st : Run).

Lemma execute_Id_declare_Ok frames node local frames' :
  execute_Id_declare root frames node local = Ok frames' ->
  frames' = set_item frames local node None.
Proof.
  unfold execute_Id_declare. destruct (dfs_scope frames root node); [|done..].
  simpl. destruct (contains frames local node); simpl; congruence.
Qed.

Lemma execute_Id_declare_again frames node local :
  forward frames -> contains frames local node = true ->
  execute_Id_declare root frames node local = Err (DeclaredTwice node).
Proof.
  intros Hf Hc. unfold execute_Id_declare.
  destruct (dfs_scope_forward frames root node Hf) as [r ->]. simpl.
  by rewrite Hc.
Qed.

Lemma execute_IdList_inv l : ∀ frames local frames',
  forward frames ->
  execute_IdList root frames l local = Ok frames' ->
  forward frames' ∧ grows frames frames'.
Proof.
  induction l as [name|name l IH]; intros frames local frames' Hf H; simpl in H.
  - apply execute_Id_declare_Ok in H as ->. eauto with store.
  - destruct (execute_Id_declare root frames name local) as [frames1| |] eqn:E;
      [|done..].
    apply execute_Id_declare_Ok in E as ->. simpl in H.
    apply IH in H as [? ?]; [|eauto with store].
    split; [done|]. eapply grows_trans; [|done]. eauto with store.
Qed.

Lemma execute_Decl_inv d frames local frames' :
  forward frames ->
  execute_Decl root frames d local = Ok frames' ->
  forward frames' ∧ grows frames frames'.
Proof. destruct d. apply execute_IdList_inv. Qed.

Lemma execute_Assign_inv st name e st' :
  forward (run_frames st) ->
  execute_Assign root st name e = Ok st' ->
  forward (run_frames st') ∧ grows (run_frames st) (run_frames st').
Proof.
  intros Hf. unfold execute_Assign.
  destruct (execute_Id_assign root (run_frames st) name) as [[var tree]| |];
    [|done..]. simpl.
  destruct (execute_Expr root (run_frames st) e); [|done..]. simpl.
  intros [= <-]. simpl. eauto with store.
Qed.

Lemma execute_Input_inv st name st' :
  forward (run_frames st) ->
  execute_Input root st name = Ok st' ->
  forward (run_frames st') ∧ grows (run_frames st) (run_frames st').
Proof.
  intros Hf. unfold execute_Input.
  destruct (execute_Id_assign root (run_frames st) name) as [[var tree]| |];
    [|done..]. simpl.
  destruct (data st); [done|]. intros [= <-]. simpl. eauto with store.
Qed.

Lemma execute_Output_inv st e st' :
  forward (run_frames st) ->
  execute_Output root st e = Ok st' ->
  forward (run_frames st') ∧ grows (run_frames st) (run_frames st').
Proof.
  intros Hf. unfold execute_Output.
  destruct (execute_Expr root (run_frames st) e); [|done..]. simpl.
  intros [= <-]. simpl. eauto with store.
Qed.

Lemma enter_inv st local :
  forward (run_frames st) -> local < length (run_frames st) ->
  forward (run_frames (enter st local).2)
  ∧ grows (run_frames st) (run_frames (enter st local).2)
  ∧ (enter st local).1 < length (run_frames (enter st local).2).
Proof.
  intros Hf Hl. unfold enter. simpl.
  pose proof (length_alloc (run_frames st)) as Hlen. unfold alloc in Hlen.
  simpl in Hlen. split; [|split].
  - apply forward_attach; [by apply (forward_alloc (run_frames st))|lia..].
  - eapply grows_trans; [apply grows_alloc|apply grows_set_child].
  - rewrite length_set_child. lia.
Qed.

Lemma leave_inv st local :
  forward (run_frames st) ->
  forward (run_frames (leave st local))
  ∧ grows (run_frames st) (run_frames (leave st local)).
Proof. intros Hf. unfold leave; simpl. eauto with store. Qed.

(** One step of each statement routine. *)
Lemma execute_Stmt_S fuel st s local :
  execute_Stmt root (S fuel) st s local =
  match s with
  | Assign name e => execute_Assign root st name e
  | Input name => execute_Input root st name
  | Output e => execute_Output root st e
  | If_5 _ c s =>
      let '(self_local, st) := enter st local in
      truth ← execute_Cond root (run_frames st) c;
      st ← (if truth : bool then execute_StmtSeq root fuel st s self_local
            else Ok st);
      Ok (leave st local)
  | If_7 _ c s1 s2 =>
      let '(self_local, st) := enter st local in
      truth ← execute_Cond root (run_frames st) c;
      st ← (if truth : bool then execute_StmtSeq root fuel st s1 self_local
            else execute_StmtSeq root fuel st s2 self_local);
      Ok (leave st local)
  | While _ c s =>
      let '(self_local, st) := enter st local in
      st ← execute_loop root fuel st c s local;
      Ok (leave st local)
  | Stmt_Decl d =>
      frames ← execute_Decl root (run_frames st) d local;
      Ok (Run_ frames (data st) (printed st))
  end.
Proof. reflexivity. Qed.

Lemma execute_StmtSeq_S fuel st ss local :
  execute_StmtSeq root (S fuel) st ss local =
  match ss with
  | StmtSeq_1 s => execute_Stmt root fuel st s local
  | StmtSeq_2 s ss =>
      st ← execute_Stmt root fuel st s local;
      execute_StmtSeq root fuel st ss local
  end.
Proof. reflexivity. Qed.

Lemma execute_loop_S fuel st cond stmt local :
  execute_loop root (S fuel) st cond stmt local =
  (truth ← execute_Cond root (run_frames st) cond;
   if truth : bool then
     st ← execute_StmtSeq root fuel st stmt local;
     execute_loop root fuel st cond stmt local
   else Ok st).
Proof. reflexivity. Qed.

Lemma execute_Stmt_inv fuel :
  (∀ st s local st',
     forward (run_frames st) -> local < length (run_frames st) ->
     execute_Stmt root fuel st s local = Ok st' -> keeps st st')
  ∧ (∀ st ss local st',
     forward (run_frames st) -> local < length (run_frames st) ->
     execute_StmtSeq root fuel st ss local = Ok st' -> keeps st st')
  ∧ (∀ st c ss local st',
     forward (run_frames st) -> local < length (run_frames st) ->
     execute_loop root fuel st c ss local = Ok st' -> keeps st st').
Proof.
  induction fuel as [|fuel (IHs & IHss & IHl)]; [by repeat split|].
  assert (∀ st st1 st2, keeps st st1 -> keeps st1 st2 -> keeps st st2) as Htrans.
  { intros ??? [? ?] [? ?]. split; [done|]. by eapply grows_trans. }
  assert (∀ st local, forward (run_frames st) -> local < length (run_frames st) ->
            keeps st (enter st local).2) as Henter.
  { intros st local Hf Hl. destruct (enter_inv st local Hf Hl) as (?&?&?).
    by split. }
  assert (∀ st st' local, keeps st st' -> keeps st (leave st' local)) as Hleave.
  { intros st st' local [Hf Hg]. destruct (leave_inv st' local Hf) as [? ?].
    split; [done|]. by eapply grows_trans. }
  split; [|split].
  - intros st s local st' Hf Hl H.
    rewrite execute_Stmt_S in H.
    destruct s as [name e|name|e|l c s|l c s1 s2|l c s|d].
    + eapply execute_Assign_inv; eassumption.
    + eapply execute_Input_inv; eassumption.
    + eapply execute_Output_inv; eassumption.
    + destruct (enter_inv st local Hf Hl) as (Hf1 & Hg1 & Hl1).
      destruct (enter st local) as [self st1]; cbn [fst snd] in *.
      destruct (execute_Cond root (run_frames st1) c) as [[]| |]; simpl in H;
        try done.
      * destruct (execute_StmtSeq root fuel st1 s self) as [st2| |] eqn:E;
          simpl in H; try done. injection H as <-.
        apply IHss in E; [|done..].
        apply Hleave. eapply Htrans; [|done]. by split.
      * injection H as <-. apply Hleave. by split.
    + destruct (enter_inv st local Hf Hl) as (Hf1 & Hg1 & Hl1).
      destruct (enter st local) as [self st1]; cbn [fst snd] in *.
      destruct (execute_Cond root (run_frames st1) c) as [[]| |]; simpl in H;
        try done.
      * destruct (execute_StmtSeq root fuel st1 s1 self) as [st2| |] eqn:E;
          simpl in H; try done. injection H as <-.
        apply IHss in E; [|done..].
        apply Hleave. eapply Htrans; [|done]. by split.
      * destruct (execute_StmtSeq root fuel st1 s2 self) as [st2| |] eqn:E;
          simpl in H; try done. injection H as <-.
        apply IHss in E; [|done..].
        apply Hleave. eapply Htrans; [|done]. by split.
    + destruct (enter_inv st local Hf Hl) as (Hf1 & Hg1 & Hl1).
      destruct (enter st local) as [self st1]; cbn [fst snd] in *.
      destruct (execute_loop root fuel st1 c s local) as [st2| |] eqn:E;
        simpl in H; try done. injection H as <-.
      apply IHl in E; [|done|destruct Hg1; lia].
      apply Hleave. eapply Htrans; [|done]. by split.
    + destruct (execute_Decl root (run_frames st) d local) as [fr| |] eqn:E;
        simpl in H; try done. injection H as <-.
      by apply execute_Decl_inv in E.
  - intros st ss local st' Hf Hl H.
    rewrite execute_StmtSeq_S in H.
    destruct ss as [s|s ss]; [by eapply IHs|].
    destruct (execute_Stmt root fuel st s local) as [st1| |] eqn:E;
      simpl in H; try done.
    apply IHs in E as HE; [|done..]. destruct HE as [Hf1 [Hlen1 Hg1]].
    apply (Htrans st st1 st'); [by split|].
    apply (IHss st1 ss local); [done|lia|done].
  - intros st c ss local st' Hf Hl H. rewrite execute_loop_S in H.
    destruct (execute_Cond root (run_frames st) c) as [[]| |]; simpl in H;
      try done.
    + destruct (execute_StmtSeq root fuel st ss local) as [st1| |] eqn:E;
        simpl in H; try done.
      apply IHss in E as HE; [|done..]. destruct HE as [Hf1 [Hlen1 Hg1]].
      apply (Htrans st st1 st'); [by split|].
      apply (IHl st1 c ss local); [done|lia|done].
    + injection H as <-. split; [done|apply grows_refl].
Qed.

Lemma execute_StmtSeq_keeps fuel st ss local st' :
  forward (run_frames st) -> local < length (run_frames st) ->
  execute_StmtSeq root fuel st ss local = Ok st' -> keeps st st'.
Proof. apply execute_Stmt_inv. Qed.

(** More fuel changes no result. *)
Lemma execute_Stmt_fuel_S fuel :
  (∀ st s local,
     execute_Stmt root fuel st s local ≠ OutOfFuel ->
     execute_Stmt root (S fuel) st s local = execute_Stmt root fuel st s local)
  ∧ (∀ st ss local,
     execute_StmtSeq root fuel st ss local ≠ OutOfFuel ->
     execute_StmtSeq root (S fuel) st ss local
     = execute_StmtSeq root fuel st ss local)
  ∧ (∀ st c ss local,
     execute_loop root fuel st c ss local ≠ OutOfFuel ->
     execute_loop root (S fuel) st c ss local
     = execute_loop root fuel st c ss local).
Proof.
  induction fuel as [|fuel (IHs & IHss & IHl)]; [by repeat split|].
  split; [|split].
  - intros st s local H. rewrite (execute_Stmt_S (S fuel)).
    rewrite execute_Stmt_S in H |- *.
    destruct s as [name e|name|e|l c s|l c s1 s2|l c s|d]; try done.
    + destruct (enter st local) as [self st1].
      destruct (execute_Cond root (run_frames st1) c) as [[]| |]; try done.
      simpl in *.
      destruct (execute_StmtSeq root fuel st1 s self) eqn:E; try done;
        by rewrite IHss, E by (by rewrite E).
    + destruct (enter st local) as [self st1].
      destruct (execute_Cond root (run_frames st1) c) as [[]| |]; try done;
        simpl in *.
      * destruct (execute_StmtSeq root fuel st1 s1 self) eqn:E; try done;
          by rewrite IHss, E by (by rewrite E).
      * destruct (execute_StmtSeq root fuel st1 s2 self) eqn:E; try done;
          by rewrite IHss, E by (by rewrite E).
    + destruct (enter st local) as [self st1]. simpl in *.
      destruct (execute_loop root fuel st1 c s local) eqn:E; try done;
        by rewrite IHl, E by (by rewrite E).
  - intros st ss local H. rewrite (execute_StmtSeq_S (S fuel)).
    rewrite execute_StmtSeq_S in H |- *.
    destruct ss as [s|s ss]; [by apply IHs|].
    destruct (execute_Stmt root fuel st s local) as [st1| |] eqn:E; try done.
    + rewrite IHs, E by (by rewrite E). simpl in *. by apply IHss.
    + by rewrite IHs, E by (by rewrite E).
  - intros st c ss local H. rewrite (execute_loop_S (S fuel)).
    rewrite execute_loop_S in H |- *.
    destruct (execute_Cond root (run_frames st) c) as [[]| |]; try done.
    simpl in *.
    destruct (execute_StmtSeq root fuel st ss local) as [st1| |] eqn:E;
      try done.
    + rewrite IHss, E by (by rewrite E). simpl in *. by apply IHl.
    + by rewrite IHss, E by (by rewrite E).
Qed.

Lemma execute_StmtSeq_fuel_le n m st ss local st' :
  n ≤ m ->
  execute_StmtSeq root n st ss local = Ok st' ->
  execute_StmtSeq root m st ss local = Ok st'.
Proof.
  induction 1 as [|m _ IH]; [done|]. intros H.
  destruct (execute_Stmt_fuel_S m) as (_ & Hss & _).
  rewrite Hss; rewrite (IH H); done.
Qed.

(** *** Declarations inside a loop body *)

Lemma execute_IdList_first l frames local frames' :
  forward frames -> local < length frames ->
  execute_IdList root frames l local = Ok frames' ->
  contains frames' local (first_name l) = true.
Proof.
  intros Hf Hl H. destruct l as [name|name l]; simpl in *.
  - apply execute_Id_declare_Ok in H as ->. by apply contains_set_item_same.
  - destruct (execute_Id_declare root frames name local) as [frames1| |] eqn:E;
      [|done..].
    apply execute_Id_declare_Ok in E as ->. simpl in H.
    apply execute_IdList_inv in H as [_ [_ Hg]]; [|by apply forward_set_item].
    by apply Hg, contains_set_item_same.
Qed.

Lemma execute_IdList_again l frames local :
  forward frames -> contains frames local (first_name l) = true ->
  execute_IdList root frames l local = Err (DeclaredTwice (first_name l)).
Proof.
  intros Hf Hc. destruct l as [name|name l]; simpl in *;
    by rewrite execute_Id_declare_again.
Qed.

(** After a body that starts with a declaration has run, the frame it
    was run against holds the declared name. *)
Lemma body_declares fuel st body local x st' :
  forward (run_frames st) -> local < length (run_frames st) ->
  declares_first body = Some x ->
  execute_StmtSeq root fuel st body local = Ok st' ->
  forward (run_frames st') ∧ contains (run_frames st') local x = true.
Proof.
  intros Hf Hl Hx H.
  split; [by eapply execute_StmtSeq_keeps|].
  destruct fuel as [|[|fuel]]; [done| |].
  { rewrite execute_StmtSeq_S in H. by destruct body. }
  rewrite execute_StmtSeq_S in H.
  destruct body as [[| | | | | |[l]]|[| | | | | |[l]] rest]; try done;
    injection Hx as <-; rewrite execute_Stmt_S in H.
  - destruct (execute_Decl root (run_frames st) (Decl_3 l) local)
      as [fr| |] eqn:E; [|done..].
    injection H as <-. simpl. by eapply execute_IdList_first.
  - destruct (execute_Decl root (run_frames st) (Decl_3 l) local)
      as [fr| |] eqn:E; [|done..].
    cbn [mbind res_bind] in H.
    pose proof (execute_IdList_first _ _ _ _ Hf Hl E) as Hc.
    apply execute_Decl_inv in E as [Hf1 [Hlen1 _]]; [|done].
    apply execute_StmtSeq_keeps in H as [_ [_ Hg]]; [|done|simpl; lia].
    by apply Hg.
Qed.

(** Run again against the same frame, the body aborts at once. *)
Lemma body_declares_again fuel st body local x :
  forward (run_frames st) ->
  declares_first body = Some x ->
  contains (run_frames st) local x = true ->
  execute_StmtSeq root (S (S fuel)) st body local = Err (DeclaredTwice x).
Proof.
  intros Hf Hx Hc. rewrite execute_StmtSeq_S.
  destruct body as [[| | | | | |[l]]|[| | | | | |[l]] rest]; try done;
    injection Hx as <-; rewrite execute_Stmt_S; simpl;
    by rewrite execute_IdList_again.
Qed.

Lemma execute_Stmt_keeps fuel st s local st' :
  forward (run_frames st) -> local < length (run_frames st) ->
  execute_Stmt root fuel st s local = Ok st' -> keeps st st'.
Proof. apply execute_Stmt_inv. Qed.

Lemma execute_Stmt_Decl_first fuel st l local st' :
  forward (run_frames st) -> local < length (run_frames st) ->
  execute_Stmt root fuel st (Stmt_Decl (Decl_3 l)) local = Ok st' ->
  contains (run_frames st') local (first_name l) = true.
Proof.
  intros Hf Hl H. destruct fuel as [|fuel]; [done|].
  rewrite execute_Stmt_S in H.
  destruct (execute_Decl root (run_frames st) (Decl_3 l) local)
    as [fr| |] eqn:E; [|done..].
  injection H as <-. by eapply execute_IdList_first.
Qed.

Lemma execute_Stmt_Decl_again fuel st l local st' :
  forward (run_frames st) ->
  contains (run_frames st) local (first_name l) = true ->
  execute_Stmt root fuel st (Stmt_Decl (Decl_3 l)) local ≠ Ok st'.
Proof.
  intros Hf Hc. destruct fuel as [|fuel]; [done|].
  rewrite execute_Stmt_S. simpl. by rewrite execute_IdList_again.
Qed.

(** After a body has run, the frame it was run against holds the names
    declared at its top level. *)
Lemma body_holds_declared fuel : ∀ st body local st',
  forward (run_frames st) -> local < length (run_frames st) ->
  execute_StmtSeq root fuel st body local = Ok st' ->
  Forall (λ x, contains (run_frames st') local x = true)
         (declared_names body).
Proof.
  induction fuel as [|fuel IH]; intros st body local st' Hf Hl H; [done|].
  rewrite execute_StmtSeq_S in H. destruct body as [s|s ss].
  - destruct s as [| | | | | |[l]]; simpl; try by constructor.
    constructor; [|constructor]. by eapply execute_Stmt_Decl_first.
  - destruct (execute_Stmt root fuel st s local) as [st1| |] eqn:E;
      [|done..].
    cbn [mbind res_bind] in H.
    destruct (execute_Stmt_keeps _ _ _ _ _ Hf Hl E) as [Hf1 [Hlen1 _]].
    assert (local < length (run_frames st1)) as Hl1 by lia.
    pose proof (IH _ _ _ _ Hf1 Hl1 H) as Hrest.
    destruct s as [| | | | | |[l]]; simpl; try done.
    constructor; [|done].
    destruct (execute_StmtSeq_keeps _ _ _ _ _ Hf1 Hl1 H) as [_ [_ Hg]].
    apply Hg. exact (execute_Stmt_Decl_first _ _ _ _ _ Hf Hl E).
Qed.

(** Run again against a frame that holds those names, a body with a
    declaration at its top level does not complete. *)
Lemma body_declares_never fuel : ∀ st body local st',
  forward (run_frames st) -> local < length (run_frames st) ->
  declared_names body ≠ [] ->
  Forall (λ x, contains (run_frames st) local x = true)
         (declared_names body) ->
  execute_StmtSeq root fuel st body local ≠ Ok st'.
Proof.
  induction fuel as [|fuel IH]; intros st body local st' Hf Hl Hne Hall;
    [done|].
  rewrite execute_StmtSeq_S. destruct body as [s|s ss].
  - destruct s as [| | | | | |[l]]; simpl in Hne, Hall; try done.
    apply execute_Stmt_Decl_again; [done|]. by inversion Hall.
  - destruct (execute_Stmt root fuel st s local) as [st1| |] eqn:E;
      [|done..].
    cbn [mbind res_bind].
    destruct (execute_Stmt_keeps _ _ _ _ _ Hf Hl E) as [Hf1 [Hlen1 Hg]].
    destruct s as [| | | | | |[l]]; simpl in Hne, Hall;
      try (apply IH; [done|lia|done|];
           eapply Forall_impl; [exact Hall|]; intros x Hx; by apply Hg).
    exfalso. revert E. apply execute_Stmt_Decl_again; [done|].
    by inversion Hall.
Qed.

(** C2, amended.  A [while] loop whose body has a declaration among its
    top-level statements does not complete a second iteration.  When the
    condition holds, the first iteration completes and the condition
    holds again, then: the declared names are not reset, the frame that
    received them still holds them when the second iteration starts; the
    second iteration does not complete and the loop statement never
    returns; and when the declaration is the first statement of the body,
    the run aborts there with the message of a duplicate declaration for
    the first declared name. *)
Theorem While_redeclaration_aborts st l cond body local fuel st1 :
  forward (run_frames st) -> local < length (run_frames st) ->
  declared_names body ≠ [] ->
  execute_Cond root (run_frames (enter st local).2) cond = Ok true ->
  execute_StmtSeq root fuel (enter st local).2 body local = Ok st1 ->
  execute_Cond root (run_frames st1) cond = Ok true ->
  Forall (λ x, contains (run_frames st1) local x = true)
         (declared_names body)
  ∧ (∀ n st2, execute_StmtSeq root n st1 body local ≠ Ok st2)
  ∧ (∀ n st', execute_Stmt root n st (While l cond body) local ≠ Ok st')
  ∧ (∀ x, declares_first body = Some x ->
       ∀ n, fuel ≤ n ->
         execute_Stmt root (5 + n) st (While l cond body) local
         = Err (DeclaredTwice x)).
Proof.
  intros Hf Hl Hne Hc0 Hbody Hc1.
  destruct (enter_inv st local Hf Hl) as (Hf0 & [Hlen0 _] & _).
  assert (local < length (run_frames (enter st local).2)) as Hl0 by lia.
  pose proof (body_holds_declared _ _ _ _ _ Hf0 Hl0 Hbody) as Hheld.
  destruct (execute_StmtSeq_keeps _ _ _ _ _ Hf0 Hl0 Hbody) as [Hf1 [Hlen1 _]].
  assert (∀ n st2, execute_StmtSeq root n st1 body local ≠ Ok st2) as Hsecond.
  { intros n st2. apply body_declares_never; [done|lia|done..]. }
  split; [exact Hheld|]. split; [exact Hsecond|]. split.
  - intros [|n] st'; [done|]. rewrite execute_Stmt_S.
    destruct (enter st local) as [self st0]; cbn [fst snd] in *.
    enough (∀ st2, execute_loop root n st0 cond body local ≠ Ok st2) as Hloop.
    { destruct (execute_loop root n st0 cond body local) as [st2| |] eqn:E;
        [|done..]. by destruct (Hloop st2). }
    intros st2. destruct n as [|n]; [done|].
    rewrite execute_loop_S, Hc0. cbn [mbind res_bind].
    destruct (execute_StmtSeq root n st0 body local) as [st1'| |] eqn:E;
      [|done..].
    cbn [mbind res_bind].
    assert (st1' = st1) as ->.
    { apply (execute_StmtSeq_fuel_le n (n `max` fuel)) in E; [|lia].
      apply (execute_StmtSeq_fuel_le fuel (n `max` fuel)) in Hbody; [|lia].
      congruence. }
    destruct n as [|n]; [done|].
    rewrite execute_loop_S, Hc1. cbn [mbind res_bind].
    destruct (execute_StmtSeq root n st1 body local) as [st3| |] eqn:E3;
      [|done..].
    by destruct (Hsecond n st3).
  - intros x Hx n Hn.
    change (5 + n) with (S (S (S (S (S n))))).
    rewrite execute_Stmt_S.
    destruct (enter st local) as [self st0]; cbn [fst snd] in *.
    rewrite execute_loop_S, Hc0. cbn [mbind res_bind].
    rewrite (execute_StmtSeq_fuel_le fuel (S (S (S n))) _ _ _ _
               ltac:(lia) Hbody).
    cbn [mbind res_bind].
    rewrite execute_loop_S, Hc1. cbn [mbind res_bind].
    destruct (body_declares fuel st0 body local x st1) as [Hf1' Hx1];
      [done|lia|done..|].
    by rewrite (body_declares_again n st1 body local x).
Qed.
End ExecuteFacts.

Lemma forward_loop_store : forward (run_frames loop_store).
Proof.
  intros [|[|l]] c; simpl.
  - intros [= <-]. lia.
  - done.
  - done.
Qed.

Lemma While_redeclaration_aborts_witness :
  execute_Stmt 0 15 loop_store (While 2 loop_cond loop_body) 1
  = Err (DeclaredTwice "y").
Proof.
  eapply (While_redeclaration_aborts 0 loop_store 2 loop_cond loop_body 1 10).
  - exact forward_loop_store.
  - simpl. lia.
  - intros H. discriminate H.
  - vm_compute. reflexivity.
  - vm_compute. reflexivity.
  - vm_compute. reflexivity.
  - reflexivity.
  - lia.
Defined.

(** C2, as stated, fails.  The loop body declares [y] and the condition
    holds three times; the program passes the checking pass, and the run
    aborts when the second iteration executes [int y] again. *)
Lemma loop_declaration_aborts :
  ∃ parser, build_tree 100 loop_declares = Ok parser
    ∧ execute_tree 100 (tree parser) "0" = Err (DeclaredTwice "y").
Proof.
  eexists. split; [vm_compute; reflexivity|]. vm_compute. reflexivity.
Qed.

(** ** The checking pass keeps its store in shape *)

Lemma slots_weaken :
  (∀ s lo hi lo' hi', lo' ≤ lo -> hi ≤ hi' ->
     slots_Stmt lo hi s -> slots_Stmt lo' hi' s)
  ∧ (∀ ss lo hi lo' hi', lo' ≤ lo -> hi ≤ hi' ->
     slots_StmtSeq lo hi ss -> slots_StmtSeq lo' hi' ss).
Proof.
  apply Stmt_mutind; simpl; try done.
  - intros l c s IH lo hi lo' hi' ? ? (? & ? & ?).
    repeat split; [lia..|]. by apply (IH (S l) hi).
  - intros l c s1 IH1 s2 IH2 lo hi lo' hi' ? ? (? & ? & ? & ?).
    repeat split; [lia..| |]; [by apply (IH1 (S l) hi)|by apply (IH2 (S l) hi)].
  - intros l c s IH lo hi lo' hi' ? ? (? & ? & ?).
    repeat split; [lia..|]. by apply (IH (S l) hi).
  - intros s IHs ss IHss lo hi lo' hi' ? ? [? ?].
    split; [by apply (IHs lo hi)|by apply (IHss lo hi)].
Qed.

Section SemanticsFacts.
Variable root : loc.
Implicit Types (frames : list (scope_tree bool)).

Lemma kept_refl frames : forward frames -> kept frames frames.
Proof. intros. split; [done|apply grows_refl]. Qed.

Lemma kept_trans frames1 frames2 frames3 :
  kept frames1 frames2 -> kept frames2 frames3 -> kept frames1 frames3.
Proof. intros [? ?] [? ?]. split; [done|]. by eapply grows_trans. Qed.

Lemma semantics_Id_kept frames node parent scope frames' :
  forward frames ->
  semantics_Id root frames node parent scope = Ok frames' ->
  kept frames frames'.
Proof.
  intros Hf. unfold semantics_Id.
  destruct (dfs_scope frames root node) as [tree| |]; [|done..]. simpl.
  destruct parent as [[| | | |]|]; try (intros [= <-]; by apply kept_refl).
  - destruct tree as [t|]; [|done].
    destruct (dict (frame frames t) !! node) as [[]|]; simpl; try done.
    intros [= <-]. by apply kept_refl.
  - destruct (contains frames scope node); simpl; [done|].
    intros [= <-]. split; [by apply forward_set_item|apply grows_set_item].
  - destruct tree as [t|]; [|done].
    intros [= <-]. split; [by apply forward_set_item|apply grows_set_item].
Qed.

Ltac step H E :=
  match type of H with
  | (?m ≫= _) = Ok _ =>
      destruct m as [?frames| |] eqn:E; [|discriminate H..];
      cbn [mbind res_bind] in H
  end.

Lemma semantics_Expr_kept :
  (∀ e frames parent scope frames', forward frames ->
     semantics_Expr root frames e parent scope = Ok frames' ->
     kept frames frames')
  ∧ (∀ t frames parent scope frames', forward frames ->
     semantics_Term root frames t parent scope = Ok frames' ->
     kept frames frames')
  ∧ (∀ f frames parent scope frames', forward frames ->
     semantics_Factor root frames f parent scope = Ok frames' ->
     kept frames frames')
  ∧ (∀ p frames parent scope frames', forward frames ->
     semantics_ExprParen root frames p parent scope = Ok frames' ->
     kept frames frames').
Proof.
  apply Expr_mutind; simpl.
  - intros t IHt. exact IHt.
  - intros t IHt op e IHe frames parent scope frames' Hf H. step H E.
    apply IHt in E as HE; [|done].
    eapply kept_trans; [done|]. eapply IHe; [apply HE|done].
  - intros f IHf. exact IHf.
  - intros f IHf op t IHt frames parent scope frames' Hf H. step H E.
    apply IHf in E as HE; [|done].
    eapply kept_trans; [done|]. eapply IHt; [apply HE|done].
  - intros name frames parent scope frames' Hf H.
    by eapply semantics_Id_kept.
  - intros value frames parent scope frames' Hf [= <-]. by apply kept_refl.
  - intros p IHp. exact IHp.
  - intros e IHe. exact IHe.
  - intros e IHe p IHp frames parent scope frames' Hf H. step H E.
    apply IHe in E as HE; [|done].
    eapply kept_trans; [done|]. eapply IHp; [apply HE|done].
Qed.

Lemma semantics_Cond_kept :
  (∀ c frames parent scope frames', forward frames ->
     semantics_Cond root frames c parent scope = Ok frames' ->
     kept frames frames')
  ∧ (∀ c frames parent scope frames', forward frames ->
     semantics_Cmpr root frames c parent scope = Ok frames' ->
     kept frames frames')
  ∧ (∀ p frames parent scope frames', forward frames ->
     semantics_CondParen root frames p parent scope = Ok frames' ->
     kept frames frames').
Proof.
  destruct semantics_Expr_kept as (HE & _).
  apply Cond_mutind; simpl.
  - intros p IHp. exact IHp.
  - intros c IHc. exact IHc.
  - intros c IHc op d IHd frames parent scope frames' Hf H. step H E.
    apply IHc in E as HE'; [|done].
    eapply kept_trans; [done|]. eapply IHd; [apply HE'|done].
  - intros e1 op e2 frames parent scope frames' Hf H. step H E.
    apply HE in E as HE'; [|done].
    eapply kept_trans; [done|]. eapply HE; [apply HE'|done].
  - intros e1 e2 frames parent scope frames' Hf H. step H E.
    apply HE in E as HE'; [|done].
    eapply kept_trans; [done|]. eapply HE; [apply HE'|done].
  - intros c IHc. exact IHc.
  - intros c IHc p IHp frames parent scope frames' Hf H. step H E.
    apply IHc in E as HE'; [|done].
    eapply kept_trans; [done|]. eapply IHp; [apply HE'|done].
Qed.

Lemma semantics_IdList_kept l : ∀ frames parent scope frames',
  forward frames ->
  semantics_IdList root frames l parent scope = Ok frames' ->
  kept frames frames'.
Proof.
  induction l as [name|name l IH]; intros frames parent scope frames' Hf H;
    simpl in H.
  - by eapply semantics_Id_kept.
  - step H E. apply semantics_Id_kept in E as HE; [|done].
    eapply kept_trans; [done|]. eapply IH; [apply HE|done].
Qed.

Lemma semantics_Decl_kept d frames parent scope frames' :
  forward frames ->
  semantics_Decl root frames d parent scope = Ok frames' ->
  kept frames frames'.
Proof. destruct d. apply semantics_IdList_kept. Qed.

Lemma semantics_DeclSeq_kept ds : ∀ frames parent scope frames',
  forward frames ->
  semantics_DeclSeq root frames ds parent scope = Ok frames' ->
  kept frames frames'.
Proof.
  induction ds as [d|d ds IH]; intros frames parent scope frames' Hf H;
    simpl in H.
  - by eapply semantics_Decl_kept.
  - step H E. apply semantics_Decl_kept in E as HE; [|done].
    eapply kept_trans; [done|]. eapply IH; [apply HE|done].
Qed.

Lemma semantics_Stmt_kept :
  (∀ s frames parent scope lo frames',
     forward frames -> scope < lo -> slots_Stmt lo (length frames) s ->
     semantics_Stmt root frames s parent scope = Ok frames' ->
     kept frames frames')
  ∧ (∀ ss frames parent scope lo frames',
     forward frames -> scope < lo -> slots_StmtSeq lo (length frames) ss ->
     semantics_StmtSeq root frames ss parent scope = Ok frames' ->
     kept frames frames').
Proof.
  destruct semantics_Expr_kept as (HE & _).
  destruct semantics_Cond_kept as (HC & _).
  assert (∀ frames scope l, forward frames -> scope < l -> l < length frames ->
            kept frames (set_child frames scope (Some l))) as Hattach.
  { intros. split; [by apply forward_attach|apply grows_set_child]. }
  assert (∀ frames frames' scope, kept frames frames' ->
            kept frames (set_child frames' scope None)) as Hdetach.
  { intros frames frames' scope [? ?]. split; [by apply forward_detach|].
    eapply grows_trans; [done|apply grows_set_child]. }
  assert (∀ frames frames' lo ss, kept frames frames' ->
            slots_StmtSeq lo (length frames) ss ->
            slots_StmtSeq lo (length frames') ss) as Hslots.
  { intros frames frames' lo ss [_ [Hlen _]].
    by apply (proj2 slots_weaken ss lo (length frames) lo (length frames')). }
  apply Stmt_mutind; simpl.
  - intros name e frames parent scope lo frames' Hf Hs _ H. step H E.
    apply semantics_Id_kept in E as HE'; [|done].
    eapply kept_trans; [done|]. eapply HE; [apply HE'|done].
  - intros name frames parent scope lo frames' Hf Hs _ H.
    by eapply semantics_Id_kept.
  - intros e frames parent scope lo frames' Hf Hs _ H. by eapply HE.
  - intros l c s IH frames parent scope lo frames' Hf Hs (Hlo & Hhi & Hsl) H.
    pose proof (Hattach frames scope l Hf ltac:(lia) Hhi) as K0.
    step H E1. apply HC in E1 as K1; [|apply K0].
    step H E2. apply (IH _ _ _ (S l)) in E2 as K2;
      [|apply K1|lia|eauto using kept_trans].
    injection H as <-. eauto using kept_trans.
  - intros l c s1 IH1 s2 IH2 frames parent scope lo frames' Hf Hs
      (Hlo & Hhi & Hsl1 & Hsl2) H.
    pose proof (Hattach frames scope l Hf ltac:(lia) Hhi) as K0.
    step H E1. apply HC in E1 as K1; [|apply K0].
    step H E2. apply (IH1 _ _ _ (S l)) in E2 as K2;
      [|apply K1|lia|eauto using kept_trans].
    step H E3. apply (IH2 _ _ _ (S l)) in E3 as K3;
      [|apply K2|lia|eauto 6 using kept_trans].
    injection H as <-. eauto 6 using kept_trans.
  - intros l c s IH frames parent scope lo frames' Hf Hs (Hlo & Hhi & Hsl) H.
    pose proof (Hattach frames scope l Hf ltac:(lia) Hhi) as K0.
    step H E1. apply HC in E1 as K1; [|apply K0].
    step H E2. apply (IH _ _ _ (S l)) in E2 as K2;
      [|apply K1|lia|eauto using kept_trans].
    injection H as <-. eauto using kept_trans.
  - intros d frames parent scope lo frames' Hf Hs _ H.
    by eapply semantics_Decl_kept.
  - intros s IH. exact IH.
  - intros s IHs ss IHss frames parent scope lo frames' Hf Hs [Hsl1 Hsl2] H.
    step H E. apply (IHs _ _ _ lo) in E as K1; [|done..].
    eapply kept_trans; [done|].
    eapply (IHss _ _ _ lo); [apply K1|done|by eapply Hslots|done].
Qed.
End SemanticsFacts.

(** ** The parser numbers the frame slots in nesting order *)

Lemma extended_refl frames : extended frames frames.
Proof. exists 0. simpl. by rewrite app_nil_r. Qed.

Lemma extended_trans frames1 frames2 frames3 :
  extended frames1 frames2 -> extended frames2 frames3 ->
  extended frames1 frames3.
Proof.
  intros [k1 ->] [k2 ->]. exists (k1 + k2).
  by rewrite <- app_assoc, replicate_add.
Qed.

Lemma extended_alloc frames : extended frames (alloc frames).2.
Proof. by exists 1. Qed.

Lemma extended_length frames frames' :
  extended frames frames' -> length frames ≤ length frames'.
Proof. intros [k ->]. rewrite length_app. lia. Qed.

Ltac bind_inv H :=
  repeat
    (match type of H with
     | (?m ≫= _) = Ok _ =>
         let E := fresh "E" in
         destruct m as [?| |] eqn:E; [|discriminate H..];
         cbn [mbind res_bind] in H
     | (let '(_, _) := ?p in _) = Ok _ => destruct p
     end).

Lemma parse_Assign_slots fuel scanner s scanner' lo hi :
  parse_Assign fuel scanner = Ok (s, scanner') -> slots_Stmt lo hi s.
Proof. unfold parse_Assign. intros H. bind_inv H. by injection H as <- _. Qed.

Lemma parse_Input_slots scanner s scanner' lo hi :
  parse_Input scanner = Ok (s, scanner') -> slots_Stmt lo hi s.
Proof. unfold parse_Input. intros H. bind_inv H. by injection H as <- _. Qed.

Lemma parse_Output_slots fuel scanner s scanner' lo hi :
  parse_Output fuel scanner = Ok (s, scanner') -> slots_Stmt lo hi s.
Proof. unfold parse_Output. intros H. bind_inv H. by injection H as <- _. Qed.

Lemma parse_StmtSeq_S fuel scanner frames :
  parse_StmtSeq (S fuel) scanner frames =
  ('(s, scanner, frames) ←
     (if decide (token scanner = ID) then
        '(s, scanner) ← parse_Assign fuel scanner; Ok (s, scanner, frames)
      else if decide (token scanner = INPUT) then
        '(s, scanner) ← parse_Input scanner; Ok (s, scanner, frames)
      else if decide (token scanner = OUTPUT) then
        '(s, scanner) ← parse_Output fuel scanner; Ok (s, scanner, frames)
      else if decide (token scanner = IF) then
        let '(local, frames) := alloc frames in
        parse_If fuel local scanner frames
      else if decide (token scanner = WHILE) then
        let '(local, frames) := alloc frames in
        parse_While fuel local scanner frames
      else if decide (token scanner = INT) then
        '(d, scanner) ← parse_Decl fuel scanner;
        Ok (Stmt_Decl d, scanner, frames)
      else Err BadStartToStatement);
   if decide (token scanner ≠ END ∧ token scanner ≠ ENDIF
              ∧ token scanner ≠ ENDWHILE ∧ token scanner ≠ ELSE) then
     '(ss, scanner, frames) ← parse_StmtSeq fuel scanner frames;
     Ok (StmtSeq_2 s ss, scanner, frames)
   else Ok (StmtSeq_1 s, scanner, frames)).
Proof. reflexivity. Qed.

Lemma parse_If_S fuel local scanner frames :
  parse_If (S fuel) local scanner frames =
  (scanner ← token_assert scanner IF;
   '(c, scanner) ← parse_Cond fuel scanner;
   scanner ← token_assert scanner THEN;
   '(s1, scanner, frames) ← parse_StmtSeq fuel scanner frames;
   if decide (token scanner = ELSE) then
     scanner ← token_assert scanner ELSE;
     '(s2, scanner, frames) ← parse_StmtSeq fuel scanner frames;
     scanner ← token_assert scanner ENDIF;
     Ok (If_7 local c s1 s2, scanner, frames)
   else
     scanner ← token_assert scanner ENDIF;
     Ok (If_5 local c s1, scanner, frames)).
Proof. reflexivity. Qed.

Lemma parse_While_S fuel local scanner frames :
  parse_While (S fuel) local scanner frames =
  (scanner ← token_assert scanner WHILE;
   '(c, scanner) ← parse_Cond fuel scanner;
   scanner ← token_assert scanner BEGIN;
   '(s, scanner, frames) ← parse_StmtSeq fuel scanner frames;
   scanner ← token_assert scanner ENDWHILE;
   Ok (While local c s, scanner, frames)).
Proof. reflexivity. Qed.

Lemma parse_StmtSeq_slots fuel :
  (∀ scanner frames ss scanner' frames',
     parse_StmtSeq fuel scanner frames = Ok (ss, scanner', frames') ->
     extended frames frames'
     ∧ slots_StmtSeq (length frames) (length frames') ss)
  ∧ (∀ local scanner frames s scanner' frames',
     parse_If fuel local scanner frames = Ok (s, scanner', frames') ->
     local < length frames ->
     extended frames frames' ∧ slots_Stmt local (length frames') s)
  ∧ (∀ local scanner frames s scanner' frames',
     parse_While fuel local scanner frames = Ok (s, scanner', frames') ->
     local < length frames ->
     extended frames frames' ∧ slots_Stmt local (length frames') s).
Proof.
  induction fuel as [|fuel (IHss & IHif & IHwh)]; [by repeat split|].
  destruct slots_weaken as [Hws Hwss].
  split; [|split].
  - intros scanner frames ss scanner' frames' H.
    rewrite parse_StmtSeq_S in H.
    match type of H with (?m ≫= _) = _ =>
      destruct m as [[[s sc1] fr1]| |] eqn:E; [|discriminate H..] end.
    cbn [mbind res_bind] in H.
    assert (extended frames fr1 ∧ slots_Stmt (length frames) (length fr1) s)
      as [Hext1 Hs].
    { repeat match type of E with
             | (if decide ?P then _ else _) = _ => destruct (decide P)
             end; try discriminate E.
      - bind_inv E. injection E as <- _ <-.
        split; [apply extended_refl|by eapply parse_Assign_slots].
      - bind_inv E. injection E as <- _ <-.
        split; [apply extended_refl|by eapply parse_Input_slots].
      - bind_inv E. injection E as <- _ <-.
        split; [apply extended_refl|by eapply parse_Output_slots].
      - pose proof (length_alloc frames) as Hlen.
        pose proof (extended_alloc frames) as Hext.
        destruct (alloc frames) as [local fr0] eqn:Ha.
        assert (local = length frames) as -> by (by injection Ha).
        cbn [fst snd] in *.
        apply IHif in E as [? ?]; [|lia].
        split; [by eapply extended_trans|done].
      - pose proof (length_alloc frames) as Hlen.
        pose proof (extended_alloc frames) as Hext.
        destruct (alloc frames) as [local fr0] eqn:Ha.
        assert (local = length frames) as -> by (by injection Ha).
        cbn [fst snd] in *.
        apply IHwh in E as [? ?]; [|lia].
        split; [by eapply extended_trans|done].
      - bind_inv E. injection E as <- _ <-.
        split; [apply extended_refl|done]. }
    case_decide.
    + bind_inv H. injection H as <- _ <-.
      match goal with
      | E : parse_StmtSeq fuel _ _ = Ok (?ss', _, ?fr2) |- _ =>
          apply IHss in E as [Hext2 Hss];
          pose proof (extended_length _ _ Hext1);
          pose proof (extended_length _ _ Hext2);
          split; [by eapply extended_trans|]; simpl; split;
          [apply (Hws s (length frames) (length fr1)); [lia..|done]
          |apply (Hwss ss' (length fr1) (length fr2)); [lia..|done]]
      end.
    + injection H as <- _ <-. by split.
  - intros local scanner frames s scanner' frames' H Hl.
    rewrite parse_If_S in H. bind_inv H.
    match goal with
    | E : parse_StmtSeq fuel _ frames = Ok (?s1, _, ?fr1) |- _ =>
        apply IHss in E as [Hext1 Hs1];
        pose proof (extended_length _ _ Hext1)
    end.
    match type of H with
    | (if decide ?P then _ else _) = _ => destruct (decide P)
    end; bind_inv H; injection H as <- _ <-.
    + match goal with
      | E : parse_StmtSeq fuel _ ?fr1 = Ok (?s2, _, ?fr2) |- _ =>
          apply IHss in E as [Hext2 Hs2];
          pose proof (extended_length _ _ Hext2);
          split; [by eapply extended_trans|]; simpl;
          repeat split; [lia..| |];
          [eapply (Hwss _ (length frames)); [| |done]; lia
          |eapply (Hwss _ (length fr1)); [| |done]; lia]
      end.
    + split; [done|]. simpl. repeat split; [lia..|].
      eapply (Hwss _ (length frames)); [| |done]; lia.
  - intros local scanner frames s scanner' frames' H Hl.
    rewrite parse_While_S in H. bind_inv H. injection H as <- _ <-.
    match goal with
    | E : parse_StmtSeq fuel _ frames = Ok (?s1, _, ?fr1) |- _ =>
        apply IHss in E as [Hext1 Hs1];
        pose proof (extended_length _ _ Hext1)
    end.
    split; [done|]. simpl. repeat split; [lia..|].
    eapply (Hwss _ (length frames)); [| |done]; lia.
Qed.

(** ** Checking a tree twice *)

Lemma forward_replicate n : forward (replicate n (@new_scope bool)).
Proof.
  intros l c. destruct (decide (l < n)) as [Hl|Hl].
  - unfold frame. by rewrite lookup_total_replicate_2.
  - rewrite frame_ge by (rewrite length_replicate; lia). done.
Qed.

Lemma Parser_parse_shape fuel scanner parser :
  Parser_parse fuel scanner = Ok parser ->
  global_scope parser = 0
  ∧ program_scope (tree parser) = 1
  ∧ forward (frames parser)
  ∧ 2 ≤ length (frames parser)
  ∧ slots_StmtSeq 2 (length (frames parser)) (Program_stmts (tree parser)).
Proof.
  unfold Parser_parse, parse_Program. cbn [alloc app length].
  intros H. bind_inv H. injection H as <-. rename E into H. bind_inv H.
  match goal with
  | E : parse_StmtSeq fuel _ _ = Ok _ |- _ =>
      apply parse_StmtSeq_slots in E as [[k Hk] Hs]
  end.
  destruct (decide _); [done|]. injection H as <- <-.
  subst. cbn [global_scope tree frames program_scope Program_stmts].
  split; [done|]. split; [done|].
  split; [exact (forward_replicate (2 + k))|].
  split; [rewrite length_app; simpl; lia|done].
Qed.

Section Recheck.
Variable root : loc.
Implicit Types (frames : list (scope_tree bool)).

Lemma semantics_Id_declare frames node scope frames' :
  semantics_Id root frames node (Some declare) scope = Ok frames' ->
  frames' = set_item frames scope node false.
Proof.
  unfold semantics_Id. destruct (dfs_scope frames root node); [|done..].
  simpl. destruct (contains frames scope node); simpl; congruence.
Qed.

Lemma semantics_Id_declare_again frames node scope :
  forward frames -> contains frames scope node = true ->
  semantics_Id root frames node (Some declare) scope
  = Err (DeclaredTwice node).
Proof.
  intros Hf Hc. unfold semantics_Id.
  destruct (dfs_scope_forward frames root node Hf) as [r ->]. simpl.
  by rewrite Hc.
Qed.

Lemma semantics_IdList_first l frames scope frames' :
  forward frames -> scope < length frames ->
  semantics_IdList root frames l (Some declare) scope = Ok frames' ->
  contains frames' scope (first_name l) = true.
Proof.
  intros Hf Hl H. destruct l as [name|name l]; simpl in *.
  - apply semantics_Id_declare in H as ->. by apply contains_set_item_same.
  - destruct (semantics_Id root frames name (Some declare) scope)
      as [frames1| |] eqn:E; [|done..].
    apply semantics_Id_declare in E as ->. cbn [mbind res_bind] in H.
    apply semantics_IdList_kept in H as [_ [_ Hg]];
      [|by apply forward_set_item].
    by apply Hg, contains_set_item_same.
Qed.

(** A successful check leaves the first declared name in the root
    frame, in a store without cyclic chains. *)
Lemma semantics_Program_declares frames p lo frames' :
  forward frames -> root < program_scope p -> program_scope p < lo ->
  program_scope p < length frames ->
  slots_StmtSeq lo (length frames) (Program_stmts p) ->
  semantics_Program root frames p = Ok frames' ->
  forward frames' ∧ contains frames' root (first_declared p) = true.
Proof.
  intros Hf Hr Hlo Hlen Hs H. unfold semantics_Program in H.
  destruct (semantics_DeclSeq root frames (Program_decls p) None root)
    as [frames1| |] eqn:E; [|done..].
  cbn [mbind res_bind] in H.
  assert (contains frames1 root (first_declared p) = true) as Hc.
  { unfold first_declared.
    destruct (Program_decls p) as [[l]|[l] ds]; simpl in E.
    - eapply semantics_IdList_first; [done|lia|done].
    - destruct (semantics_IdList root frames l (Some declare) root)
        as [frames0| |] eqn:E0; [|done..].
      cbn [mbind res_bind] in E.
      assert (root < length frames) as Hroot by lia.
      pose proof (semantics_IdList_first l frames root frames0 Hf Hroot E0).
      apply semantics_IdList_kept in E0 as [Hf0 _]; [|done].
      apply semantics_DeclSeq_kept in E as [_ [_ Hg]]; [|done].
      by apply Hg. }
  apply semantics_DeclSeq_kept in E as [Hf1 [Hlen1 _]]; [|done].
  apply (proj2 (semantics_Stmt_kept root) _ _ _ _ lo) in H as [Hf2 [_ Hg]].
  - split; [done|]. apply Hg. by rewrite contains_set_child.
  - apply forward_attach; [done|done|lia].
  - done.
  - rewrite length_set_child.
    apply (proj2 slots_weaken _ lo (length frames)); [lia..|done].
Qed.

Lemma semantics_Program_again frames p :
  forward frames -> contains frames root (first_declared p) = true ->
  semantics_Program root frames p = Err (DeclaredTwice (first_declared p)).
Proof.
  intros Hf Hc. unfold semantics_Program, first_declared in *.
  destruct (Program_decls p) as [[[name|name l]]|[[name|name l]] ds];
    simpl in *; by rewrite semantics_Id_declare_again.
Qed.
End Recheck.

(** C4, amended.  The checking pass resets no frame: the root frame, the
    program's frame and the frames of the [If] and [While] nodes are the
    ones made when the tree was built.  So when a parsed tree has been
    checked with success, checking it again fails, with the message of a
    duplicate declaration for the first declared name. *)
Theorem second_check_fails fuel scanner parser parser1 :
  Parser_parse fuel scanner = Ok parser ->
  Parser_semantics parser = Ok parser1 ->
  Parser_semantics parser1
  = Err (DeclaredTwice (first_declared (tree parser))).
Proof.
  intros Hparse Hcheck.
  destruct (Parser_parse_shape _ _ _ Hparse) as (Hroot & Hps & Hf & Hlen & Hs).
  unfold Parser_semantics in *.
  destruct (semantics_Program (global_scope parser) (frames parser)
              (tree parser)) as [frames1| |] eqn:E; [|done..].
  injection Hcheck as <-. cbn [global_scope frames tree mbind res_bind].
  apply (semantics_Program_declares _ _ _ 2) in E as [Hf1 Hc];
    [|done|lia..|done].
  by rewrite semantics_Program_again.
Qed.

Lemma second_check_fails_witness :
  Parser_semantics assign_one_checked = Err (DeclaredTwice "x").
Proof.
  apply (second_check_fails 100 assign_one assign_one_parsed assign_one_checked).
  - vm_compute. reflexivity.
  - vm_compute. reflexivity.
Defined.

(** C4, as stated, fails.  [build_tree] accepts both programs.  Checked
    a second time, the first is rejected because [x] is still in the root
    frame; and even when the parser is given a new root frame first, the
    second is rejected because [y] is still in [program_scope], which
    belongs to the tree. *)
Lemma second_check_differs :
  (∃ parser, build_tree 100 assign_one = Ok parser
     ∧ Parser_semantics parser = Err (DeclaredTwice "x"))
  ∧ (∃ parser, build_tree 100 declare_in_block = Ok parser
     ∧ Parser_semantics (new_global_scope parser) = Err (DeclaredTwice "y")).
Proof.
  split; eexists; (split; [vm_compute; reflexivity|]); vm_compute; reflexivity.
Qed.

(** * Further properties of the three passes *)

(** ** The parser consumes what it accepts *)

Lemma advances_cons l s : advances (l :: s) s.
Proof. by exists [l]. Qed.

Lemma advances_trans s1 s2 s3 :
  advances s1 s2 -> advances s2 s3 -> advances s1 s3.
Proof.
  intros (c1 & Hc1 & ->) (c2 & Hc2 & ->). exists (c1 ++ c2).
  split; [by destruct c1|by rewrite app_assoc].
Qed.

Lemma advances_length s s' : advances s s' -> length s' < length s.
Proof.
  intros (c & Hc & ->). rewrite length_app. destruct c; [done|simpl; lia].
Qed.

Lemma token_assert_Ok s k s' :
  k ≠ ERROR -> token_assert s k = Ok s' -> ∃ l, s = l :: s' ∧ kind l = k.
Proof.
  unfold token_assert, token_validate. intros Hk H.
  destruct (decide (token s = k)) as [Ht|]; [|done]. injection H as <-.
  destruct s as [|l s]; [by destruct Hk|]. by exists l.
Qed.

Lemma token_assert_advances s k s' :
  k ≠ ERROR -> token_assert s k = Ok s' -> advances s s'.
Proof.
  intros Hk H. destruct (token_assert_Ok _ _ _ Hk H) as (l & -> & _).
  apply advances_cons.
Qed.

Lemma parse_Id_advances s name s' :
  parse_Id s = Ok (name, s') -> advances s s'.
Proof.
  unfold parse_Id. destruct (token_validate s ID); [|done..]. simpl.
  destruct s as [|[]]; try done. intros [= _ <-]. apply advances_cons.
Qed.

Lemma parse_Const_advances s value s' :
  parse_Const s = Ok (value, s') -> advances s s'.
Proof.
  unfold parse_Const. destruct (token_validate s CONST); [|done..]. simpl.
  destruct s as [|[]]; try done. intros [= _ <-]. apply advances_cons.
Qed.

(** Inversion of a chain of binds whose result is [Ok]. *)
Ltac ok_inv H :=
  repeat
    (match type of H with
     | (?m ≫= _) = Ok _ =>
         let E := fresh "E" in
         destruct m as [?| |] eqn:E; [|discriminate H..];
         cbn [mbind res_bind] in H
     | (let '(_, _) := ?p in _) = Ok _ => destruct p
     | (if decide ?P then _ else _) = Ok _ => destruct (decide P)
     | Err _ = Ok _ => discriminate H
     | Ok _ = Ok _ => injection H as H; subst
     | (_, _) = (_, _) => injection H as ? H; subst
     end).

Lemma parse_Expr_S fuel s :
  parse_Expr (S fuel) s =
  ('(t, scanner) ← parse_Term fuel s;
   if decide (token scanner = ADD) then
     scanner ← token_assert scanner ADD;
     '(e, scanner) ← parse_Expr fuel scanner;
     Ok (Expr_3 t ADD e, scanner)
   else if decide (token scanner = SUB) then
     scanner ← token_assert scanner SUB;
     '(e, scanner) ← parse_Expr fuel scanner;
     Ok (Expr_3 t SUB e, scanner)
   else Ok (Expr_1 t, scanner)).
Proof. reflexivity. Qed.

Lemma parse_Term_S fuel s :
  parse_Term (S fuel) s =
  ('(f, scanner) ← parse_Factor fuel s;
   if decide (token scanner = MULT) then
     scanner ← token_assert scanner MULT;
     '(t, scanner) ← parse_Term fuel scanner;
     Ok (Term_3 f MULT t, scanner)
   else Ok (Term_1 f, scanner)).
Proof. reflexivity. Qed.

Lemma parse_Factor_S fuel s :
  parse_Factor (S fuel) s =
  (if decide (token s = ID) then
     '(name, scanner) ← parse_Id s; Ok (Factor_Id name, scanner)
   else if decide (token s = CONST) then
     '(value, scanner) ← parse_Const s; Ok (Factor_Const value, scanner)
   else if decide (token s = LPAREN) then
     '(p, scanner) ← expr_paren_parse fuel s; Ok (Factor_paren p, scanner)
   else Err InvalidOperator).
Proof. reflexivity. Qed.

Lemma expr_paren_parse_S fuel s :
  expr_paren_parse (S fuel) s =
  (scanner ← token_assert s LPAREN;
   '(e, scanner) ← parse_Expr fuel scanner;
   if decide (token scanner = LPAREN) then
     '(p, scanner) ← expr_paren_parse fuel scanner;
     scanner ← token_assert scanner RPAREN;
     Ok (ExprParen_2 e p, scanner)
   else
     scanner ← token_assert scanner RPAREN;
     Ok (ExprParen_1 e, scanner)).
Proof. reflexivity. Qed.

(** Turns every successful step among the hypotheses into an
    [advances] fact and chains them. *)
Ltac advance :=
  repeat
    (match goal with
     | H : token_assert _ _ = Ok _ |- _ =>
         apply token_assert_advances in H; [|discriminate]
     | H : parse_Id _ = Ok _ |- _ => apply parse_Id_advances in H
     | H : parse_Const _ = Ok _ |- _ => apply parse_Const_advances in H
     | IH : ∀ s r s', ?f s = Ok (r, s') -> advances s s',
       H : ?f _ = Ok _ |- _ => apply IH in H
     end);
  eauto 8 using advances_trans.

Lemma parse_Expr_advances fuel :
  (∀ s e s', parse_Expr fuel s = Ok (e, s') -> advances s s')
  ∧ (∀ s t s', parse_Term fuel s = Ok (t, s') -> advances s s')
  ∧ (∀ s f s', parse_Factor fuel s = Ok (f, s') -> advances s s')
  ∧ (∀ s p s', expr_paren_parse fuel s = Ok (p, s') -> advances s s').
Proof.
  induction fuel as [|fuel (IHe & IHt & IHf & IHp)]; [by repeat split|].
  split; [|split; [|split]]; intros s r s' H.
  - rewrite parse_Expr_S in H. ok_inv H; advance.
  - rewrite parse_Term_S in H. ok_inv H; advance.
  - rewrite parse_Factor_S in H. ok_inv H; advance.
  - rewrite expr_paren_parse_S in H. ok_inv H; advance.
Qed.

Lemma parse_Cond_S fuel s :
  parse_Cond (S fuel) s =
  (if decide (token s = NEGATION) then
     scanner ← token_assert s NEGATION;
     '(p, scanner) ← cond_paren_parse fuel scanner;
     Ok (Cond_neg p, scanner)
   else
     '(c, scanner) ← parse_Cmpr fuel s;
     if decide (token scanner = OR) then
       scanner ← token_assert scanner OR;
       '(d, scanner) ← parse_Cond fuel scanner;
       Ok (Cond_3 c OR d, scanner)
     else Ok (Cond_1 c, scanner)).
Proof. reflexivity. Qed.

Lemma cond_paren_parse_S fuel s :
  cond_paren_parse (S fuel) s =
  (scanner ← token_assert s LPAREN;
   '(c, scanner) ← parse_Cond fuel scanner;
   if decide (token scanner = LPAREN) then
     '(p, scanner) ← cond_paren_parse fuel scanner;
     scanner ← token_assert scanner RPAREN;
     Ok (CondParen_2 c p, scanner)
   else
     scanner ← token_assert scanner RPAREN;
     Ok (CondParen_1 c, scanner)).
Proof. reflexivity. Qed.

Lemma parse_IdList_S fuel s :
  parse_IdList (S fuel) s =
  ('(name, scanner) ← parse_Id s;
   if decide (token scanner = COMMA) then
     scanner ← token_assert scanner COMMA;
     '(l, scanner) ← parse_IdList fuel scanner;
     Ok (IdList_3 name l, scanner)
   else Ok (IdList_1 name, scanner)).
Proof. reflexivity. Qed.

Lemma parse_DeclSeq_S fuel s :
  parse_DeclSeq (S fuel) s =
  ('(d, scanner) ← parse_Decl fuel s;
   if decide (token scanner = BEGIN) then Ok (DeclSeq_1 d, scanner)
   else
     '(ds, scanner) ← parse_DeclSeq fuel scanner;
     Ok (DeclSeq_2 d ds, scanner)).
Proof. reflexivity. Qed.

Lemma parse_Expr_adv fuel s e s' :
  parse_Expr fuel s = Ok (e, s') -> advances s s'.
Proof. apply parse_Expr_advances. Qed.

Lemma parse_Cmpr_adv fuel s c s' :
  parse_Cmpr fuel s = Ok (c, s') -> advances s s'.
Proof.
  pose proof (parse_Expr_adv fuel) as IH.
  unfold parse_Cmpr. intros H. ok_inv H; advance.
Qed.

Lemma parse_Cond_advances fuel :
  (∀ s c s', parse_Cond fuel s = Ok (c, s') -> advances s s')
  ∧ (∀ s p s', cond_paren_parse fuel s = Ok (p, s') -> advances s s').
Proof.
  pose proof parse_Cmpr_adv as HC.
  induction fuel as [|fuel (IHc & IHp)]; [by repeat split|].
  split; intros s r s' H.
  - rewrite parse_Cond_S in H. ok_inv H;
      try match goal with
          | E : parse_Cmpr _ _ = Ok _ |- _ => apply HC in E
          end; advance.
  - rewrite cond_paren_parse_S in H. ok_inv H; advance.
Qed.

Lemma parse_Cond_adv fuel s c s' :
  parse_Cond fuel s = Ok (c, s') -> advances s s'.
Proof. apply parse_Cond_advances. Qed.

Lemma parse_IdList_adv fuel : ∀ s l s',
  parse_IdList fuel s = Ok (l, s') -> advances s s'.
Proof.
  induction fuel as [|fuel IH]; [done|]. intros s l s' H.
  rewrite parse_IdList_S in H. ok_inv H; advance.
Qed.

Lemma parse_Decl_adv fuel s d s' :
  parse_Decl fuel s = Ok (d, s') -> advances s s'.
Proof.
  pose proof (parse_IdList_adv fuel) as IH.
  unfold parse_Decl. intros H. ok_inv H; advance.
Qed.

Lemma parse_DeclSeq_adv fuel : ∀ s ds s',
  parse_DeclSeq fuel s = Ok (ds, s') -> advances s s'.
Proof.
  induction fuel as [|fuel IH]; [done|]. intros s ds s' H.
  pose proof (parse_Decl_adv fuel) as HD.
  rewrite parse_DeclSeq_S in H. ok_inv H;
    match goal with
    | E : parse_Decl _ _ = Ok _ |- _ => apply HD in E
    end; advance.
Qed.

Lemma parse_Assign_adv fuel s st s' :
  parse_Assign fuel s = Ok (st, s') -> advances s s'.
Proof.
  pose proof (parse_Expr_adv fuel) as IH.
  unfold parse_Assign. intros H. ok_inv H; advance.
Qed.

Lemma parse_Input_adv s st s' :
  parse_Input s = Ok (st, s') -> advances s s'.
Proof. unfold parse_Input. intros H. ok_inv H; advance. Qed.

Lemma parse_Output_adv fuel s st s' :
  parse_Output fuel s = Ok (st, s') -> advances s s'.
Proof.
  pose proof (parse_Expr_adv fuel) as IH.
  unfold parse_Output. intros H. ok_inv H; advance.
Qed.

Lemma parse_StmtSeq_advances fuel :
  (∀ s fr ss s' fr',
     parse_StmtSeq fuel s fr = Ok (ss, s', fr') -> advances s s')
  ∧ (∀ local s fr st s' fr',
     parse_If fuel local s fr = Ok (st, s', fr') -> advances s s')
  ∧ (∀ local s fr st s' fr',
     parse_While fuel local s fr = Ok (st, s', fr') -> advances s s').
Proof.
  induction fuel as [|fuel (IHss & IHif & IHwh)]; [by repeat split|].
  assert (∀ s fr r, parse_StmtSeq fuel s fr = Ok r -> advances s r.1.2) as Hss.
  { intros s fr [[ss s'] fr'] H. by eapply IHss. }
  assert (∀ l s fr r, parse_If fuel l s fr = Ok r -> advances s r.1.2) as Hif.
  { intros l s fr [[ss s'] fr'] H. by eapply IHif. }
  assert (∀ l s fr r, parse_While fuel l s fr = Ok r -> advances s r.1.2)
    as Hwh.
  { intros l s fr [[ss s'] fr'] H. by eapply IHwh. }
  pose proof (parse_Assign_adv fuel) as HA.
  pose proof parse_Input_adv as HI.
  pose proof (parse_Output_adv fuel) as HO.
  pose proof (parse_Decl_adv fuel) as HD.
  pose proof (parse_Cond_adv fuel) as HC.
  split; [|split].
  - intros s fr ss s' fr' H. rewrite parse_StmtSeq_S in H.
    match type of H with (?m ≫= _) = _ =>
      destruct m as [[[st s1] fr1]| |] eqn:E; [|discriminate H..] end.
    cbn [mbind res_bind] in H.
    assert (advances s s1) as Hs1.
    { ok_inv E;
        repeat match goal with
          | E : parse_Assign _ _ = Ok _ |- _ => apply HA in E
          | E : parse_Input _ = Ok _ |- _ => apply HI in E
          | E : parse_Output _ _ = Ok _ |- _ => apply HO in E
          | E : parse_Decl _ _ = Ok _ |- _ => apply HD in E
          | E : parse_If _ _ _ _ = Ok _ |- _ => apply Hif in E
          | E : parse_While _ _ _ _ = Ok _ |- _ => apply Hwh in E
          end; done. }
    ok_inv H; [|done].
    match goal with
    | E : parse_StmtSeq _ _ _ = Ok _ |- _ => apply Hss in E
    end. eauto using advances_trans.
  - intros local s fr st s' fr' H. rewrite parse_If_S in H. ok_inv H;
      repeat match goal with
        | E : parse_StmtSeq _ _ _ = Ok _ |- _ => apply Hss in E; simpl in E
        | E : parse_Cond _ _ = Ok _ |- _ => apply HC in E
        end; advance.
  - intros local s fr st s' fr' H. rewrite parse_While_S in H. ok_inv H;
      repeat match goal with
        | E : parse_StmtSeq _ _ _ = Ok _ |- _ => apply Hss in E; simpl in E
        | E : parse_Cond _ _ = Ok _ |- _ => apply HC in E
        end; advance.
Qed.

(** ** The parser returns *)

Lemma bind_not_out {A B} (m : res A) (k : A -> res B) :
  m ≠ OutOfFuel -> (∀ a, m = Ok a -> k a ≠ OutOfFuel) ->
  (m ≫= k) ≠ OutOfFuel.
Proof. destruct m; simpl; eauto. Qed.

Lemma token_assert_not_out s k : token_assert s k ≠ OutOfFuel.
Proof. unfold token_assert, token_validate. by case_decide. Qed.

Lemma parse_Id_not_out s : parse_Id s ≠ OutOfFuel.
Proof.
  unfold parse_Id, token_validate. case_decide; [|done]. simpl.
  by destruct s as [|[]].
Qed.

Lemma parse_Const_not_out s : parse_Const s ≠ OutOfFuel.
Proof.
  unfold parse_Const, token_validate. case_decide; [|done]. simpl.
  by destruct s as [|[]].
Qed.

(** Lengths of what the successful steps among the hypotheses left. *)
Ltac lengths :=
  repeat
    (match goal with
     | H : token_assert _ _ = Ok _ |- _ =>
         apply token_assert_advances, advances_length in H; [|discriminate]
     | H : parse_Id _ = Ok _ |- _ =>
         apply parse_Id_advances, advances_length in H
     | H : parse_Const _ = Ok _ |- _ =>
         apply parse_Const_advances, advances_length in H
     | H : parse_Expr _ _ = Ok _ |- _ =>
         apply parse_Expr_adv, advances_length in H
     | H : parse_Term _ _ = Ok _ |- _ =>
         apply parse_Expr_advances, advances_length in H
     | H : parse_Factor _ _ = Ok _ |- _ =>
         apply parse_Expr_advances, advances_length in H
     | H : expr_paren_parse _ _ = Ok _ |- _ =>
         apply parse_Expr_advances, advances_length in H
     | H : parse_Cmpr _ _ = Ok _ |- _ =>
         apply parse_Cmpr_adv, advances_length in H
     | H : parse_Cond _ _ = Ok _ |- _ =>
         apply parse_Cond_adv, advances_length in H
     | H : cond_paren_parse _ _ = Ok _ |- _ =>
         apply parse_Cond_advances, advances_length in H
     | H : parse_IdList _ _ = Ok _ |- _ =>
         apply parse_IdList_adv, advances_length in H
     | H : parse_Decl _ _ = Ok _ |- _ =>
         apply parse_Decl_adv, advances_length in H
     | H : parse_DeclSeq _ _ = Ok _ |- _ =>
         apply parse_DeclSeq_adv, advances_length in H
     | H : parse_Assign _ _ = Ok _ |- _ =>
         apply parse_Assign_adv, advances_length in H
     | H : parse_Input _ = Ok _ |- _ =>
         apply parse_Input_adv, advances_length in H
     | H : parse_Output _ _ = Ok _ |- _ =>
         apply parse_Output_adv, advances_length in H
     | H : parse_StmtSeq _ _ _ = Ok _ |- _ =>
         apply parse_StmtSeq_advances, advances_length in H
     | H : parse_If _ _ _ _ = Ok _ |- _ =>
         apply parse_StmtSeq_advances, advances_length in H
     | H : parse_While _ _ _ _ = Ok _ |- _ =>
         apply parse_StmtSeq_advances, advances_length in H
     end).

(** Walks through a chain of binds, showing at each step that the step
    does not run out of fuel; [fact] proves it for the recursive calls. *)
Ltac walk fact :=
  repeat
    (match goal with
     | |- (?m ≫= _) ≠ OutOfFuel =>
         apply bind_not_out;
         [first [apply token_assert_not_out | apply parse_Id_not_out
                | apply parse_Const_not_out | fact]
         |intros ? ?]
     | |- (let '(_, _) := ?p in _) ≠ OutOfFuel => destruct p
     | |- (if decide _ then _ else _) ≠ OutOfFuel => case_decide
     | |- Ok _ ≠ OutOfFuel => done
     | |- Err _ ≠ OutOfFuel => done
     | |- _ ≠ OutOfFuel => solve [fact]
     end).

Lemma parse_Expr_returns n : ∀ s, length s ≤ n ->
  (∀ fuel, 8 * length s + 4 ≤ fuel -> parse_Expr fuel s ≠ OutOfFuel)
  ∧ (∀ fuel, 8 * length s + 3 ≤ fuel -> parse_Term fuel s ≠ OutOfFuel)
  ∧ (∀ fuel, 8 * length s + 2 ≤ fuel -> parse_Factor fuel s ≠ OutOfFuel)
  ∧ (∀ fuel, 8 * length s + 1 ≤ fuel -> expr_paren_parse fuel s ≠ OutOfFuel).
Proof.
  induction n as [|n IH]; intros s Hn.
  - destruct s; [|simpl in Hn; lia].
    assert (∀ fuel, 1 ≤ fuel -> expr_paren_parse fuel [] ≠ OutOfFuel) as Hp.
    { intros [|fuel] ?; [lia|]. by rewrite expr_paren_parse_S. }
    assert (∀ fuel, 2 ≤ fuel -> parse_Factor fuel [] ≠ OutOfFuel) as Hf.
    { intros [|fuel] ?; [lia|]. by rewrite parse_Factor_S. }
    assert (∀ fuel, 3 ≤ fuel -> parse_Term fuel [] ≠ OutOfFuel) as Ht.
    { intros [|[|fuel]] ?; [lia..|]. by rewrite parse_Term_S, parse_Factor_S. }
    repeat split; simpl; try done.
    intros [|[|[|fuel]]] ?; [lia..|].
    by rewrite parse_Expr_S, parse_Term_S, parse_Factor_S.
  - assert (∀ fuel, 8 * length s + 1 ≤ fuel ->
              expr_paren_parse fuel s ≠ OutOfFuel) as Hp.
    { intros [|fuel] Hfuel; [lia|]. rewrite expr_paren_parse_S.
      walk ltac:(lengths; apply IH; lia). }
    assert (∀ fuel, 8 * length s + 2 ≤ fuel ->
              parse_Factor fuel s ≠ OutOfFuel) as Hf.
    { intros [|fuel] Hfuel; [lia|]. rewrite parse_Factor_S.
      walk ltac:(apply Hp; lia). }
    assert (∀ fuel, 8 * length s + 3 ≤ fuel ->
              parse_Term fuel s ≠ OutOfFuel) as Ht.
    { intros [|fuel] Hfuel; [lia|]. rewrite parse_Term_S.
      walk ltac:(first [apply Hf; lia | lengths; apply IH; lia]). }
    repeat split; try done.
    intros [|fuel] Hfuel; [lia|]. rewrite parse_Expr_S.
    walk ltac:(first [apply Ht; lia | lengths; apply IH; lia]).
Qed.

Lemma parse_Expr_ret fuel s :
  8 * length s + 4 ≤ fuel -> parse_Expr fuel s ≠ OutOfFuel.
Proof. by apply (parse_Expr_returns (length s)). Qed.

Lemma parse_Cmpr_ret fuel s :
  8 * length s + 4 ≤ fuel -> parse_Cmpr fuel s ≠ OutOfFuel.
Proof.
  intros Hfuel. unfold parse_Cmpr.
  walk ltac:(lengths; apply parse_Expr_ret; lia).
Qed.

Lemma parse_Cond_returns n : ∀ s, length s ≤ n ->
  (∀ fuel, 8 * length s + 5 ≤ fuel -> parse_Cond fuel s ≠ OutOfFuel)
  ∧ (∀ fuel, 8 * length s + 1 ≤ fuel -> cond_paren_parse fuel s ≠ OutOfFuel).
Proof.
  induction n as [|n IH]; intros s Hn.
  - destruct s; [|simpl in Hn; lia]. split.
    + intros [|fuel] Hfuel; [lia|]. rewrite parse_Cond_S.
      walk ltac:(apply parse_Cmpr_ret; simpl; lia).
      all: lengths; simpl in *; lia.
    + intros [|fuel] ?; [lia|]. by rewrite cond_paren_parse_S.
  - split.
    + intros [|fuel] Hfuel; [lia|]. rewrite parse_Cond_S.
      walk ltac:(first [apply parse_Cmpr_ret; lia | lengths; apply IH; lia]).
    + intros [|fuel] Hfuel; [lia|]. rewrite cond_paren_parse_S.
      walk ltac:(lengths; apply IH; lia).
Qed.

Lemma parse_Cond_ret fuel s :
  8 * length s + 5 ≤ fuel -> parse_Cond fuel s ≠ OutOfFuel.
Proof. by apply (parse_Cond_returns (length s)). Qed.

Lemma parse_IdList_ret fuel : ∀ s,
  length s + 1 ≤ fuel -> parse_IdList fuel s ≠ OutOfFuel.
Proof.
  induction fuel as [|fuel IH]; intros s Hfuel; [lia|].
  rewrite parse_IdList_S. walk ltac:(lengths; apply IH; lia).
Qed.

Lemma parse_Decl_ret fuel s :
  length s + 1 ≤ fuel -> parse_Decl fuel s ≠ OutOfFuel.
Proof.
  intros Hfuel. unfold parse_Decl.
  walk ltac:(lengths; apply parse_IdList_ret; lia).
Qed.

Lemma parse_DeclSeq_ret fuel : ∀ s,
  length s + 2 ≤ fuel -> parse_DeclSeq fuel s ≠ OutOfFuel.
Proof.
  induction fuel as [|fuel IH]; intros s Hfuel; [lia|].
  rewrite parse_DeclSeq_S.
  walk ltac:(first [apply parse_Decl_ret; lia | lengths; apply IH; lia]).
Qed.

Lemma parse_Assign_ret fuel s :
  8 * length s + 4 ≤ fuel -> parse_Assign fuel s ≠ OutOfFuel.
Proof.
  intros Hfuel. unfold parse_Assign.
  walk ltac:(lengths; apply parse_Expr_ret; lia).
Qed.

Lemma parse_Input_ret s : parse_Input s ≠ OutOfFuel.
Proof. unfold parse_Input. walk fail. Qed.

Lemma parse_Output_ret fuel s :
  8 * length s + 4 ≤ fuel -> parse_Output fuel s ≠ OutOfFuel.
Proof.
  intros Hfuel. unfold parse_Output.
  walk ltac:(lengths; apply parse_Expr_ret; lia).
Qed.

Lemma parse_StmtSeq_returns n : ∀ s, length s ≤ n ->
  (∀ fuel fr, 8 * length s + 6 ≤ fuel -> parse_StmtSeq fuel s fr ≠ OutOfFuel)
  ∧ (∀ fuel local fr, 8 * length s + 5 ≤ fuel ->
       parse_If fuel local s fr ≠ OutOfFuel)
  ∧ (∀ fuel local fr, 8 * length s + 5 ≤ fuel ->
       parse_While fuel local s fr ≠ OutOfFuel).
Proof.
  induction n as [|n IH]; intros s Hn.
  - destruct s; [|simpl in Hn; lia]. repeat split.
    + intros [|fuel] fr ?; [lia|]. rewrite parse_StmtSeq_S. by cbn.
    + intros [|fuel] local fr ?; [lia|]. rewrite parse_If_S. by cbn.
    + intros [|fuel] local fr ?; [lia|]. rewrite parse_While_S. by cbn.
  - assert (∀ fuel local fr, 8 * length s + 5 ≤ fuel ->
              parse_If fuel local s fr ≠ OutOfFuel) as Hif.
    { intros [|fuel] local fr Hfuel; [lia|]. rewrite parse_If_S.
      walk ltac:(first [lengths; apply parse_Cond_ret; lia
                       | lengths; apply IH; lia]). }
    assert (∀ fuel local fr, 8 * length s + 5 ≤ fuel ->
              parse_While fuel local s fr ≠ OutOfFuel) as Hwh.
    { intros [|fuel] local fr Hfuel; [lia|]. rewrite parse_While_S.
      walk ltac:(first [lengths; apply parse_Cond_ret; lia
                       | lengths; apply IH; lia]). }
    repeat split; try done.
    intros [|fuel] fr Hfuel; [lia|]. rewrite parse_StmtSeq_S.
    apply bind_not_out.
    + walk ltac:(first [apply parse_Assign_ret; lia | apply parse_Input_ret
                       | apply parse_Output_ret; lia | apply parse_Decl_ret; lia
                       | apply Hif; lia | apply Hwh; lia]).
    + intros [[st s1] fr1] E.
      ok_inv E; lengths; walk ltac:(apply IH; simpl in *; lia).
Qed.

(** ** What the parser accepts and rejects *)

(** X1.  Every parse routine that returns a tree has consumed at least
    one token, and what is left of the token source is a suffix of what it
    was given: nothing is pushed back and nothing is skipped. *)
Theorem parse_consumes fuel :
  (∀ s e s', parse_Expr fuel s = Ok (e, s') -> advances s s')
  ∧ (∀ s c s', parse_Cond fuel s = Ok (c, s') -> advances s s')
  ∧ (∀ s ds s', parse_DeclSeq fuel s = Ok (ds, s') -> advances s s')
  ∧ (∀ s fr ss s' fr',
       parse_StmtSeq fuel s fr = Ok (ss, s', fr') -> advances s s').
Proof.
  split; [apply parse_Expr_adv|]. split; [apply parse_Cond_adv|].
  split; [apply parse_DeclSeq_adv|]. apply parse_StmtSeq_advances.
Qed.

Lemma parse_consumes_witness :
  advances two_three_four [].
Proof.
  apply (proj1 (parse_consumes 5) two_three_four
           (Expr_3 (Term_1 (Factor_Const 2)) SUB
              (Expr_3 (Term_1 (Factor_Const 3)) SUB
                 (Expr_1 (Term_1 (Factor_Const 4)))))).
  reflexivity.
Defined.

(** [StmtSeq.parse] calls itself for what follows the first statement:
    a sequence that was parsed took one nested call for each of its
    statements. *)
Lemma parse_StmtSeq_depth fuel : ∀ s fr ss s' fr',
  parse_StmtSeq fuel s fr = Ok (ss, s', fr') -> statements ss ≤ fuel.
Proof.
  induction fuel as [|fuel IH]; intros s fr ss s' fr' H; [done|].
  rewrite parse_StmtSeq_S in H.
  match type of H with (?m ≫= _) = _ =>
    destruct m as [[[st s1] fr1]| |]; [|discriminate H..] end.
  cbn [mbind res_bind] in H. case_decide.
  - match type of H with (?m ≫= _) = _ =>
      destruct m as [[[ss2 s2] fr2]| |] eqn:E; [|discriminate H..] end.
    cbn [mbind res_bind] in H. injection H as <- _ _.
    apply IH in E. simpl. lia.
  - injection H as <- _ _. simpl. lia.
Qed.

(** X2.  The depth of nested calls that parsing takes grows with the
    program and is linear in its length.  For [n] tokens, [8 * n + 6]
    levels of the recursion of the parse routines always suffice, so the
    descent cannot go on without end.  But every statement of a sequence
    costs a level: a program is parsed only where as many nested calls
    are allowed as the statement part has statements.  [Parser.py] leaves
    the recursion limit of the interpreter as it is, so a long program
    ends in [RecursionError], with neither a tree nor a message of the
    parser. *)
Theorem Parser_parse_depth scanner :
  (∀ k, Parser_parse (8 * length scanner + 6 + k) scanner ≠ OutOfFuel)
  ∧ (∀ fuel parser,
       Parser_parse fuel scanner = Ok parser ->
       statements (Program_stmts (tree parser)) ≤ fuel).
Proof.
  split.
  - intros k. unfold Parser_parse, parse_Program. cbn [alloc app length].
    apply bind_not_out; [|by intros [tree frames] _].
    walk ltac:(first [lengths; apply parse_DeclSeq_ret; simpl in *; lia
                     | lengths;
                       apply (parse_StmtSeq_returns (length scanner));
                       simpl in *; lia]).
  - intros fuel parser. unfold Parser_parse, parse_Program.
    cbn [alloc app length]. intros H. ok_inv H. rename E into H. ok_inv H.
    match goal with
    | E : parse_StmtSeq _ _ _ = Ok _ |- _ => apply parse_StmtSeq_depth in E
    end.
    done.
Qed.

Lemma Parser_parse_depth_witness :
  Parser_parse (8 * length assign_undeclared + 6 + 0) assign_undeclared
  ≠ OutOfFuel
  ∧ statements
      (StmtSeq_1 (Assign "y" (Expr_1 (Term_1 (Factor_Const 1))))) ≤ 6.
Proof.
  destruct (Parser_parse_depth assign_undeclared) as [Hup Hlow].
  split; [exact (Hup 0)|].
  exact (Hlow 6
           (Parser_ (Program_5 1 (DeclSeq_1 (Decl_3 (IdList_1 "x")))
                       (StmtSeq_1 (Assign "y"
                          (Expr_1 (Term_1 (Factor_Const 1))))))
                    0 [new_scope; new_scope]) eq_refl).
Defined.

Lemma token_assert_hit l s : token_assert (l :: s) (kind l) = Ok s.
Proof. unfold token_assert, token_validate. simpl. by rewrite decide_True. Qed.




(** X4.  A program needs a declaration and a statement.  [program begin]
    is rejected because [Decl.parse] insists on [int]: the run ends with
    the message that [BEGIN] was invalidly placed where [INT] was
    expected.  And when [end] follows [begin] at once, the run ends in
    the last branch of [StmtSeq.parse], the one for a token that starts
    no statement. *)
Theorem Program_parse_needs_content fuel frames ps s ds rest :
  parse_DeclSeq (S fuel) s = Ok (ds, Lex BEGIN :: Lex END :: rest) ->
  parse_Program (S fuel) ps (Lex PROGRAM :: s) frames
    = Err BadStartToStatement
  ∧ parse_Program (S fuel) ps (Lex PROGRAM :: Lex BEGIN :: rest) frames
    = Err (InvalidlyPlaced BEGIN INT).
Proof.
  intros Hd. unfold parse_Program. split.
  - rewrite (token_assert_hit (Lex PROGRAM)). cbn [mbind res_bind].
    rewrite Hd. cbn [mbind res_bind].
    rewrite (token_assert_hit (Lex BEGIN)). cbn [mbind res_bind].
    rewrite parse_StmtSeq_S. reflexivity.
  - rewrite (token_assert_hit (Lex PROGRAM)). cbn [mbind res_bind].
    rewrite parse_DeclSeq_S. reflexivity.
Qed.

Lemma Program_parse_needs_content_witness :
  parse_Program 3 1 (Lex PROGRAM :: no_statement) [new_scope; new_scope]
    = Err BadStartToStatement
  ∧ parse_Program 3 1 [Lex PROGRAM; Lex BEGIN] [new_scope; new_scope]
    = Err (InvalidlyPlaced BEGIN INT).
Proof.
  apply (Program_parse_needs_content 2 [new_scope; new_scope] 1
           [Lex INT; LexId "x"; Lex SEMICOLON; Lex BEGIN; Lex END]
           (DeclSeq_1 (Decl_3 (IdList_1 "x"))) []).
  reflexivity.
Defined.

(** ** The complaints of the checking pass *)

Section SemanticsErrors.
Variable root : loc.
Implicit Types (frames : list (scope_tree bool)).

Ltac use L := eapply L; [..|eassumption]; done.

Ltac err_step H E :=
  match type of H with
  | (?m ≫= _) = Err _ =>
      destruct m as [?frames|?e|] eqn:E; [|injection H as ->|discriminate H];
      cbn [mbind res_bind] in H
  end.

Lemma semantics_Id_error frames node parent scope e :
  forward frames -> parent ≠ Some get ->
  semantics_Id root frames node parent scope = Err e ->
  scope_error e.
Proof.
  intros Hf Hp. unfold semantics_Id.
  destruct (dfs_scope_forward frames root node Hf) as [tree ->]. simpl.
  destruct parent as [[| | | |]|]; try done.
  - destruct (contains frames scope node); simpl; [|done].
    intros [= <-]. exists node. by left.
  - destruct tree; [done|]. intros [= <-]. exists node. by right.
Qed.

Lemma semantics_Expr_error :
  (∀ e frames parent scope err, forward frames -> parent ≠ Some get ->
     semantics_Expr root frames e parent scope = Err err -> scope_error err)
  ∧ (∀ t frames parent scope err, forward frames -> parent ≠ Some get ->
     semantics_Term root frames t parent scope = Err err -> scope_error err)
  ∧ (∀ f frames parent scope err, forward frames -> parent ≠ Some get ->
     semantics_Factor root frames f parent scope = Err err -> scope_error err)
  ∧ (∀ p frames parent scope err, forward frames -> parent ≠ Some get ->
     semantics_ExprParen root frames p parent scope = Err err ->
     scope_error err).
Proof.
  destruct (semantics_Expr_kept root) as (KE & KT & KF & KP).
  apply Expr_mutind; simpl.
  - intros t IHt. exact IHt.
  - intros t IHt op e IHe frames parent scope err Hf Hp H. err_step H E.
    + apply KT in E as [? _]; [|done]. use IHe.
    + use IHt.
  - intros f IHf. exact IHf.
  - intros f IHf op t IHt frames parent scope err Hf Hp H. err_step H E.
    + apply KF in E as [? _]; [|done]. use IHt.
    + use IHf.
  - intros name frames parent scope err Hf Hp H.
    use semantics_Id_error.
  - done.
  - intros p IHp. exact IHp.
  - intros e IHe. exact IHe.
  - intros e IHe p IHp frames parent scope err Hf Hp H. err_step H E.
    + apply KE in E as [? _]; [|done]. use IHp.
    + use IHe.
Qed.

Lemma semantics_Cond_error :
  (∀ c frames parent scope err, forward frames -> parent ≠ Some get ->
     semantics_Cond root frames c parent scope = Err err -> scope_error err)
  ∧ (∀ c frames parent scope err, forward frames -> parent ≠ Some get ->
     semantics_Cmpr root frames c parent scope = Err err -> scope_error err)
  ∧ (∀ p frames parent scope err, forward frames -> parent ≠ Some get ->
     semantics_CondParen root frames p parent scope = Err err ->
     scope_error err).
Proof.
  destruct (semantics_Expr_kept root) as (KE & _).
  destruct (semantics_Cond_kept root) as (KC & KM & KP).
  destruct semantics_Expr_error as (HE & _).
  apply Cond_mutind; simpl.
  - intros p IHp. exact IHp.
  - intros c IHc. exact IHc.
  - intros c IHc op d IHd frames parent scope err Hf Hp H. err_step H E.
    + apply KM in E as [? _]; [|done]. use IHd.
    + use IHc.
  - intros e1 op e2 frames parent scope err Hf Hp H. err_step H E.
    + apply KE in E as [? _]; [|done]. use HE.
    + use HE.
  - intros e1 e2 frames parent scope err Hf Hp H. err_step H E.
    + apply KE in E as [? _]; [|done]. use HE.
    + use HE.
  - intros c IHc. exact IHc.
  - intros c IHc p IHp frames parent scope err Hf Hp H. err_step H E.
    + apply KC in E as [? _]; [|done]. use IHp.
    + use IHc.
Qed.

Lemma semantics_IdList_error l : ∀ frames parent scope err,
  forward frames -> parent ≠ Some get ->
  semantics_IdList root frames l parent scope = Err err -> scope_error err.
Proof.
  induction l as [name|name l IH]; intros frames parent scope err Hf Hp H;
    simpl in H.
  - use semantics_Id_error.
  - err_step H E.
    + apply semantics_Id_kept in E as [? _]; [|done]. use IH.
    + use semantics_Id_error.
Qed.

Lemma semantics_Decl_error d frames parent scope err :
  forward frames ->
  semantics_Decl root frames d parent scope = Err err -> scope_error err.
Proof. destruct d. intros Hf. by apply semantics_IdList_error. Qed.

Lemma semantics_DeclSeq_error ds : ∀ frames parent scope err,
  forward frames ->
  semantics_DeclSeq root frames ds parent scope = Err err -> scope_error err.
Proof.
  induction ds as [d|d ds IH]; intros frames parent scope err Hf H;
    simpl in H.
  - use semantics_Decl_error.
  - err_step H E.
    + apply semantics_Decl_kept in E as [? _]; [|done]. use IH.
    + use semantics_Decl_error.
Qed.

Lemma semantics_Stmt_error :
  (∀ s frames parent scope lo err,
     forward frames -> scope < lo -> slots_Stmt lo (length frames) s ->
     parent ≠ Some get ->
     semantics_Stmt root frames s parent scope = Err err -> scope_error err)
  ∧ (∀ ss frames parent scope lo err,
     forward frames -> scope < lo -> slots_StmtSeq lo (length frames) ss ->
     parent ≠ Some get ->
     semantics_StmtSeq root frames ss parent scope = Err err ->
     scope_error err).
Proof.
  destruct (semantics_Expr_kept root) as (KE & _).
  destruct (semantics_Cond_kept root) as (KC & _).
  destruct (semantics_Stmt_kept root) as (KS & KSS).
  destruct semantics_Expr_error as (HE & _).
  destruct semantics_Cond_error as (HC & _).
  assert (∀ frames scope l, forward frames -> scope < l -> l < length frames ->
            kept frames (set_child frames scope (Some l))) as Hattach.
  { intros. split; [by apply forward_attach|apply grows_set_child]. }
  assert (∀ frames frames' lo ss, kept frames frames' ->
            slots_StmtSeq lo (length frames) ss ->
            slots_StmtSeq lo (length frames') ss) as Hslots.
  { intros frames frames' lo ss [_ [Hlen _]].
    by apply (proj2 slots_weaken ss lo (length frames) lo (length frames')). }
  apply Stmt_mutind; simpl.
  - intros name e frames parent scope lo err Hf Hs _ Hp H. err_step H E.
    + apply semantics_Id_kept in E as [? _]; [|done].
      use HE.
    + use semantics_Id_error.
  - intros name frames parent scope lo err Hf Hs _ Hp H.
    use semantics_Id_error.
  - intros e frames parent scope lo err Hf Hs _ Hp H.
    use HE.
  - intros l c s IH frames parent scope lo err Hf Hs (Hlo & Hhi & Hsl) Hp H.
    pose proof (Hattach frames scope l Hf ltac:(lia) Hhi) as K0.
    err_step H E1; [|exact (HC _ _ _ _ _ (proj1 K0) Hp E1)].
    apply KC in E1 as K1; [|apply K0].
    err_step H E2; [done|].
    eapply (IH _ _ _ (S l)); [..|exact E2];
      [apply K1|lia|eauto using kept_trans|done].
  - intros l c s1 IH1 s2 IH2 frames parent scope lo err Hf Hs
      (Hlo & Hhi & Hsl1 & Hsl2) Hp H.
    pose proof (Hattach frames scope l Hf ltac:(lia) Hhi) as K0.
    err_step H E1; [|exact (HC _ _ _ _ _ (proj1 K0) Hp E1)].
    apply KC in E1 as K1; [|apply K0].
    err_step H E2;
      [|eapply (IH1 _ _ _ (S l)); [..|exact E2];
        [apply K1|lia|eauto using kept_trans|done]].
    apply (KSS _ _ _ _ (S l)) in E2 as K2;
      [|apply K1|lia|eauto using kept_trans].
    err_step H E3; [done|].
    eapply (IH2 _ _ _ (S l)); [..|exact E3];
      [apply K2|lia|eauto 6 using kept_trans|done].
  - intros l c s IH frames parent scope lo err Hf Hs (Hlo & Hhi & Hsl) Hp H.
    pose proof (Hattach frames scope l Hf ltac:(lia) Hhi) as K0.
    err_step H E1; [|exact (HC _ _ _ _ _ (proj1 K0) Hp E1)].
    apply KC in E1 as K1; [|apply K0].
    err_step H E2; [done|].
    eapply (IH _ _ _ (S l)); [..|exact E2];
      [apply K1|lia|eauto using kept_trans|done].
  - intros d frames parent scope lo err Hf Hs _ Hp H.
    use semantics_Decl_error.
  - intros s IH. exact IH.
  - intros s IHs ss IHss frames parent scope lo err Hf Hs [Hsl1 Hsl2] Hp H.
    err_step H E; [|eapply (IHs _ _ _ lo); [..|exact E]; done].
    apply (KS _ _ _ _ lo) in E as K1; [|done..].
    eapply (IHss _ _ _ lo); [..|exact H];
      [apply K1|done|by eapply Hslots|done].
Qed.

Lemma semantics_Program_error frames p err :
  forward frames -> root < program_scope p ->
  program_scope p < length frames ->
  slots_StmtSeq (S (program_scope p)) (length frames) (Program_stmts p) ->
  semantics_Program root frames p = Err err -> scope_error err.
Proof.
  intros Hf Hr Hl Hs. unfold semantics_Program. intros H. err_step H E.
  - apply semantics_DeclSeq_kept in E as [Hf1 [Hlen _]]; [|done].
    eapply (proj2 semantics_Stmt_error _ _ _ _ (S (program_scope p)));
      [| | | |exact H]; [|lia| |done].
    + apply forward_attach; [done..|lia].
    + rewrite length_set_child.
      apply (proj2 slots_weaken _ (S (program_scope p)) (length frames));
        [lia..|done].
  - use semantics_DeclSeq_error.
Qed.
End SemanticsErrors.

(** X5.  On a tree that the parser built, the checking pass ends the run
    only with one of its two scope complaints: a name declared twice in
    one frame, or an assignment target declared nowhere.  No frame
    look-up fails there, [dfs_scope] never meets a cyclic chain, and the
    ['not instantiated'] exit is never taken. *)
Theorem Parser_semantics_errors fuel scanner parser e :
  Parser_parse fuel scanner = Ok parser ->
  Parser_semantics parser = Err e ->
  ∃ x, e = DeclaredTwice x ∨ e = NotDeclared x.
Proof.
  intros Hp H. apply Parser_parse_shape in Hp as (Hr & Hps & Hf & Hlen & Hs).
  unfold Parser_semantics in H.
  destruct (semantics_Program _ _ _) as [fr|e'|] eqn:E; [done| |done].
  injection H as ->. rewrite Hr in E.
  apply semantics_Program_error in E; [done..| | |]; rewrite Hps; [lia..|done].
Qed.

Lemma Parser_semantics_errors_witness :
  ∃ x, NotDeclared "y" = DeclaredTwice x ∨ NotDeclared "y" = NotDeclared x.
Proof.
  apply (Parser_semantics_errors 6 assign_undeclared
           (Parser_ (Program_5 1 (DeclSeq_1 (Decl_3 (IdList_1 "x")))
                       (StmtSeq_1 (Assign "y"
                          (Expr_1 (Term_1 (Factor_Const 1%Z))))))
                    0 [new_scope; new_scope])).
  - reflexivity.
  - vm_compute. reflexivity.
Defined.

(** ** Reading what was stored *)

Section StoreUpdates.
Context {V : Type}.
Implicit Types (h : list (scope_tree V)) (l c : loc) (x : string) (v : V).

Lemma contains_inside h l x : contains h l x = true -> l < length h.
Proof.
  intros H. destruct (decide (l < length h)) as [|Hge]; [done|].
  unfold contains in H. rewrite frame_ge in H by lia. done.
Qed.

Lemma dfs_scope_rec_sound fuel : ∀ h tree var l,
  dfs_scope_rec fuel h tree var = Ok (Some l) -> contains h l var = true.
Proof.
  induction fuel as [|fuel IH]; [done|]. intros h tree var l. simpl.
  destruct (child (frame h tree)) as [c|].
  - destruct (dfs_scope_rec fuel h c var) as [[s|]| |] eqn:E; simpl; try done.
    + destruct (contains h s var) eqn:Hs; [by intros [= <-]|].
      destruct (contains h tree var) eqn:Ht; [by intros [= <-]|done].
    + destruct (contains h tree var) eqn:Ht; [by intros [= <-]|done].
  - simpl. destruct (contains h tree var) eqn:Ht; [by intros [= <-]|done].
Qed.

Lemma lookup_set_item h l x v l' y :
  dict (frame (set_item h l x v) l') !! y =
  if decide (l = l' ∧ l < length h) then
    if decide (x = y) then Some v else dict (frame h l') !! y
  else dict (frame h l') !! y.
Proof.
  unfold set_item. rewrite frame_insert.
  case_decide as H; [destruct H as [-> _]|done]. simpl.
  by rewrite lookup_insert.
Qed.

Lemma contains_set_item_held h l x v l' y :
  contains h l x = true -> contains (set_item h l x v) l' y = contains h l' y.
Proof.
  unfold contains. intros Hx. rewrite lookup_set_item.
  case_decide as H; [destruct H as [-> _]|done].
  case_decide as Hxy; [subst y|done].
  rewrite Hx. apply bool_decide_eq_true. eauto.
Qed.

Lemma contains_set_item_other h l x v l' y :
  l ≠ l' -> contains (set_item h l x v) l' y = contains h l' y.
Proof.
  unfold contains. intros Hl. rewrite lookup_set_item.
  by rewrite decide_False by (intros [? _]; done).
Qed.

Lemma dfs_scope_rec_set_item_held fuel : ∀ h l x v tree var,
  contains h l x = true ->
  dfs_scope_rec fuel (set_item h l x v) tree var
  = dfs_scope_rec fuel h tree var.
Proof.
  induction fuel as [|fuel IH]; [done|]. intros h l x v tree var Hx. simpl.
  rewrite child_set_item.
  destruct (child (frame h tree)) as [c|].
  - rewrite IH by done.
    destruct (dfs_scope_rec fuel h c var) as [[s|]| |]; simpl; try done;
      by rewrite !contains_set_item_held by done.
  - simpl. by rewrite !contains_set_item_held by done.
Qed.

Lemma dfs_scope_set_item_held h l x v tree var :
  contains h l x = true ->
  dfs_scope (set_item h l x v) tree var = dfs_scope h tree var.
Proof.
  intros. unfold dfs_scope. rewrite length_set_item.
  by apply dfs_scope_rec_set_item_held.
Qed.

Lemma chain_set_item h l x v tree ls :
  chain h tree ls -> chain (set_item h l x v) tree ls.
Proof.
  induction 1 as [t Hn|t c ls Hc _ IH].
  - apply chain_leaf. by rewrite child_set_item.
  - apply chain_link with c; [by rewrite child_set_item|done].
Qed.
End StoreUpdates.

Section ReadWrite.
Variable root : loc.
Implicit Types (frames : list (scope_tree (option value))) (st : Run).

Lemma execute_Id_assign_Ok frames x var t :
  execute_Id_assign root frames x = Ok (var, t) ->
  var = x ∧ dfs_scope frames root x = Ok (Some t)
  ∧ contains frames t x = true.
Proof.
  unfold execute_Id_assign.
  destruct (dfs_scope frames root x) as [[t'|]| |] eqn:E; simpl; try done.
  intros [= <- <-]. split; [done|]. split; [done|].
  by eapply dfs_scope_rec_sound.
Qed.

Lemma execute_Assign_Ok st x e st' :
  execute_Assign root st x e = Ok st' ->
  ∃ t v, dfs_scope (run_frames st) root x = Ok (Some t)
    ∧ contains (run_frames st) t x = true
    ∧ execute_Expr root (run_frames st) e = Ok v
    ∧ st' = Run_ (set_item (run_frames st) t x (Some v)) (data st) (printed st).
Proof.
  unfold execute_Assign.
  destruct (execute_Id_assign root (run_frames st) x) as [[var t]| |] eqn:E;
    [|done..]. simpl.
  apply execute_Id_assign_Ok in E as (-> & Hd & Hc).
  destruct (execute_Expr root (run_frames st) e) as [v| |]; [|done..]. simpl.
  intros [= <-]. by exists t, v.
Qed.

Lemma execute_Input_Ok st x st' :
  execute_Input root st x = Ok st' ->
  ∃ t v, dfs_scope (run_frames st) root x = Ok (Some t)
    ∧ contains (run_frames st) t x = true
    ∧ data st = v :: data st'
    ∧ st' = Run_ (set_item (run_frames st) t x (Some v)) (data st')
                 (printed st).
Proof.
  unfold execute_Input.
  destruct (execute_Id_assign root (run_frames st) x) as [[var t]| |] eqn:E;
    [|done..]. simpl.
  apply execute_Id_assign_Ok in E as (-> & Hd & Hc).
  destruct (data st) as [|v rest]; [done|].
  intros [= <-]. by exists t, v.
Qed.

(** Reading after a store into a frame that holds the name. *)
Lemma execute_Id_get_stored frames t x v :
  dfs_scope frames root x = Ok (Some t) ->
  contains frames t x = true ->
  execute_Id_get root (set_item frames t x (Some v)) x = Ok v
  ∧ ∀ y, y ≠ x ->
      execute_Id_get root (set_item frames t x (Some v)) y
      = execute_Id_get root frames y.
Proof.
  intros Hd Hc. pose proof (contains_inside _ _ _ Hc) as Hl.
  unfold execute_Id_get. split.
  - rewrite dfs_scope_set_item_held, Hd by done. simpl.
    rewrite lookup_set_item. by rewrite !decide_True by done.
  - intros y Hy. rewrite dfs_scope_set_item_held by done.
    destruct (dfs_scope frames root y) as [[t'|]| |]; simpl; try done.
    rewrite lookup_set_item. case_decide; [|done].
    by rewrite decide_False by done.
Qed.
End ReadWrite.

(** X6.  After [x = e;] a read of [x] yields the value [e] had before the
    assignment, and every other name reads as before; the input queue and
    the output are untouched. *)
Theorem Assign_then_read root st x e st' :
  execute_Assign root st x e = Ok st' ->
  ∃ v, execute_Expr root (run_frames st) e = Ok v
    ∧ execute_Id_get root (run_frames st') x = Ok v
    ∧ (∀ y, y ≠ x -> execute_Id_get root (run_frames st') y
                     = execute_Id_get root (run_frames st) y)
    ∧ data st' = data st ∧ printed st' = printed st.
Proof.
  intros H. apply execute_Assign_Ok in H as (t & v & Hd & Hc & He & ->).
  exists v. simpl. destruct (execute_Id_get_stored root _ t x v Hd Hc).
  done.
Qed.

Lemma Assign_then_read_witness :
  ∃ v, execute_Expr 0 declared_store (Expr_1 (Term_1 (Factor_Const 5)))
       = Ok v
    ∧ execute_Id_get 0 (set_item declared_store 0 "x" (Some (VInt 5))) "x"
      = Ok v.
Proof.
  destruct (Assign_then_read 0 (Run_ declared_store [] []) "x"
              (Expr_1 (Term_1 (Factor_Const 5)))
              (Run_ (set_item declared_store 0 "x" (Some (VInt 5))) [] []))
    as (v & He & Hx & _).
  - reflexivity.
  - exists v. split; [exact He|exact Hx].
Defined.

(** X7.  [input x;] takes the first entry of the queue: the queue loses
    exactly its head, a read of [x] yields that entry, and every other
    name reads as before. *)
Theorem Input_then_read root st x st' :
  execute_Input root st x = Ok st' ->
  ∃ v, data st = v :: data st'
    ∧ execute_Id_get root (run_frames st') x = Ok v
    ∧ (∀ y, y ≠ x -> execute_Id_get root (run_frames st') y
                     = execute_Id_get root (run_frames st) y)
    ∧ printed st' = printed st.
Proof.
  intros H. apply execute_Input_Ok in H as (t & v & Hd & Hc & He & ->).
  exists v. simpl. destruct (execute_Id_get_stored root _ t x v Hd Hc).
  done.
Qed.

Lemma Input_then_read_witness :
  ∃ v, [VStr "4"; VStr "5"] = v :: [VStr "5"]
    ∧ execute_Id_get 0 (set_item declared_store 0 "x" (Some (VStr "4"))) "x"
      = Ok v.
Proof.
  destruct (Input_then_read 0 (Run_ declared_store [VStr "4"; VStr "5"] [])
              "x"
              (Run_ (set_item declared_store 0 "x" (Some (VStr "4")))
                    [VStr "5"] []))
    as (v & Hq & Hx & _).
  - reflexivity.
  - exists v. split; [exact Hq|exact Hx].
Defined.

(** X8.  A declaration hides what the frames above hold: once [x] is
    declared in a frame of the scope chain and no deeper frame of the
    chain has an [x], a read of [x] ends the run as not instantiated,
    whatever value an outer [x] has. *)
Theorem Id_declare_hides root frames x local frames' pre post :
  execute_Id_declare root frames x local = Ok frames' ->
  chain frames root (pre ++ local :: post) ->
  Forall (λ l, contains frames l x = false) post ->
  local < length frames ->
  execute_Id_get root frames' x = Err (NotInstantiated x true).
Proof.
  intros H Hch Hpost Hl.
  apply execute_Id_declare_Ok in H as ->.
  pose proof (chain_NoDup _ _ _ Hch) as Hnd.
  apply (chain_set_item _ local x None) in Hch.
  unfold execute_Id_get, dfs_scope.
  rewrite (dfs_scope_rec_chain _ _ _ x Hch) by (by eapply chain_length).
  assert (filter (λ l, contains (set_item frames local x None) l x = true) post
          = []) as Hnone.
  { apply NoDup_app in Hnd as (_ & _ & Hnd). apply NoDup_cons in Hnd as [Hni _].
    clear Hch. induction Hpost as [|l post Hc _ IH]; [done|].
    rewrite filter_cons, decide_False.
    - apply IH. set_solver.
    - rewrite contains_set_item_other by set_solver. by rewrite Hc. }
  rewrite filter_app, filter_cons, decide_True
    by (by apply contains_set_item_same).
  rewrite Hnone, last_snoc. simpl.
  rewrite lookup_set_item. by rewrite !decide_True by done.
Qed.

Lemma Id_declare_hides_witness :
  execute_Id_get 0 shadow_store "x" = Ok (VInt 7)
  ∧ execute_Id_get 0 (set_item shadow_store 1 "x" None) "x"
    = Err (NotInstantiated "x" true).
Proof.
  split; [reflexivity|].
  apply (Id_declare_hides 0 shadow_store "x" 1 _ [0] []).
  - reflexivity.
  - apply chain_link with 1; [reflexivity|]. apply chain_leaf. reflexivity.
  - apply Forall_nil_2.
  - simpl. lia.
Defined.

(** ** The executor never fails in its own bookkeeping *)

Lemma sound_bind {A B} (m : res A) (k : A -> res B) :
  sound m -> (∀ a, m = Ok a -> sound (k a)) -> sound (m ≫= k).
Proof.
  intros [H1 H2] Hk. destruct m as [a|e|]; cbn [mbind res_bind].
  - by apply Hk.
  - split; intros [= ->]; [by apply H1|by apply H2].
  - by split.
Qed.

Lemma sound_Ok {A} (a : A) : sound (Ok a).
Proof. by split. Qed.

Section Sound.
Variable root : loc.
Implicit Types (frames : list (scope_tree (option value))) (st : Run).

Lemma dfs_scope_sound frames tree x :
  forward frames -> sound (dfs_scope frames tree x).
Proof. intros Hf. destruct (dfs_scope_forward frames tree x Hf) as [r ->].
  apply sound_Ok. Qed.

Lemma execute_Id_get_sound frames x :
  forward frames -> sound (execute_Id_get root frames x).
Proof.
  intros Hf. unfold execute_Id_get.
  destruct (dfs_scope_forward frames root x Hf) as [r Hr]. rewrite Hr. simpl.
  destruct r as [t|]; [|by split].
  apply dfs_scope_rec_sound in Hr. unfold contains in Hr.
  apply bool_decide_eq_true in Hr as [[v|] ->]; by split.
Qed.

Lemma py_add_sound a b : sound (py_add a b).
Proof. destruct a, b; by split. Qed.

Lemma py_sub_sound a b : sound (py_sub a b).
Proof. destruct a, b; by split. Qed.

Lemma py_mul_sound a b : sound (py_mul a b).
Proof. destruct a, b; by split. Qed.

Lemma py_lt_sound a b : sound (py_lt a b).
Proof. destruct a, b; by split. Qed.

Lemma py_le_sound a b : sound (py_le a b).
Proof. destruct a, b; by split. Qed.

Local Hint Resolve sound_Ok py_add_sound py_sub_sound py_mul_sound
  py_lt_sound py_le_sound execute_Id_get_sound : core.

Lemma execute_Expr_sound frames : forward frames ->
  (∀ e, sound (execute_Expr root frames e))
  ∧ (∀ t, sound (execute_Term root frames t))
  ∧ (∀ f, sound (execute_Factor root frames f))
  ∧ (∀ p, sound (execute_ExprParen root frames p)).
Proof.
  intros Hf. apply Expr_mutind; simpl; auto.
  - intros t IHt op e IHe. apply sound_bind; [done|]. intros val _.
    repeat case_decide; auto; apply sound_bind; auto.
  - intros f IHf op t IHt. apply sound_bind; [done|]. intros val _.
    repeat case_decide; auto; apply sound_bind; auto.
Qed.

Lemma execute_Cmpr_sound frames c :
  forward frames -> sound (execute_Cmpr root frames c).
Proof.
  intros Hf. destruct (execute_Expr_sound frames Hf) as (HE & _).
  destruct c as [e1 op e2|e1 e2]; simpl; apply sound_bind; auto.
  - intros val _. repeat case_decide; apply sound_bind; auto.
  - intros val _. by split.
Qed.

Lemma execute_Cond_sound frames : forward frames ->
  (∀ c, sound (execute_Cond root frames c))
  ∧ (∀ c, sound (execute_Cmpr root frames c))
  ∧ (∀ p, sound (execute_CondParen root frames p)).
Proof.
  intros Hf. apply Cond_mutind; simpl; auto using execute_Cmpr_sound.
  - intros p IHp. apply sound_bind; auto.
  - intros c IHc op d IHd. apply sound_bind; [done|]. intros val _.
    case_decide; auto. apply sound_bind; auto.
  - intros e1 op e2. apply (execute_Cmpr_sound frames (Cmpr_3 e1 op e2) Hf).
  - intros e1 e2. apply (execute_Cmpr_sound frames (Cmpr_2 e1 e2) Hf).
Qed.

Lemma execute_Id_declare_sound frames x local :
  forward frames -> sound (execute_Id_declare root frames x local).
Proof.
  intros Hf. unfold execute_Id_declare.
  apply sound_bind; [by apply dfs_scope_sound|]. intros _ _.
  destruct (contains frames local x); by split.
Qed.

Lemma execute_IdList_sound l : ∀ frames local,
  forward frames -> sound (execute_IdList root frames l local).
Proof.
  induction l as [x|x l IH]; intros frames local Hf; simpl.
  - by apply execute_Id_declare_sound.
  - apply sound_bind; [by apply execute_Id_declare_sound|].
    intros frames1 H1. apply IH.
    apply execute_Id_declare_Ok in H1 as ->. by apply forward_set_item.
Qed.

Lemma execute_Decl_sound d frames local :
  forward frames -> sound (execute_Decl root frames d local).
Proof. destruct d. apply execute_IdList_sound. Qed.

Lemma execute_DeclSeq_sound ds : ∀ frames local,
  forward frames -> sound (execute_DeclSeq root frames ds local).
Proof.
  induction ds as [d|d ds IH]; intros frames local Hf; simpl.
  - by apply execute_Decl_sound.
  - apply sound_bind; [by apply execute_Decl_sound|].
    intros frames1 H1. apply IH. by apply execute_Decl_inv in H1 as [? _].
Qed.

Lemma execute_DeclSeq_inv ds : ∀ frames local frames',
  forward frames ->
  execute_DeclSeq root frames ds local = Ok frames' ->
  forward frames' ∧ grows frames frames'.
Proof.
  induction ds as [d|d ds IH]; intros frames local frames' Hf H; simpl in H.
  - by eapply execute_Decl_inv.
  - destruct (execute_Decl root frames d local) as [frames1| |] eqn:E;
      [|done..]. simpl in H.
    apply execute_Decl_inv in E as [Hf1 Hg1]; [|done].
    apply IH in H as [? ?]; [|done]. split; [done|]. by eapply grows_trans.
Qed.

Lemma execute_Assign_sound st x e :
  forward (run_frames st) -> sound (execute_Assign root st x e).
Proof.
  intros Hf. destruct (execute_Expr_sound (run_frames st) Hf) as (HE & _).
  unfold execute_Assign, execute_Id_assign.
  apply sound_bind.
  - apply sound_bind; [by apply dfs_scope_sound|].
    intros [t|] _; by split.
  - intros [var t] _. apply sound_bind; auto.
Qed.

Lemma execute_Input_sound st x :
  forward (run_frames st) -> sound (execute_Input root st x).
Proof.
  intros Hf. unfold execute_Input, execute_Id_assign.
  apply sound_bind.
  - apply sound_bind; [by apply dfs_scope_sound|].
    intros [t|] _; by split.
  - intros [var t] _. destruct (data st); by split.
Qed.

Lemma execute_Output_sound st e :
  forward (run_frames st) -> sound (execute_Output root st e).
Proof.
  intros Hf. destruct (execute_Expr_sound (run_frames st) Hf) as (HE & _).
  unfold execute_Output. apply sound_bind; auto.
Qed.

Lemma execute_Stmt_sound fuel :
  (∀ st s local,
     forward (run_frames st) -> local < length (run_frames st) ->
     sound (execute_Stmt root fuel st s local))
  ∧ (∀ st ss local,
     forward (run_frames st) -> local < length (run_frames st) ->
     sound (execute_StmtSeq root fuel st ss local))
  ∧ (∀ st c ss local,
     forward (run_frames st) -> local < length (run_frames st) ->
     sound (execute_loop root fuel st c ss local)).
Proof.
  induction fuel as [|fuel (IHs & IHss & IHl)]; [by repeat split|].
  destruct (execute_Stmt_inv root fuel) as (Ks & Kss & Kl).
  split; [|split].
  - intros st s local Hf Hl. rewrite execute_Stmt_S.
    destruct s as [name e|name|e|l c s|l c s1 s2|l c s|d].
    + by apply execute_Assign_sound.
    + by apply execute_Input_sound.
    + by apply execute_Output_sound.
    + destruct (enter_inv st local Hf Hl) as (Hf1 & Hg1 & Hl1).
      destruct (enter st local) as [self st1]; cbn [fst snd] in *.
      apply sound_bind; [by apply execute_Cond_sound|]. intros truth _.
      apply sound_bind; [|by intros; apply sound_Ok].
      destruct truth; [by apply IHss|apply sound_Ok].
    + destruct (enter_inv st local Hf Hl) as (Hf1 & Hg1 & Hl1).
      destruct (enter st local) as [self st1]; cbn [fst snd] in *.
      apply sound_bind; [by apply execute_Cond_sound|]. intros truth _.
      apply sound_bind; [|by intros; apply sound_Ok].
      destruct truth; by apply IHss.
    + destruct (enter_inv st local Hf Hl) as (Hf1 & Hg1 & Hl1).
      destruct (enter st local) as [self st1]; cbn [fst snd] in *.
      apply sound_bind; [|by intros; apply sound_Ok].
      apply IHl; [done|]. destruct Hg1; lia.
    + apply sound_bind; [by apply execute_Decl_sound|].
      intros; apply sound_Ok.
  - intros st ss local Hf Hl. rewrite execute_StmtSeq_S.
    destruct ss as [s|s ss]; [by apply IHs|].
    apply sound_bind; [by apply IHs|]. intros st1 H1.
    apply Ks in H1 as [Hf1 [Hlen1 _]]; [|done..]. apply IHss; [done|lia].
  - intros st c ss local Hf Hl. rewrite execute_loop_S.
    apply sound_bind; [by apply execute_Cond_sound|]. intros [] _;
      [|apply sound_Ok].
    apply sound_bind; [by apply IHss|]. intros st1 H1.
    apply Kss in H1 as [Hf1 [Hlen1 _]]; [|done..]. apply IHl; [done|lia].
Qed.

Lemma execute_Program_sound fuel st p :
  forward (run_frames st) -> root < length (run_frames st) ->
  sound (execute_Program root fuel st p).
Proof.
  intros Hf Hr. unfold execute_Program.
  pose proof (forward_alloc _ Hf) as Hf0.
  pose proof (length_alloc (run_frames st)) as Hlen0.
  unfold alloc in *. cbn [fst snd] in *.
  apply sound_bind; [by apply execute_DeclSeq_sound|].
  intros frames1 H1.
  apply execute_DeclSeq_inv in H1 as [Hf1 [Hlen1 _]]; [|done].
  apply execute_Stmt_sound; simpl.
  - apply forward_attach; [done|lia..].
  - rewrite length_set_child. lia.
Qed.
End Sound.

(** X9.  Whatever the tree and the data, the executor never fails in its
    own bookkeeping: the frame [dfs_scope] returns always holds the name,
    so no look-up [tree.dict[node]] raises [KeyError], and the chain of
    frames [dfs_scope] walks is never cyclic, so its recursion ends. *)
Theorem execute_tree_sound fuel tree text :
  execute_tree fuel tree text ≠ Err PyKeyError
  ∧ execute_tree fuel tree text ≠ Err PyRecursionError.
Proof.
  unfold execute_tree. apply sound_bind.
  - unfold clean_data. case_match; by split.
  - intros data _. cbn [alloc app length].
    apply execute_Program_sound; simpl; [|lia].
    apply (forward_alloc []), forward_nil.
Qed.

(** ** What every statement respects *)

Section StatementInvariant.
Variable root : loc.
Variable R : Run -> Run -> Prop.
Hypothesis R_refl : ∀ st, R st st.
Hypothesis R_trans : ∀ st1 st2 st3, R st1 st2 -> R st2 st3 -> R st1 st3.
Hypothesis R_Assign : ∀ st x e st',
  execute_Assign root st x e = Ok st' -> R st st'.
Hypothesis R_Input : ∀ st x st', execute_Input root st x = Ok st' -> R st st'.
Hypothesis R_Output : ∀ st e st',
  execute_Output root st e = Ok st' -> R st st'.
Hypothesis R_Decl : ∀ st d local frames,
  execute_Decl root (run_frames st) d local = Ok frames ->
  R st (Run_ frames (data st) (printed st)).
Hypothesis R_enter : ∀ st local, R st (enter st local).2.
Hypothesis R_leave : ∀ st local, R st (leave st local).

(** A relation that every elementary step of the executor respects is
    respected by every statement. *)
Lemma execute_Stmt_invariant fuel :
  (∀ st s local st', execute_Stmt root fuel st s local = Ok st' -> R st st')
  ∧ (∀ st ss local st',
       execute_StmtSeq root fuel st ss local = Ok st' -> R st st')
  ∧ (∀ st c ss local st',
       execute_loop root fuel st c ss local = Ok st' -> R st st').
Proof.
  induction fuel as [|fuel (IHs & IHss & IHl)]; [by repeat split|].
  split; [|split].
  - intros st s local st' H. rewrite execute_Stmt_S in H.
    destruct s as [name e|name|e|l c s|l c s1 s2|l c s|d]; eauto.
    + pose proof (R_enter st local) as H1.
      destruct (enter st local) as [self st1]; cbn [fst snd] in *.
      destruct (execute_Cond root (run_frames st1) c) as [[]| |]; simpl in H;
        try done.
      * destruct (execute_StmtSeq root fuel st1 s self) as [st2| |] eqn:E;
          simpl in H; try done. injection H as <-. eauto.
      * injection H as <-. eauto.
    + pose proof (R_enter st local) as H1.
      destruct (enter st local) as [self st1]; cbn [fst snd] in *.
      destruct (execute_Cond root (run_frames st1) c) as [[]| |]; simpl in H;
        try done.
      * destruct (execute_StmtSeq root fuel st1 s1 self) as [st2| |] eqn:E;
          simpl in H; try done. injection H as <-. eauto.
      * destruct (execute_StmtSeq root fuel st1 s2 self) as [st2| |] eqn:E;
          simpl in H; try done. injection H as <-. eauto.
    + pose proof (R_enter st local) as H1.
      destruct (enter st local) as [self st1]; cbn [fst snd] in *.
      destruct (execute_loop root fuel st1 c s local) as [st2| |] eqn:E;
        simpl in H; try done. injection H as <-. eauto.
    + destruct (execute_Decl root (run_frames st) d local) as [fr| |] eqn:E;
        simpl in H; try done. injection H as <-. eauto.
  - intros st ss local st' H. rewrite execute_StmtSeq_S in H.
    destruct ss as [s|s ss]; [eauto|].
    destruct (execute_Stmt root fuel st s local) as [st1| |] eqn:E;
      simpl in H; try done. eauto.
  - intros st c ss local st' H. rewrite execute_loop_S in H.
    destruct (execute_Cond root (run_frames st) c) as [[]| |]; simpl in H;
      try done.
    + destruct (execute_StmtSeq root fuel st ss local) as [st1| |] eqn:E;
        simpl in H; try done. eauto.
    + injection H as <-. eauto.
Qed.
End StatementInvariant.

Lemma execute_Id_declare_fresh root frames x local frames' :
  execute_Id_declare root frames x local = Ok frames' ->
  contains frames local x = false ∧ frames' = set_item frames local x None.
Proof.
  unfold execute_Id_declare. destruct (dfs_scope frames root x); [|done..].
  simpl. destruct (contains frames local x); simpl; [done|].
  by intros [= <-].
Qed.

Lemma streams_StmtSeq root fuel st ss local st' :
  execute_StmtSeq root fuel st ss local = Ok st' -> streams st st'.
Proof.
  apply (execute_Stmt_invariant root streams); clear; unfold streams.
  - done.
  - intros st1 st2 st3 [? ?] [? ?]. split; by etrans.
  - intros st x e st' H.
    by apply execute_Assign_Ok in H as (t & v & _ & _ & _ & ->).
  - intros st x st' H.
    apply execute_Input_Ok in H as (t & v & _ & _ & Hq & ->). simpl.
    split; [done|]. rewrite Hq. by apply suffix_cons_r.
  - intros st e st'. unfold execute_Output.
    destruct (execute_Expr root (run_frames st) e); [|done..]. simpl.
    intros [= <-]. simpl. split; [by apply prefix_app_r|done].
  - done.
  - done.
  - done.
Qed.

Lemma stays_assigned_set_item frames data printed t x v data' printed' :
  stays_assigned (Run_ frames data printed)
    (Run_ (set_item frames t x (Some v)) data' printed').
Proof.
  intros l y w Hw. simpl in *. rewrite lookup_set_item.
  repeat case_decide; eauto.
Qed.

Lemma stays_assigned_IdList root l : ∀ frames local frames' data printed,
  execute_IdList root frames l local = Ok frames' ->
  stays_assigned (Run_ frames data printed) (Run_ frames' data printed).
Proof.
  assert (∀ frames x local frames' data printed,
    execute_Id_declare root frames x local = Ok frames' ->
    stays_assigned (Run_ frames data printed) (Run_ frames' data printed))
    as Hone.
  { intros frames x local frames' data printed H.
    apply execute_Id_declare_fresh in H as [Hc ->].
    intros t y w Hw. simpl in *. rewrite lookup_set_item.
    case_decide as Ht; [|eauto]. destruct Ht as [<- _].
    case_decide as Hy; [|eauto]. subst y.
    unfold contains in Hc. rewrite Hw in Hc.
    apply bool_decide_eq_false in Hc. destruct Hc. eauto. }
  induction l as [x|x l IH]; intros frames local frames' data printed H;
    simpl in H; [by eapply Hone|].
  destruct (execute_Id_declare root frames x local) as [frames1| |] eqn:E;
    [|done..]. simpl in H.
  intros t y w Hw.
  destruct (Hone _ _ _ _ data printed E t y w Hw) as [w1 Hw1].
  exact (IH _ _ _ data printed H t y w1 Hw1).
Qed.

Lemma stays_assigned_StmtSeq root fuel st ss local st' :
  execute_StmtSeq root fuel st ss local = Ok st' -> stays_assigned st st'.
Proof.
  apply (execute_Stmt_invariant root stays_assigned); clear.
  - intros st l x v. eauto.
  - intros st1 st2 st3 H12 H23 l x v Hv.
    destruct (H12 l x v Hv) as [v' Hv']. eauto.
  - intros [fr d p] x e st' H.
    apply execute_Assign_Ok in H as (t & v & _ & _ & _ & ->).
    apply stays_assigned_set_item.
  - intros [fr d p] x st' H.
    apply execute_Input_Ok in H as (t & v & _ & _ & _ & ->).
    apply stays_assigned_set_item.
  - intros st e st'. unfold execute_Output.
    destruct (execute_Expr root (run_frames st) e); [|done..]. simpl.
    intros [= <-] l x v. simpl. eauto.
  - intros [fr dt p] [l] local frames H. simpl in *.
    by eapply stays_assigned_IdList.
  - intros st local l x v. unfold enter. simpl.
    unfold set_child. rewrite frame_insert.
    case_decide as H; [destruct H as [<- _]|]; simpl;
      rewrite (frame_alloc (run_frames st)); eauto.
  - intros st local l x v. unfold leave, set_child. simpl.
    rewrite frame_insert.
    case_decide as H; [destruct H as [<- _]|]; simpl; eauto.
Qed.

(** X10.  A statement sequence only appends to the output and only takes
    entries from the front of the input queue: what was printed stays
    printed, and the queue left is a suffix of the queue it started
    with. *)
Theorem StmtSeq_streams root fuel st ss local st' :
  execute_StmtSeq root fuel st ss local = Ok st' ->
  printed st `prefix_of` printed st' ∧ data st' `suffix_of` data st.
Proof. apply streams_StmtSeq. Qed.

Lemma StmtSeq_streams_witness :
  [VInt 0] `prefix_of` [VInt 0; VStr "4"]
  ∧ [VStr "5"] `suffix_of` [VStr "4"; VStr "5"].
Proof.
  apply (StmtSeq_streams 0 3
           (Run_ declared_store [VStr "4"; VStr "5"] [VInt 0]) echo 0
           (Run_ (set_item declared_store 0 "x" (Some (VStr "4")))
                 [VStr "5"] [VInt 0; VStr "4"])).
  reflexivity.
Defined.

(** X11.  No statement takes a value away: a name that holds a value in
    some frame before a statement sequence runs holds a value in that
    frame afterwards.  Only a first declaration stores [None], and only
    where the name is absent. *)
Theorem StmtSeq_stays_assigned root fuel st ss local st' l x v :
  execute_StmtSeq root fuel st ss local = Ok st' ->
  dict (frame (run_frames st) l) !! x = Some (Some v) ->
  ∃ v', dict (frame (run_frames st') l) !! x = Some (Some v').
Proof. intros H. by apply (stays_assigned_StmtSeq root fuel st ss local). Qed.

Lemma StmtSeq_stays_assigned_witness :
  ∃ v', dict (frame (set_item shadow_store 0 "x" (Some (VStr "4"))) 0) !! "x"
        = Some (Some v').
Proof.
  apply (StmtSeq_stays_assigned 0 3 (Run_ shadow_store [VStr "4"] []) echo 1
           (Run_ (set_item shadow_store 0 "x" (Some (VStr "4"))) []
                 [VStr "4"]) 0 "x" (VInt 7)).
  - reflexivity.
  - reflexivity.
Defined.

(** ** Where statements declare *)

Section Names.
Variable root : loc.
Implicit Types (frames : list (scope_tree (option value))) (st : Run).

Lemma names_outside_trans local st1 st2 st3 :
  names_outside local st1 st2 -> names_outside local st2 st3 ->
  names_outside local st1 st3.
Proof.
  intros [Hl1 H1] [Hl2 H2]. split; [lia|]. intros l x Hl Hne.
  rewrite H2 by (done || lia). by apply H1.
Qed.

Lemma execute_IdList_names l : ∀ frames local frames',
  execute_IdList root frames l local = Ok frames' ->
  length frames' = length frames
  ∧ ∀ t x, t ≠ local -> contains frames' t x = contains frames t x.
Proof.
  induction l as [y|y l IH]; intros frames local frames' H; simpl in H.
  - apply execute_Id_declare_Ok in H as ->.
    split; [apply length_set_item|]. intros t x Ht.
    by apply contains_set_item_other.
  - destruct (execute_Id_declare root frames y local) as [frames1| |] eqn:E;
      [|done..]. simpl in H.
    apply execute_Id_declare_Ok in E as ->.
    apply IH in H as [Hlen H]. rewrite length_set_item in Hlen.
    split; [done|]. intros t x Ht. rewrite H by done.
    by apply contains_set_item_other.
Qed.

(** The frame of a block and the frames attached below it: what [enter]
    leaves, and what the body of the block does to the frames that were
    there before. *)
Lemma enter_names st local :
  (enter st local).1 = length (run_frames st)
  ∧ length (run_frames (enter st local).2) = S (length (run_frames st))
  ∧ ∀ l x, contains (run_frames (enter st local).2) l x
           = contains (run_frames st) l x.
Proof.
  unfold enter. simpl. split; [done|]. split.
  - rewrite length_set_child. apply (length_alloc (run_frames st)).
  - intros l x. rewrite contains_set_child.
    apply (contains_alloc (run_frames st)).
Qed.

Lemma execute_Stmt_names fuel :
  (∀ st s local st',
     execute_Stmt root fuel st s local = Ok st' -> names_outside local st st')
  ∧ (∀ st ss local st',
     execute_StmtSeq root fuel st ss local = Ok st' ->
     names_outside local st st')
  ∧ (∀ st c ss local st',
     execute_loop root fuel st c ss local = Ok st' ->
     names_outside local st st').
Proof.
  induction fuel as [|fuel (IHs & IHss & IHl)]; [by repeat split|].
  assert (∀ st local self st1 st2,
            enter st local = (self, st1) -> names_outside self st1 st2 ->
            ∀ l x, l < length (run_frames st) ->
              contains (run_frames (leave st2 local)) l x
              = contains (run_frames st) l x) as Hblock.
  { intros st local self st1 st2 He [Hlen H] l x Hl.
    destruct (enter_names st local) as (Hs & Hlen1 & Hc1).
    rewrite He in Hs, Hlen1, Hc1. cbn [fst snd] in *.
    unfold leave. simpl. rewrite contains_set_child.
    rewrite H by lia. apply Hc1. }
  assert (∀ st local self st1 st2,
            enter st local = (self, st1) -> names_outside self st1 st2 ->
            names_outside local st (leave st2 local)) as Hif.
  { intros st local self st1 st2 He Hn. split.
    - destruct Hn as [Hlen _]. destruct (enter_names st local) as (_ & Hl1 & _).
      rewrite He in Hl1. cbn [snd] in Hl1. unfold leave. simpl.
      rewrite length_set_child. lia.
    - intros l x Hl _. by eapply Hblock. }
  assert (∀ st local self st1 st2,
            enter st local = (self, st1) -> names_outside local st1 st2 ->
            names_outside local st (leave st2 local)) as Hwhile.
  { intros st local self st1 st2 He [Hlen H].
    destruct (enter_names st local) as (Hs & Hlen1 & Hc1).
    rewrite He in Hs, Hlen1, Hc1. cbn [fst snd] in *. split.
    - unfold leave. simpl. rewrite length_set_child. lia.
    - intros l x Hl Hne. unfold leave. simpl. rewrite contains_set_child.
      rewrite H by (done || lia). apply Hc1. }
  assert (∀ st, names_outside (length (run_frames st)) st st) as Hrefl.
  { intros st. by split. }
  split; [|split].
  - intros st s local st' H. rewrite execute_Stmt_S in H.
    destruct s as [name e|name|e|l c s|l c s1 s2|l c s|d].
    + apply execute_Assign_Ok in H as (t & v & _ & Hc & _ & ->). split; simpl.
      * by rewrite length_set_item.
      * intros. by apply contains_set_item_held.
    + apply execute_Input_Ok in H as (t & v & _ & Hc & _ & ->). split; simpl.
      * by rewrite length_set_item.
      * intros. by apply contains_set_item_held.
    + unfold execute_Output in H.
      destruct (execute_Expr root (run_frames st) e); [|done..].
      injection H as <-. by split.
    + destruct (enter st local) as [self st1] eqn:He.
      destruct (execute_Cond root (run_frames st1) c) as [[]| |]; simpl in H;
        try done.
      * destruct (execute_StmtSeq root fuel st1 s self) as [st2| |] eqn:E;
          simpl in H; try done. injection H as <-. eauto.
      * injection H as <-. apply (Hif st local self st1 st1 He).
        split; [done|]. done.
    + destruct (enter st local) as [self st1] eqn:He.
      destruct (execute_Cond root (run_frames st1) c) as [[]| |]; simpl in H;
        try done.
      * destruct (execute_StmtSeq root fuel st1 s1 self) as [st2| |] eqn:E;
          simpl in H; try done. injection H as <-. eauto.
      * destruct (execute_StmtSeq root fuel st1 s2 self) as [st2| |] eqn:E;
          simpl in H; try done. injection H as <-. eauto.
    + destruct (enter st local) as [self st1] eqn:He.
      destruct (execute_loop root fuel st1 c s local) as [st2| |] eqn:E;
        simpl in H; try done. injection H as <-. eauto.
    + destruct d as [l].
      destruct (execute_Decl root (run_frames st) (Decl_3 l) local)
        as [fr| |] eqn:E; simpl in H; try done. injection H as <-.
      apply execute_IdList_names in E as [Hlen Hc]. split; simpl; [lia|].
      intros t x _ Ht. by apply Hc.
  - intros st ss local st' H. rewrite execute_StmtSeq_S in H.
    destruct ss as [s|s ss]; [eauto|].
    destruct (execute_Stmt root fuel st s local) as [st1| |] eqn:E;
      simpl in H; try done. eauto using names_outside_trans.
  - intros st c ss local st' H. rewrite execute_loop_S in H.
    destruct (execute_Cond root (run_frames st) c) as [[]| |]; simpl in H;
      try done.
    + destruct (execute_StmtSeq root fuel st ss local) as [st1| |] eqn:E;
        simpl in H; try done. eauto using names_outside_trans.
    + injection H as <-. by split.
Qed.

Lemma execute_If_names fuel st s local st' :
  match s with If_5 _ _ _ | If_7 _ _ _ _ => True | _ => False end ->
  execute_Stmt root fuel st s local = Ok st' ->
  ∀ l x, l < length (run_frames st) ->
    contains (run_frames st') l x = contains (run_frames st) l x.
Proof.
  intros Hs H. destruct fuel as [|fuel]; [done|].
  rewrite execute_Stmt_S in H.
  destruct (execute_Stmt_names fuel) as (_ & Hss & _).
  assert (∀ st local self st1 st2,
            enter st local = (self, st1) -> names_outside self st1 st2 ->
            ∀ l x, l < length (run_frames st) ->
              contains (run_frames (leave st2 local)) l x
              = contains (run_frames st) l x) as Hblock.
  { clear. intros st local self st1 st2 He [Hlen Hn] l x Hl.
    destruct (enter_names st local) as (Hself & Hlen1 & Hc1).
    rewrite He in Hself, Hlen1, Hc1. cbn [fst snd] in *.
    unfold leave. simpl. rewrite contains_set_child.
    rewrite Hn by lia. apply Hc1. }
  destruct s as [| | |l c s|l c s1 s2| |]; try done.
  - destruct (enter st local) as [self st1] eqn:He.
    destruct (execute_Cond root (run_frames st1) c) as [[]| |]; simpl in H;
      try done.
    + destruct (execute_StmtSeq root fuel st1 s self) as [st2| |] eqn:E;
        simpl in H; try done. injection H as <-. eauto.
    + injection H as <-. apply (Hblock st local self st1 st1 He). by split.
  - destruct (enter st local) as [self st1] eqn:He.
    destruct (execute_Cond root (run_frames st1) c) as [[]| |]; simpl in H;
      try done.
    + destruct (execute_StmtSeq root fuel st1 s1 self) as [st2| |] eqn:E;
        simpl in H; try done. injection H as <-. eauto.
    + destruct (execute_StmtSeq root fuel st1 s2 self) as [st2| |] eqn:E;
        simpl in H; try done. injection H as <-. eauto.
Qed.
End Names.

(** X12.  What an [if] declares stays in the [if]: after the statement
    has run, every frame that existed before it holds exactly the names
    it held, the frame the [if] ran against included, and the block's own
    frame is detached again. *)
Theorem If_declares_locally root fuel st l c s1 s2 local st' :
  execute_Stmt root fuel st (If_5 l c s1) local = Ok st'
  ∨ execute_Stmt root fuel st (If_7 l c s1 s2) local = Ok st' ->
  local < length (run_frames st) ->
  child (frame (run_frames st') local) = None
  ∧ ∀ l' x, l' < length (run_frames st) ->
      contains (run_frames st') l' x = contains (run_frames st) l' x.
Proof.
  intros H Hl. split.
  - assert (∃ st2, st' = leave st2 local
                   ∧ length (run_frames st) ≤ length (run_frames st2))
      as (st2 & -> & Hlen).
    { destruct fuel as [|fuel]; [by destruct H|].
      destruct (execute_Stmt_names root fuel) as (_ & Hss & _).
      pose proof (enter_names st local) as (_ & Hlen1 & _).
      rewrite !execute_Stmt_S in H.
      destruct (enter st local) as [self st1]. cbn [snd] in Hlen1.
      destruct (execute_Cond root (run_frames st1) c) as [[]| |];
        simpl in H; [| |by destruct H..].
      - destruct H as [H|H].
        + destruct (execute_StmtSeq root fuel st1 s1 self) as [st2| |] eqn:E;
            simpl in H; try done. injection H as <-.
          apply Hss in E as [? _]. exists st2. split; [done|lia].
        + destruct (execute_StmtSeq root fuel st1 s1 self) as [st2| |] eqn:E;
            simpl in H; try done. injection H as <-.
          apply Hss in E as [? _]. exists st2. split; [done|lia].
      - destruct H as [H|H].
        + injection H as <-. exists st1. split; [done|lia].
        + destruct (execute_StmtSeq root fuel st1 s2 self) as [st2| |] eqn:E;
            simpl in H; try done. injection H as <-.
          apply Hss in E as [? _]. exists st2. split; [done|lia]. }
    unfold leave. simpl. rewrite child_set_child.
    by rewrite decide_True by (split; [done|lia]).
  - destruct H as [H|H].
    + exact (execute_If_names root fuel st (If_5 l c s1) local st' I H).
    + exact (execute_If_names root fuel st (If_7 l c s1 s2) local st' I H).
Qed.

Lemma If_declares_locally_witness :
  ∃ st', execute_Stmt 0 4 (Run_ declared_store [] []) if_declares 1 = Ok st'
    ∧ length (run_frames st') = 3
    ∧ contains (run_frames st') 2 "y" = true
    ∧ child (frame (run_frames st') 1) = None
    ∧ ∀ l' x, l' < 2 ->
        contains (run_frames st') l' x = contains declared_store l' x.
Proof.
  destruct (execute_Stmt 0 4 (Run_ declared_store [] []) if_declares 1)
    as [st'| |] eqn:E; [|discriminate E..].
  exists st'. split; [reflexivity|].
  injection E as E. split; [by rewrite <- E|]. split; [by rewrite <- E|].
  apply (If_declares_locally 0 4 (Run_ declared_store [] []) 2
           (Cond_1 (Cmpr_3 (Expr_1 (Term_1 (Factor_Const 1))) LESS
                           (Expr_1 (Term_1 (Factor_Const 2)))))
           (StmtSeq_2 (Stmt_Decl (Decl_3 (IdList_1 "y")))
              (StmtSeq_1 (Assign "y" (Expr_1 (Term_1 (Factor_Const 3))))))
           (StmtSeq_1 (Output (Expr_1 (Term_1 (Factor_Const 0))))) 1 st').
  - left. rewrite <- E. reflexivity.
  - simpl. lia.
Defined.

(** ** The checking pass against the executor *)

Section StoreEq.
Context {V : Type}.
Implicit Types (h : list (scope_tree V)) (l c : loc) (x : string) (v : V).

Lemma contains_set_item_eq h l x v y :
  l < length h ->
  contains (set_item h l x v) l y = bool_decide (x = y) || contains h l y.
Proof.
  intros Hl. unfold contains. rewrite lookup_set_item.
  rewrite decide_True by done. case_decide as Hxy.
  - rewrite (bool_decide_eq_true_2 _ Hxy). simpl.
    first [done|apply bool_decide_eq_true; eauto].
  - by rewrite (bool_decide_eq_false_2 _ Hxy).
Qed.
End StoreEq.

Section Agreement.
Variable root : loc.

Lemma agree_Id l hs he x :
  agree l hs he ->
  match semantics_Id root hs x (Some declare) l,
        execute_Id_declare root he x l with
  | Ok hs', Ok he' => agree l hs' he'
  | Err e1, Err e2 => e1 = e2
  | _, _ => False
  end.
Proof.
  intros (Hfs & Hfe & Hls & Hle & Hc).
  unfold semantics_Id, execute_Id_declare.
  destruct (dfs_scope_forward hs root x Hfs) as [rs ->].
  destruct (dfs_scope_forward he root x Hfe) as [re ->]. simpl.
  rewrite <- Hc. destruct (contains hs l x) eqn:Hx; simpl; [done|].
  split; [by apply forward_set_item|]. split; [by apply forward_set_item|].
  split; [by rewrite length_set_item|]. split; [by rewrite length_set_item|].
  intros y. rewrite !contains_set_item_eq by done. by rewrite Hc.
Qed.

Lemma agree_IdList l li : ∀ hs he,
  agree l hs he ->
  match semantics_IdList root hs li (Some declare) l,
        execute_IdList root he li l with
  | Ok hs', Ok he' => agree l hs' he'
  | Err e1, Err e2 => e1 = e2
  | _, _ => False
  end.
Proof.
  induction li as [x|x li IH]; intros hs he Ha; simpl.
  - by apply agree_Id.
  - pose proof (agree_Id l hs he x Ha) as H1.
    destruct (semantics_Id root hs x (Some declare) l) as [hs1|e1|],
      (execute_Id_declare root he x l) as [he1|e2|]; try done; simpl.
    by apply IH.
Qed.

Lemma agree_DeclSeq l ds : ∀ hs he (parent : option label),
  agree l hs he ->
  match semantics_DeclSeq root hs ds parent l,
        execute_DeclSeq root he ds l with
  | Ok hs', Ok he' => agree l hs' he'
  | Err e1, Err e2 => e1 = e2
  | _, _ => False
  end.
Proof.
  induction ds as [[li]|[li] ds IH]; intros hs he parent Ha; simpl.
  - by apply agree_IdList.
  - pose proof (agree_IdList l li hs he Ha) as H1.
    destruct (semantics_IdList root hs li (Some declare) l) as [hs1|e1|],
      (execute_IdList root he li l) as [he1|e2|]; try done; simpl.
    by apply IH.
Qed.

Lemma semantics_StmtSeq_first frames ss parent l x frames' :
  forward frames -> l < length frames ->
  slots_StmtSeq (S l) (length frames) ss ->
  declares_first ss = Some x ->
  semantics_StmtSeq root frames ss parent l = Ok frames' ->
  forward frames' ∧ contains frames' l x = true.
Proof.
  intros Hf Hl Hs Hx H.
  destruct ss as [[| | | | | |[li]]|[| | | | | |[li]] ss]; try done;
    simpl in Hx, H; injection Hx as <-.
  - split; [by apply semantics_IdList_kept in H as [? _]|].
    by eapply semantics_IdList_first.
  - destruct (semantics_IdList root frames li (Some declare) l)
      as [frames1| |] eqn:E; [|done..]. cbn [mbind res_bind] in H.
    pose proof (semantics_IdList_first root li frames l frames1 Hf Hl E) as Hc.
    apply semantics_IdList_kept in E as [Hf1 [Hlen1 _]]; [|done].
    destruct Hs as [_ Hs].
    apply (proj2 (semantics_Stmt_kept root) _ _ _ _ (S l)) in H
      as [Hf2 [_ Hg]]; [by split; [|apply Hg]|done|lia|].
    apply (proj2 slots_weaken _ (S l) (length frames)); [lia..|done].
Qed.

Lemma semantics_StmtSeq_again frames ss parent l x :
  forward frames -> contains frames l x = true ->
  declares_first ss = Some x ->
  semantics_StmtSeq root frames ss parent l = Err (DeclaredTwice x).
Proof.
  intros Hf Hc Hx.
  destruct ss as [[| | | | | |[[y|y li]]]|[| | | | | |[[y|y li]]] ss];
    try done; simpl in Hx |- *; injection Hx as <-;
    by rewrite semantics_Id_declare_again.
Qed.
End Agreement.

(** X13.  The checking pass and the executor treat a declaration sequence
    alike.  Started on frames that hold the same names, both end with the
    same message when a name is declared twice, and otherwise both return
    and leave the same names declared. *)
Theorem DeclSeq_check_matches_run root hs he ds parent l :
  forward hs -> forward he -> l < length hs -> l < length he ->
  (∀ x, contains hs l x = contains he l x) ->
  same_outcome l (semantics_DeclSeq root hs ds parent l)
                 (execute_DeclSeq root he ds l).
Proof.
  intros Hfs Hfe Hls Hle Hc. unfold same_outcome.
  pose proof (agree_DeclSeq root l ds hs he parent) as H.
  destruct (semantics_DeclSeq root hs ds parent l) as [hs'|e1|],
    (execute_DeclSeq root he ds l) as [he'|e2|];
    by apply H.
Qed.

Lemma DeclSeq_check_matches_run_witness :
  same_outcome 0
    (semantics_DeclSeq 0 [new_scope; new_scope] declares_x_twice None 0)
    (execute_DeclSeq 0 [new_scope; new_scope] declares_x_twice 0)
  ∧ execute_DeclSeq 0 [new_scope; new_scope] declares_x_twice 0
    = Err (DeclaredTwice "x").
Proof.
  split; [|reflexivity].
  apply (DeclSeq_check_matches_run 0 [new_scope; new_scope]
           [new_scope; new_scope] declares_x_twice None 0).
  - exact (forward_replicate 2).
  - intros l c. destruct l as [|[|l]]; intros H; discriminate H.
  - simpl. lia.
  - simpl. lia.
  - intros x. reflexivity.
Defined.

(** X14.  The two branches of an [if] are checked against one frame.  So
    when the branch after [then] passes the check and starts with a
    declaration, an [else] branch that starts by declaring the same name
    is rejected as a duplicate, although only one of the branches runs. *)
Theorem If_branches_share_frame root frames l c s1 s2 parent scope x frames' :
  forward frames -> scope < l -> l < length frames ->
  slots_StmtSeq (S l) (length frames) s1 ->
  declares_first s1 = Some x -> declares_first s2 = Some x ->
  semantics_Stmt root frames (If_5 l c s1) parent scope = Ok frames' ->
  semantics_Stmt root frames (If_7 l c s1 s2) parent scope
  = Err (DeclaredTwice x).
Proof.
  intros Hf Hsl Hl Hs Hx1 Hx2 H. simpl in H |- *.
  match type of H with (?m ≫= _) = _ =>
    destruct m as [frames1| |] eqn:E1 end;
    cbn [mbind res_bind] in H |- *; [|discriminate H..].
  match type of H with (?m ≫= _) = _ =>
    destruct m as [frames2| |] eqn:E2 end;
    cbn [mbind res_bind] in H |- *; [|discriminate H..].
  apply (proj1 (semantics_Cond_kept root)) in E1 as [Hf1 [Hlen1 _]];
    [|by apply forward_attach].
  rewrite length_set_child in Hlen1.
  apply semantics_StmtSeq_first with (x := x) in E2 as [Hf2 Hc2];
    [|done|lia| |done].
  - by rewrite (semantics_StmtSeq_again root frames2 s2 parent l x).
  - apply (proj2 slots_weaken _ (S l) (length frames)); [lia..|done].
Qed.

Lemma If_branches_share_frame_witness :
  semantics_Stmt 0 checking_store
    (If_7 2 (Cond_1 (Cmpr_3 (Expr_1 (Term_1 (Factor_Const 1))) LESS
                            (Expr_1 (Term_1 (Factor_Const 2)))))
       (StmtSeq_2 (Stmt_Decl (Decl_3 (IdList_1 "y")))
          (StmtSeq_1 (Assign "y" (Expr_1 (Term_1 (Factor_Const 3))))))
       else_declares) None 1
  = Err (DeclaredTwice "y").
Proof.
  destruct (semantics_Stmt 0 checking_store
    (If_5 2 (Cond_1 (Cmpr_3 (Expr_1 (Term_1 (Factor_Const 1))) LESS
                            (Expr_1 (Term_1 (Factor_Const 2)))))
       (StmtSeq_2 (Stmt_Decl (Decl_3 (IdList_1 "y")))
          (StmtSeq_1 (Assign "y" (Expr_1 (Term_1 (Factor_Const 3)))))))
    None 1) as [checked|e|] eqn:E.
  - apply (If_branches_share_frame 0 checking_store 2 _ _
             else_declares None 1 "y" checked).
    + intros [|[|[|l]]] c H; try discriminate H.
      injection H as <-. simpl. lia.
    + lia.
    + simpl. lia.
    + simpl. done.
    + reflexivity.
    + reflexivity.
    + exact E.
  - vm_compute in E. discriminate E.
  - vm_compute in E. discriminate E.
Defined.

(** ** Runs without loops end *)

Section Returns.
Variable root : loc.
Implicit Types (frames : list (scope_tree (option value))) (st : Run).

Lemma dfs_scope_rec_returns {V} fuel : ∀ (h : list (scope_tree V)) tree var,
  dfs_scope_rec fuel h tree var ≠ OutOfFuel.
Proof.
  induction fuel as [|fuel IH]; [done|]. intros h tree var. simpl.
  apply bind_not_out.
  - destruct (child (frame h tree)); [apply IH|done].
  - intros [s|] _; repeat case_match; done.
Qed.

Lemma execute_Id_get_returns frames x :
  execute_Id_get root frames x ≠ OutOfFuel.
Proof.
  unfold execute_Id_get. apply bind_not_out; [apply dfs_scope_rec_returns|].
  intros [t|] _; repeat case_match; done.
Qed.

Lemma execute_Expr_returns frames :
  (∀ e, execute_Expr root frames e ≠ OutOfFuel)
  ∧ (∀ t, execute_Term root frames t ≠ OutOfFuel)
  ∧ (∀ f, execute_Factor root frames f ≠ OutOfFuel)
  ∧ (∀ p, execute_ExprParen root frames p ≠ OutOfFuel).
Proof.
  apply Expr_mutind; simpl; auto using execute_Id_get_returns.
  - intros t IHt op e IHe. apply bind_not_out; [done|]. intros a _.
    repeat case_decide; [| |done]; (apply bind_not_out; [done|]);
      intros b _; by destruct a, b.
  - intros f IHf op t IHt. apply bind_not_out; [done|]. intros a _.
    case_decide; [|done]. apply bind_not_out; [done|].
    intros b _; by destruct a, b.
Qed.

Lemma execute_Cmpr_returns frames c : execute_Cmpr root frames c ≠ OutOfFuel.
Proof.
  destruct (execute_Expr_returns frames) as (HE & _).
  destruct c as [e1 op e2|e1 e2]; simpl; (apply bind_not_out; [done|]);
    intros a _; [|done].
  repeat case_decide; (apply bind_not_out; [done|]); intros b _;
    by destruct a, b.
Qed.

Lemma execute_Cond_returns frames :
  (∀ c, execute_Cond root frames c ≠ OutOfFuel)
  ∧ (∀ c, execute_Cmpr root frames c ≠ OutOfFuel)
  ∧ (∀ p, execute_CondParen root frames p ≠ OutOfFuel).
Proof.
  apply Cond_mutind; simpl; auto.
  - intros p IHp. by apply bind_not_out.
  - intros c IHc op d IHd. apply bind_not_out; [done|]. intros a _.
    case_decide; [|done]. by apply bind_not_out.
  - intros e1 op e2. apply (execute_Cmpr_returns frames (Cmpr_3 e1 op e2)).
  - intros e1 e2. apply (execute_Cmpr_returns frames (Cmpr_2 e1 e2)).
Qed.

Lemma execute_IdList_returns l : ∀ frames local,
  execute_IdList root frames l local ≠ OutOfFuel.
Proof.
  assert (∀ frames x local, execute_Id_declare root frames x local ≠ OutOfFuel)
    as Hone.
  { intros. unfold execute_Id_declare.
    apply bind_not_out; [apply dfs_scope_rec_returns|].
    intros _ _. by case_match. }
  induction l as [x|x l IH]; intros frames local; simpl; [done|].
  by apply bind_not_out.
Qed.

Lemma execute_DeclSeq_returns ds : ∀ frames local,
  execute_DeclSeq root frames ds local ≠ OutOfFuel.
Proof.
  induction ds as [[l]|[l] ds IH]; intros frames local; simpl.
  - apply execute_IdList_returns.
  - apply bind_not_out; [apply execute_IdList_returns|done].
Qed.

Lemma execute_Id_assign_returns frames x :
  execute_Id_assign root frames x ≠ OutOfFuel.
Proof.
  unfold execute_Id_assign. apply bind_not_out; [apply dfs_scope_rec_returns|].
  by intros [t|] _.
Qed.

Lemma execute_Stmt_returns :
  (∀ s, loop_free_Stmt s -> ∀ fuel st local, depth_Stmt s ≤ fuel ->
     execute_Stmt root fuel st s local ≠ OutOfFuel)
  ∧ (∀ ss, loop_free_StmtSeq ss -> ∀ fuel st local, depth_StmtSeq ss ≤ fuel ->
     execute_StmtSeq root fuel st ss local ≠ OutOfFuel).
Proof.
  apply Stmt_mutind.
  - intros x e _ [|fuel] st local Hd; simpl in Hd; [lia|].
    rewrite execute_Stmt_S. unfold execute_Assign.
    apply bind_not_out; [apply execute_Id_assign_returns|]. intros [var t] _.
    apply bind_not_out; [apply execute_Expr_returns|done].
  - intros x _ [|fuel] st local Hd; simpl in Hd; [lia|].
    rewrite execute_Stmt_S. unfold execute_Input.
    apply bind_not_out; [apply execute_Id_assign_returns|]. intros [var t] _.
    by case_match.
  - intros e _ [|fuel] st local Hd; simpl in Hd; [lia|].
    rewrite execute_Stmt_S. unfold execute_Output.
    apply bind_not_out; [apply execute_Expr_returns|done].
  - intros l c s IH Hs [|fuel] st local Hd; simpl in Hd, Hs; [lia|].
    rewrite execute_Stmt_S. destruct (enter st local) as [self st1].
    apply bind_not_out; [apply execute_Cond_returns|]. intros [] _;
      (apply bind_not_out; [|done]); [|done].
    apply IH; [done|lia].
  - intros l c s1 IH1 s2 IH2 [Hs1 Hs2] [|fuel] st local Hd; simpl in Hd; [lia|].
    rewrite execute_Stmt_S. destruct (enter st local) as [self st1].
    apply bind_not_out; [apply execute_Cond_returns|]. intros [] _;
      (apply bind_not_out; [|done]).
    + apply IH1; [done|lia].
    + apply IH2; [done|lia].
  - intros l c s IH [].
  - intros [li] _ [|fuel] st local Hd; simpl in Hd; [lia|].
    rewrite execute_Stmt_S.
    apply bind_not_out; [apply execute_IdList_returns|done].
  - intros s IH Hs [|fuel] st local Hd; simpl in Hd, Hs; [lia|].
    rewrite execute_StmtSeq_S. apply IH; [done|lia].
  - intros s IHs ss IHss [Hs Hss] [|fuel] st local Hd; simpl in Hd; [lia|].
    rewrite execute_StmtSeq_S. apply bind_not_out; [apply IHs; [done|lia]|].
    intros st1 _. apply IHss; [done|lia].
Qed.
End Returns.

(** X15.  Only a [while] can keep the executor running: on a program
    without loops the run ends, with a final state or with an abort,
    within a depth of calls that the nesting of the statements bounds. *)
Theorem loop_free_run_ends tree text k :
  loop_free_StmtSeq (Program_stmts tree) ->
  execute_tree (depth_StmtSeq (Program_stmts tree) + k) tree text
  ≠ OutOfFuel.
Proof.
  intros Hs. unfold execute_tree. apply bind_not_out.
  - unfold clean_data. by case_match.
  - intros data _. cbn [alloc app length]. unfold execute_Program.
    cbn [alloc fst snd].
    apply bind_not_out; [apply execute_DeclSeq_returns|]. intros frames1 _.
    apply execute_Stmt_returns; [done|lia].
Qed.

Lemma loop_free_run_ends_witness :
  execute_tree (depth_StmtSeq (Program_stmts assign_one_tree) + 0)
    assign_one_tree "1" ≠ OutOfFuel.
Proof.
  apply (loop_free_run_ends assign_one_tree "1" 0). exact I.
Defined.

(** ** The data file; groups in conditions *)

Lemma split_space_cons c text :
  ∃ w ws, split_space text = w :: ws
    ∧ split_space (String c text)
      = if Ascii.eqb c " "%char then EmptyString :: w :: ws
        else String c w :: ws.
Proof.
  assert (∀ t, ∃ w ws, split_space t = w :: ws) as Hne.
  { induction t as [|a t (w & ws & IH)]; simpl; [by eauto|].
    rewrite IH. case_match; eauto. }
  destruct (Hne text) as (w & ws & H). exists w, ws. split; [done|].
  simpl. by rewrite H.
Qed.

(** An empty piece after the first one, which is what two adjacent spaces
    and a trailing space leave. *)
Lemma split_space_double a b :
  EmptyString ∈ tail (split_space (a +:+ String " " (String " " b))).
Proof.
  induction a as [|c a IH].
  - change (EmptyString +:+ ?s) with s.
    destruct (split_space_cons " " b) as (w & ws & Hb & H1).
    destruct (split_space_cons " " (String " " b)) as (w' & ws' & Hb' & H2).
    rewrite H2. simpl. rewrite Hb' in H1. injection H1 as -> _. set_solver.
  - change (String c a +:+ ?s) with (String c (a +:+ s)).
    destruct (split_space_cons c (a +:+ String " " (String " " b)))
      as (w & ws & Hs & ->).
    rewrite Hs in IH. case_match; simpl in *; set_solver.
Qed.

Lemma split_space_trailing a :
  EmptyString ∈ tail (split_space (a +:+ " ")).
Proof.
  induction a as [|c a IH]; [simpl; set_solver|].
  change (String c a +:+ ?s) with (String c (a +:+ s)).
  destruct (split_space_cons c (a +:+ " ")) as (w & ws & Hs & ->).
  rewrite Hs in IH. case_match; simpl in *; set_solver.
Qed.

Lemma py_int_empty : py_int EmptyString = None.
Proof. reflexivity. Qed.

Lemma clean_data_empty_piece text :
  EmptyString ∈ split_space text -> clean_data text = Err PyValueError.
Proof.
  intros Hin. unfold clean_data.
  destruct (forallb _ (split_space text)) eqn:E; [|done].
  rewrite forallb_forall in E. apply list_elem_of_In, E in Hin.
  by rewrite py_int_empty in Hin.
Qed.

(** X16.  [clean_data] rejects every data file that [split(' ')] cuts
    into an empty piece: an empty file, a file that starts or ends with a
    space, and a file with two spaces in a row all end the run with a
    [ValueError] before the first statement runs. *)
Theorem clean_data_needs_single_spaces a b :
  clean_data EmptyString = Err PyValueError
  ∧ clean_data (" " +:+ b) = Err PyValueError
  ∧ clean_data (a +:+ " ") = Err PyValueError
  ∧ clean_data (a +:+ "  " +:+ b) = Err PyValueError.
Proof.
  split; [reflexivity|]. split; [|split]; apply clean_data_empty_piece.
  - simpl. set_solver.
  - pose proof (split_space_trailing a) as H.
    destruct (split_space (a +:+ " ")); simpl in H; set_solver.
  - pose proof (split_space_double a b) as H.
    change ("  " +:+ b) with (String " " (String " " b)).
    destruct (split_space _); simpl in H; set_solver.
Qed.

(** X17.  [Cond.cond_paren_parse] takes a second group [( Cond2 )] when
    it follows the first condition directly: [! ( Cond1 ( Cond2 ) )] is
    one condition.  [Cond.execute] negates the first condition and never
    runs the groups that follow it. *)
Theorem Cond_paren_groups fuel s c1 s1 c2 rest :
  parse_Cond (S fuel) s = Ok (c1, Lex LPAREN :: s1) ->
  parse_Cond fuel s1 = Ok (c2, Lex RPAREN :: Lex RPAREN :: rest) ->
  parse_Cond (3 + fuel) (Lex NEGATION :: Lex LPAREN :: s)
  = Ok (Cond_neg (CondParen_2 c1 (CondParen_1 c2)), rest)
  ∧ ∀ root frames p,
      execute_Cond root frames (Cond_neg (CondParen_2 c1 p))
      = (r ← execute_Cond root frames c1; Ok (negb r)).
Proof.
  intros H1 H2. split; [|done].
  change (3 + fuel) with (S (S (S fuel))).
  rewrite parse_Cond_S. rewrite decide_True by done.
  rewrite (token_assert_hit (Lex NEGATION)). cbn [mbind res_bind].
  rewrite cond_paren_parse_S.
  rewrite (token_assert_hit (Lex LPAREN)). cbn [mbind res_bind].
  rewrite H1. cbn [mbind res_bind]. rewrite decide_True by done.
  rewrite cond_paren_parse_S.
  rewrite (token_assert_hit (Lex LPAREN)). cbn [mbind res_bind].
  rewrite H2. cbn [mbind res_bind]. rewrite decide_False by done.
  rewrite (token_assert_hit (Lex RPAREN)). cbn [mbind res_bind].
  by rewrite (token_assert_hit (Lex RPAREN)).
Qed.

Lemma Cond_paren_groups_witness :
  ∃ c1 c2, parse_Cond 8 not_two_groups
           = Ok (Cond_neg (CondParen_2 c1 (CondParen_1 c2)), [])
    ∧ execute_Cond 0 [new_scope] (Cond_neg (CondParen_2 c1 (CondParen_1 c2)))
      = Ok false.
Proof.
  exists (Cond_1 (Cmpr_3 (Expr_1 (Term_1 (Factor_Const 1))) LESS
                         (Expr_1 (Term_1 (Factor_Const 2))))),
    (Cond_1 (Cmpr_3 (Expr_1 (Term_1 (Factor_Id "y"))) EQUAL
                    (Expr_1 (Term_1 (Factor_Const 0))))).
  destruct (Cond_paren_groups 5
              [LexConst 1; Lex LESS; LexConst 2;
               Lex LPAREN; LexId "y"; Lex EQUAL; LexConst 0; Lex RPAREN;
               Lex RPAREN]
              (Cond_1 (Cmpr_3 (Expr_1 (Term_1 (Factor_Const 1))) LESS
                              (Expr_1 (Term_1 (Factor_Const 2)))))
              [LexId "y"; Lex EQUAL; LexConst 0; Lex RPAREN; Lex RPAREN]
              (Cond_1 (Cmpr_3 (Expr_1 (Term_1 (Factor_Id "y"))) EQUAL
                              (Expr_1 (Term_1 (Factor_Const 0))))) [])
    as [Hparse Hexec].
  - reflexivity.
  - reflexivity.
  - split; [exact Hparse|]. rewrite Hexec. reflexivity.
Defined.

(** ** The shape of an accepted program *)

Lemma kind_Lex l k : kind l = k -> k ≠ ID -> k ≠ CONST -> l = Lex k.
Proof. destruct l; simpl; congruence. Qed.

(** X18.  What the parser accepts has the shape
    [program <declarations> begin <statements> end]: the two parts are
    not empty, and after [end] the token source is exhausted. *)
Theorem Parser_parse_shape_of_source fuel scanner parser :
  Parser_parse fuel scanner = Ok parser ->
  ∃ decls stmts rest,
    scanner = Lex PROGRAM :: decls ++ Lex BEGIN :: stmts ++ Lex END :: rest
    ∧ decls ≠ [] ∧ stmts ≠ [] ∧ token rest = ERROR.
Proof.
  unfold Parser_parse, parse_Program. cbn [alloc app length].
  intros H. ok_inv H. rename E into H. ok_inv H.
  match goal with
  | E1 : token_assert scanner PROGRAM = Ok ?s1,
    E2 : parse_DeclSeq _ ?s1 = Ok (_, ?s2),
    E3 : token_assert ?s2 BEGIN = Ok ?s3,
    E4 : parse_StmtSeq _ ?s3 _ = Ok (_, ?s4, _),
    E5 : token_assert ?s4 END = Ok ?s5 |- _ =>
      apply token_assert_Ok in E1 as (t1 & -> & K1); [|done];
      apply parse_DeclSeq_adv in E2 as (decls & ? & ->);
      apply token_assert_Ok in E3 as (t2 & -> & K2); [|done];
      apply (proj1 (parse_StmtSeq_advances _)) in E4 as (stmts & ? & ->);
      apply token_assert_Ok in E5 as (t3 & -> & K3); [|done];
      exists decls, stmts, s5
  end.
  destruct t1 as [k1| |]; try discriminate K1.
  destruct t2 as [k2| |]; try discriminate K2.
  destruct t3 as [k3| |]; try discriminate K3.
  simpl in K1, K2, K3. subst k1 k2 k3.
  repeat split; try done.
  match goal with
  | |- token ?r = ERROR => by destruct (decide (token r = ERROR))
  end.
Qed.

Lemma Parser_parse_shape_of_source_witness :
  ∃ decls stmts rest,
    assign_undeclared
    = Lex PROGRAM :: decls ++ Lex BEGIN :: stmts ++ Lex END :: rest
    ∧ decls ≠ [] ∧ stmts ≠ [] ∧ token rest = ERROR.
Proof.
  apply (Parser_parse_shape_of_source 6 assign_undeclared
           (Parser_ (Program_5 1 (DeclSeq_1 (Decl_3 (IdList_1 "x")))
                       (StmtSeq_1 (Assign "y"
                          (Expr_1 (Term_1 (Factor_Const 1))))))
                    0 [new_scope; new_scope])).
  reflexivity.
Defined.

(** ** The flags of the checking pass *)

Section Flags.
Variable root : loc.
Implicit Types (hs : list (scope_tree bool)).

Lemma same_names_refl hs : same_names hs hs.
Proof. by split. Qed.

Lemma same_names_set_item hs hs' l x v v' :
  same_names hs hs' -> same_names (set_item hs l x v) (set_item hs' l x v').
Proof.
  intros [Hlen H]. split; [by rewrite !length_set_item|].
  intros t. split.
  - rewrite !child_set_item. apply H.
  - intros y. unfold contains. rewrite !lookup_set_item, <- Hlen.
    destruct (H t) as [_ Hc]. specialize (Hc y). unfold contains in Hc.
    repeat case_decide; done.
Qed.

Lemma same_names_set_child hs hs' l oc :
  same_names hs hs' -> same_names (set_child hs l oc) (set_child hs' l oc).
Proof.
  intros [Hlen H]. split; [by rewrite !length_set_child|].
  intros t. split.
  - rewrite !child_set_child, <- Hlen. case_decide; [done|apply H].
  - intros y. rewrite !contains_set_child. apply H.
Qed.

Lemma same_names_dfs_rec fuel : ∀ hs hs' tree x,
  same_names hs hs' ->
  dfs_scope_rec fuel hs tree x = dfs_scope_rec fuel hs' tree x.
Proof.
  induction fuel as [|fuel IH]; [done|]. intros hs hs' tree x Hs. simpl.
  destruct Hs as [Hlen H]. destruct (H tree) as [<- Hc].
  rewrite <- (Hc x).
  destruct (child (frame hs tree)) as [c|].
  - rewrite <- (IH hs hs' c x) by (by split).
    destruct (dfs_scope_rec fuel hs c x) as [[s|]| |]; simpl; try done.
    destruct (H s) as [_ Hs]. by rewrite <- (Hs x).
  - done.
Qed.

Lemma same_names_dfs hs hs' tree x :
  same_names hs hs' -> dfs_scope hs tree x = dfs_scope hs' tree x.
Proof.
  intros Hs. unfold dfs_scope. destruct Hs as [Hlen H]. rewrite <- Hlen.
  by apply same_names_dfs_rec.
Qed.

Lemma same_verdict_bind (m m' : res (list (scope_tree bool))) k k' :
  same_verdict m m' ->
  (∀ hs hs', same_names hs hs' -> same_verdict (k hs) (k' hs')) ->
  same_verdict (m ≫= k) (m' ≫= k').
Proof.
  intros Hm Hk. destruct m, m'; try done; cbn [mbind res_bind]. by apply Hk.
Qed.

Lemma semantics_Id_flags hs hs' x parent scope :
  same_names hs hs' -> parent ≠ Some get ->
  same_verdict (semantics_Id root hs x parent scope)
               (semantics_Id root hs' x parent scope).
Proof.
  intros Hs Hp. unfold semantics_Id.
  rewrite <- (same_names_dfs hs hs' root x Hs).
  destruct (dfs_scope hs root x) as [tree|e|]; simpl; [|done..].
  destruct parent as [[| | | |]|]; try done.
  - destruct Hs as [Hlen H]. destruct (H scope) as [_ Hc].
    rewrite <- (Hc x). destruct (contains hs scope x); simpl; [done|].
    by apply same_names_set_item.
  - destruct tree as [t|]; [|done]. by apply same_names_set_item.
Qed.

Lemma semantics_Expr_flags :
  (∀ e hs hs' parent scope, same_names hs hs' -> parent ≠ Some get ->
     same_verdict (semantics_Expr root hs e parent scope)
                  (semantics_Expr root hs' e parent scope))
  ∧ (∀ t hs hs' parent scope, same_names hs hs' -> parent ≠ Some get ->
     same_verdict (semantics_Term root hs t parent scope)
                  (semantics_Term root hs' t parent scope))
  ∧ (∀ f hs hs' parent scope, same_names hs hs' -> parent ≠ Some get ->
     same_verdict (semantics_Factor root hs f parent scope)
                  (semantics_Factor root hs' f parent scope))
  ∧ (∀ p hs hs' parent scope, same_names hs hs' -> parent ≠ Some get ->
     same_verdict (semantics_ExprParen root hs p parent scope)
                  (semantics_ExprParen root hs' p parent scope)).
Proof.
  apply Expr_mutind; simpl; auto using semantics_Id_flags;
    intros; apply same_verdict_bind; auto.
Qed.

Lemma semantics_Cond_flags :
  (∀ c hs hs' parent scope, same_names hs hs' -> parent ≠ Some get ->
     same_verdict (semantics_Cond root hs c parent scope)
                  (semantics_Cond root hs' c parent scope))
  ∧ (∀ c hs hs' parent scope, same_names hs hs' -> parent ≠ Some get ->
     same_verdict (semantics_Cmpr root hs c parent scope)
                  (semantics_Cmpr root hs' c parent scope))
  ∧ (∀ p hs hs' parent scope, same_names hs hs' -> parent ≠ Some get ->
     same_verdict (semantics_CondParen root hs p parent scope)
                  (semantics_CondParen root hs' p parent scope)).
Proof.
  destruct semantics_Expr_flags as (HE & _).
  apply Cond_mutind; simpl; auto;
    intros; apply same_verdict_bind; auto.
Qed.

Lemma semantics_IdList_flags l : ∀ hs hs' parent scope,
  same_names hs hs' -> parent ≠ Some get ->
  same_verdict (semantics_IdList root hs l parent scope)
               (semantics_IdList root hs' l parent scope).
Proof.
  induction l as [x|x l IH]; intros hs hs' parent scope Hs Hp; simpl.
  - by apply semantics_Id_flags.
  - apply same_verdict_bind; [by apply semantics_Id_flags|]. auto.
Qed.

Lemma semantics_DeclSeq_flags ds : ∀ hs hs' parent scope,
  same_names hs hs' ->
  same_verdict (semantics_DeclSeq root hs ds parent scope)
               (semantics_DeclSeq root hs' ds parent scope).
Proof.
  induction ds as [[l]|[l] ds IH]; intros hs hs' parent scope Hs; simpl.
  - by apply semantics_IdList_flags.
  - apply same_verdict_bind; [by apply semantics_IdList_flags|]. auto.
Qed.

Lemma semantics_Stmt_flags :
  (∀ s hs hs' parent scope, same_names hs hs' -> parent ≠ Some get ->
     same_verdict (semantics_Stmt root hs s parent scope)
                  (semantics_Stmt root hs' s parent scope))
  ∧ (∀ ss hs hs' parent scope, same_names hs hs' -> parent ≠ Some get ->
     same_verdict (semantics_StmtSeq root hs ss parent scope)
                  (semantics_StmtSeq root hs' ss parent scope)).
Proof.
  destruct semantics_Expr_flags as (HE & _).
  destruct semantics_Cond_flags as (HC & _).
  apply Stmt_mutind; simpl.
  - intros x e hs hs' parent scope Hs Hp.
    apply same_verdict_bind; [by apply semantics_Id_flags|].
    intros. by apply HE.
  - intros x hs hs' parent scope Hs Hp. by apply semantics_Id_flags.
  - intros e hs hs' parent scope Hs Hp. by apply HE.
  - intros l c s IH hs hs' parent scope Hs Hp.
    apply same_verdict_bind; [by apply HC; [apply same_names_set_child|]|].
    intros h1 h1' H1. apply same_verdict_bind; [by apply IH|].
    intros h2 h2' H2. by apply same_names_set_child.
  - intros l c s1 IH1 s2 IH2 hs hs' parent scope Hs Hp.
    apply same_verdict_bind; [by apply HC; [apply same_names_set_child|]|].
    intros h1 h1' H1. apply same_verdict_bind; [by apply IH1|].
    intros h2 h2' H2. apply same_verdict_bind; [by apply IH2|].
    intros h3 h3' H3. by apply same_names_set_child.
  - intros l c s IH hs hs' parent scope Hs Hp.
    apply same_verdict_bind; [by apply HC; [apply same_names_set_child|]|].
    intros h1 h1' H1. apply same_verdict_bind; [by apply IH|].
    intros h2 h2' H2. by apply same_names_set_child.
  - intros [l] hs hs' parent scope Hs Hp. by apply semantics_IdList_flags.
  - intros s IH. exact IH.
  - intros s IHs ss IHss hs hs' parent scope Hs Hp.
    apply same_verdict_bind; [by apply IHs|]. intros. by apply IHss.
Qed.
End Flags.

(** X19.  The flags the checking pass stores are never read by it.  Two
    stores that hold the same names in the same frames, whatever the
    flags, draw the same verdict for every program: the same complaint,
    or two stores that still hold the same names. *)
Theorem flags_never_read root hs hs' p :
  same_names hs hs' ->
  same_verdict (semantics_Program root hs p) (semantics_Program root hs' p).
Proof.
  intros Hs. unfold semantics_Program.
  apply same_verdict_bind; [by apply semantics_DeclSeq_flags|].
  intros h1 h1' H1. apply semantics_Stmt_flags; [|done].
  by apply same_names_set_child.
Qed.

Lemma flags_never_read_witness :
  same_names (flagged_store false) (flagged_store true)
  ∧ same_verdict
      (semantics_Program 0 (flagged_store false) increment_program)
      (semantics_Program 0 (flagged_store true) increment_program).
Proof.
  assert (same_names (flagged_store false) (flagged_store true)) as Hs.
  { split; [reflexivity|]. intros [|[|[|l]]]; split; try reflexivity;
      intros x; unfold contains, flagged_store, frame; simpl;
      apply bool_decide_ext; rewrite !lookup_singleton_is_Some; done. }
  split; [exact Hs|].
  exact (flags_never_read 0 (flagged_store false) (flagged_store true)
           increment_program Hs).
Defined.

(** ** Products before sums *)

Lemma parse_Factor_fuel_le n m s r :
  n ≤ m -> parse_Factor n s = Ok r -> parse_Factor m s = Ok r.
Proof.
  induction 1 as [|m _ IH]; [done|].
  intros H. by apply parse_Expr_fuel_S, IH.
Qed.

(** X20.  A product is grouped before the additive operator on its left
    is applied: for [f1 op f2 * f3], with [op] one of [ADD] and [SUB],
    [Expr.parse] builds [f1 op (f2 * f3)], and [Expr.execute] multiplies
    first. *)
Theorem Term_binds_tighter fuel s s1 s2 rest f1 f2 f3 op :
  op = ADD ∨ op = SUB ->
  parse_Factor fuel s = Ok (f1, Lex op :: s1) ->
  parse_Factor fuel s1 = Ok (f2, Lex MULT :: s2) ->
  parse_Factor fuel s2 = Ok (f3, rest) ->
  token rest ≠ MULT -> token rest ≠ ADD -> token rest ≠ SUB ->
  parse_Expr (4 + fuel) s
  = Ok (Expr_3 (Term_1 f1) op (Expr_1 (Term_3 f2 MULT (Term_1 f3))), rest)
  ∧ ∀ root frames v1 v2 v3,
      execute_Factor root frames f1 = Ok v1 ->
      execute_Factor root frames f2 = Ok v2 ->
      execute_Factor root frames f3 = Ok v3 ->
      execute_Expr root frames
        (Expr_3 (Term_1 f1) op (Expr_1 (Term_3 f2 MULT (Term_1 f3))))
      = (r ← py_mul v2 v3; additive op v1 r).
Proof.
  intros Hop H1 H2 H3 Hm Ha Hs. split.
  - assert (parse_Term (1 + fuel) s2 = Ok (Term_1 f3, rest)) as T3.
    { change (1 + fuel) with (S fuel). rewrite parse_Term_S, H3.
      cbn [mbind res_bind].
      by rewrite decide_False. }
    assert (parse_Term (2 + fuel) s1
            = Ok (Term_3 f2 MULT (Term_1 f3), rest)) as T2.
    { change (2 + fuel) with (S (1 + fuel)). rewrite parse_Term_S.
      rewrite (parse_Factor_fuel_le fuel (1 + fuel) _ _ ltac:(lia) H2).
      cbn [mbind res_bind]. rewrite decide_True by done.
      rewrite (token_assert_hit (Lex MULT)). cbn [mbind res_bind].
      by rewrite T3. }
    assert (parse_Term (3 + fuel) s = Ok (Term_1 f1, Lex op :: s1)) as T1.
    { change (3 + fuel) with (S (2 + fuel)). rewrite parse_Term_S.
      rewrite (parse_Factor_fuel_le fuel (2 + fuel) _ _ ltac:(lia) H1).
      cbn [mbind res_bind]. rewrite decide_False; [done|].
      simpl. by destruct Hop as [-> | ->]. }
    apply (parse_Expr_chain (3 + fuel) s (Term_1 f1) op s1); [done..|].
    by apply (parse_Expr_single (2 + fuel)).
  - intros root frames v1 v2 v3 E1 E2 E3. unfold additive.
    destruct Hop as [-> | ->]; simpl; rewrite E1, E2, E3; simpl;
      by destruct (py_mul v2 v3).
Qed.

Lemma Term_binds_tighter_witness :
  parse_Expr 5 two_minus_three_times_four
  = Ok (Expr_3 (Term_1 (Factor_Const 2)) SUB
          (Expr_1 (Term_3 (Factor_Const 3) MULT (Term_1 (Factor_Const 4)))),
        [])
  ∧ execute_Expr 0 []
      (Expr_3 (Term_1 (Factor_Const 2)) SUB
         (Expr_1 (Term_3 (Factor_Const 3) MULT (Term_1 (Factor_Const 4)))))
    = Ok (VInt (-10)).
Proof.
  destruct (Term_binds_tighter 1 two_minus_three_times_four
              [LexConst 3; Lex MULT; LexConst 4] [LexConst 4] []
              (Factor_Const 2) (Factor_Const 3) (Factor_Const 4) SUB)
    as [Hparse Hexec].
  - right; reflexivity.
  - reflexivity.
  - reflexivity.
  - reflexivity.
  - intros H; discriminate H.
  - intros H; discriminate H.
  - intros H; discriminate H.
  - split; [exact Hparse|].
    exact (Hexec 0 [] (VInt 2) (VInt 3) (VInt 4) eq_refl eq_refl eq_refl).
Defined.

(** ** The frames of the blocks *)

Lemma numbered_nil frames : numbered frames frames [].
Proof. split; [by rewrite app_nil_r|done]. Qed.

Lemma numbered_app frames frames1 frames2 ls1 ls2 :
  numbered frames frames1 ls1 -> numbered frames1 frames2 ls2 ->
  numbered frames frames2 (ls1 ++ ls2).
Proof.
  intros [-> H1] [-> H2]. rewrite length_app, length_replicate in H2.
  split.
  - by rewrite length_app, replicate_add, app_assoc.
  - rewrite length_app, seq_app. by rewrite <- H1, <- H2.
Qed.

Lemma numbered_alloc frames frames' ls :
  numbered (alloc frames).2 frames' ls ->
  numbered frames frames' (length frames :: ls).
Proof.
  intros H. apply (numbered_app frames (alloc frames).2 frames' [_] ls);
    [|done].
  by split.
Qed.

Lemma parse_StmtSeq_locals fuel :
  (∀ s fr ss s' fr',
     parse_StmtSeq fuel s fr = Ok (ss, s', fr') ->
     numbered fr fr' (locals_StmtSeq ss))
  ∧ (∀ local s fr st s' fr',
     parse_If fuel local s fr = Ok (st, s', fr') ->
     ∃ ls, locals_Stmt st = local :: ls ∧ numbered fr fr' ls)
  ∧ (∀ local s fr st s' fr',
     parse_While fuel local s fr = Ok (st, s', fr') ->
     ∃ ls, locals_Stmt st = local :: ls ∧ numbered fr fr' ls).
Proof.
  induction fuel as [|fuel (IHss & IHif & IHwh)]; [by repeat split|].
  split; [|split].
  - intros s fr ss s' fr' H. rewrite parse_StmtSeq_S in H.
    match type of H with (?m ≫= _) = _ =>
      destruct m as [[[st s1] fr1]| |] eqn:E; [|discriminate H..] end.
    cbn [mbind res_bind] in H.
    assert (numbered fr fr1 (locals_Stmt st)) as H1.
    { repeat match type of E with
             | (if decide ?P then _ else _) = _ => destruct (decide P)
             end; try discriminate E.
      - ok_inv E.
        match goal with
        | E0 : parse_Assign _ _ = Ok _ |- _ => unfold parse_Assign in E0; ok_inv E0
        end.
        apply numbered_nil.
      - ok_inv E.
        match goal with
        | E0 : parse_Input _ = Ok _ |- _ => unfold parse_Input in E0; ok_inv E0
        end.
        apply numbered_nil.
      - ok_inv E.
        match goal with
        | E0 : parse_Output _ _ = Ok _ |- _ => unfold parse_Output in E0; ok_inv E0
        end.
        apply numbered_nil.
      - change (alloc fr) with (length fr, (alloc fr).2) in E.
        cbn iota beta in E. apply IHif in E as (ls & -> & Hn).
        by apply numbered_alloc.
      - change (alloc fr) with (length fr, (alloc fr).2) in E.
        cbn iota beta in E. apply IHwh in E as (ls & -> & Hn).
        by apply numbered_alloc.
      - ok_inv E.
        match goal with
        | E0 : parse_Decl _ _ = Ok _ |- _ => unfold parse_Decl in E0; ok_inv E0
        end.
        apply numbered_nil. }
    case_decide.
    + match type of H with (?m ≫= _) = _ =>
        destruct m as [[[ss2 s2] fr2]| |] eqn:E2; [|discriminate H..] end.
      cbn [mbind res_bind] in H. injection H as <- _ <-.
      apply IHss in E2. simpl. by eapply numbered_app.
    + by injection H as <- _ <-.
  - intros local s fr st s' fr' H. rewrite parse_If_S in H. ok_inv H.
    + repeat match goal with
             | E : parse_StmtSeq fuel _ _ = Ok _ |- _ => apply IHss in E
             end.
      eexists. split; [reflexivity|]. by eapply numbered_app.
    + repeat match goal with
             | E : parse_StmtSeq fuel _ _ = Ok _ |- _ => apply IHss in E
             end.
      eexists. split; [reflexivity|done].
  - intros local s fr st s' fr' H. rewrite parse_While_S in H. ok_inv H.
    repeat match goal with
           | E : parse_StmtSeq fuel _ _ = Ok _ |- _ => apply IHss in E
           end.
    eexists. split; [reflexivity|done].
Qed.

(** X21.  Every [If] and [While] node owns a frame of its own.  When the
    parser returns, its store is the root frame, the program frame and
    one frame for each such node, all of them empty, and the nodes hold
    these frames in the order in which they appear in the source. *)
Theorem nodes_own_their_frames fuel scanner parser :
  Parser_parse fuel scanner = Ok parser ->
  let ls := locals_StmtSeq (Program_stmts (tree parser)) in
  ls = seq 2 (length ls)
  ∧ frames parser = replicate (2 + length ls) new_scope.
Proof.
  unfold Parser_parse, parse_Program. cbn [alloc app length].
  intros H. ok_inv H. rename E into H. ok_inv H.
  match goal with
  | E : parse_StmtSeq _ _ _ = Ok _ |- _ =>
      apply parse_StmtSeq_locals in E as [-> Hls]
  end.
  cbn [tree frames Program_stmts]. split; [exact Hls|done].
Qed.

Lemma nodes_own_their_frames_witness :
  ∃ parser, Parser_parse 9 nested_blocks = Ok parser
    ∧ locals_StmtSeq (Program_stmts (tree parser)) = [2; 3; 4]
    ∧ frames parser = replicate 5 new_scope.
Proof.
  destruct (Parser_parse 9 nested_blocks) as [parser| |] eqn:E;
    [|vm_compute in E; discriminate E..].
  exists parser. split; [reflexivity|].
  pose proof (nodes_own_their_frames 9 nested_blocks parser E) as [H1 H2].
  assert (length (locals_StmtSeq (Program_stmts (tree parser))) = 3) as Hn.
  { vm_compute in E. injection E as <-. reflexivity. }
  rewrite Hn in H1, H2. split; [exact H1|exact H2].
Defined.
